(** * ShrinkRay / Dwindle: the puzzle generation engine

    A shallow embedding of [scripts/generate-puzzles.mjs]: the word
    normaliser, the anagram-bucket index, the reachability query with its
    cache, the solvability memoiser, the seeded chain builder and the
    puzzle-set assembler, followed by the properties the design document
    states about them.
    After these come the start-date parser and the reading of the command
    line and of the words file, with further properties of all the parts.

    Modelling conventions.
    - A JS string is a [string]: a sequence of code units, each below 256.
      Every string that survives the normaliser's [/^[A-Z]{3,7}$/] test is
      of that form, and on such strings spreading ([[...word]]) yields one
      element per code unit.
    - [Array.prototype.sort()] without comparator orders by code units; it
      is modelled by a merge sort for that order.
    - A [Map] is a [gmap]; a [Set] whose insertion order is observable is a
      duplicate-free list in insertion order.
    - Arrays that are shared between the reachability cache and its callers
      live in an explicit heap of arrays.
    - A number is a double, given by its value; products and sums are
      rounded to the nearest double, ties to even.
    - A [Date] is its time value, read in the host's time zone: an offset
      from UTC and the transitions at which the offset changes. *)

From Stdlib Require Import Ascii QArith Qround Qpower Lqa.
From stdpp Require Import gmap strings list sorting pretty.

Local Open Scope nat_scope.

(** ** Strings and the default sort order *)

Module Js.

(** [a <= b] on code units. *)
Definition char_le (a b : ascii) : Prop := Ascii.leb a b.

#[global] Instance char_le_dec : RelDecision char_le.
Proof. intros a b. unfold char_le. apply _. Defined.

(** [[...s]] *)
Definition spread (s : string) : list ascii := String.list_ascii_of_string s.

(** [chars.join('')] *)
Definition join (l : list ascii) : string := String.string_of_list_ascii l.

(** [chars.sort()] on single-character strings. *)
Definition sort_chars (l : list ascii) : list ascii := merge_sort char_le l.

(** [strings.sort()] *)
Definition sort (l : list string) : list string := merge_sort String.le l.

(** [s.slice(0, i)] *)
Fixpoint slice_to (i : nat) (s : string) : string :=
  match i, s with
  | 0, _ => ""
  | S _, EmptyString => ""
  | S i', String c s' => String c (slice_to i' s')
  end.

(** [s.slice(i)] *)
Fixpoint slice_from (i : nat) (s : string) : string :=
  match i, s with
  | 0, _ => s
  | S _, EmptyString => ""
  | S i', String _ s' => slice_from i' s'
  end.

(** A [Set] of strings, as the list of its elements in insertion order. *)
Definition set_add (x : string) (s : list string) : list string :=
  if decide (x ∈ s) then s else s ++ [x].

(** [new Set(items)] followed by spreading: the distinct items, each at the
    place of its first occurrence. *)
Definition set_of (items : list string) : list string :=
  fold_left (λ s x, set_add x s) items [].

End Js.

(** ** Numbers

    A JS number is a double.  Doubles are given by their values, which
    are rationals; an operation on doubles returns the double nearest to
    the exact result. *)

Module Double.

Local Open Scope Q_scope.

(** [floor(log2 x)] for a positive [x]. *)
Definition exponent (x : Q) : Z :=
  let d := (Z.log2 (Qnum x) - Z.log2 (Z.pos (Qden x)))%Z in
  if Qle_bool (2 ^ d) x then d else (d - 1)%Z.

(** The integer nearest to [y]; of two that are equally near, the even
    one. *)
Definition nearestEven (y : Q) : Z :=
  let f := Qfloor y in
  match Qcompare (y - inject_Z f) (1 # 2) with
  | Lt => f
  | Gt => (f + 1)%Z
  | Eq => if Z.even f then f else (f + 1)%Z
  end.

(** The distance between neighbouring doubles around a positive [x]:
    53 significant bits, and no exponent below -1022. *)
Definition ulp (x : Q) : Q := 2 ^ (Z.max (exponent x) (-1022) - 52).

Definition roundPos (x : Q) : Q := inject_Z (nearestEven (x / ulp x)) * ulp x.

(** The double nearest to [x], ties to even.  No double is as large as
    2^1024: the products and sums rounded here stay far below. *)
Definition round (x : Q) : Q :=
  match Qcompare x 0 with
  | Gt => roundPos x
  | Lt => - roundPos (- x)
  | Eq => 0
  end.

(** The numbers that are doubles: 53 bits times a power of two. *)
Definition isDouble (x : Q) : Prop :=
  ∃ m e : Z, (Z.abs m < 2 ^ 53)%Z ∧ (-1074 ≤ e ≤ 971)%Z ∧ x == inject_Z m * 2 ^ e.

(** The double nearest to an integer: what a sum of integer-valued
    doubles becomes. *)
Definition roundInteger (z : Z) : Z := Qfloor (round (inject_Z z)).

End Double.

(** ** The word normaliser and the bucket index *)

(** An entry of the raw word list: a string, or a value of another type. *)
Inductive JsValue :=
  | JsString (s : string)
  | JsOther.

Definition strings_of (words : list JsValue) : list string :=
  omap (λ v, match v with JsString s => Some s | JsOther => None end) words.

Definition is_AZ (c : ascii) : bool :=
  ((65 <=? N_of_ascii c) && (N_of_ascii c <=? 90))%N.

(** [/^[A-Z]{3,7}$/.test(word)] *)
Definition isWord (word : string) : bool :=
  (3 <=? String.length word) && (String.length word <=? 7)
  && forallb is_AZ (Js.spread word).

Definition sortedLetters (word : string) : string :=
  Js.join (Js.sort_chars (Js.spread word)).

(** The body of the loop that fills the buckets. *)
Definition addToBucket (buckets : gmap string (list string)) (word : string)
  : gmap string (list string) :=
  let key := sortedLetters word in
  let buckets1 :=
    match buckets !! key with
    | Some _ => buckets
    | None => <[key := []]> buckets
    end in
  alter (λ bucket, bucket ++ [word]) key buckets1.

Definition buildBuckets (dictionary : list string) : gmap string (list string) :=
  fold_left addToBucket dictionary ∅.

(** [buckets.get(signature) ?? []] *)
Definition bucketWords (buckets : gmap string (list string)) (signature : string)
  : list string :=
  default [] (buckets !! signature).

Section Normaliser.

(** [word.trim().toUpperCase()], a built-in of the platform. *)
Variable trimUpper : string → string.

Definition normalise (words : list JsValue) : list string :=
  Js.set_of (filter (λ w, isWord w = true) (trimUpper <$> strings_of words)).

End Normaliser.

(** ** The engine's mutable state

    [buildEngine] closes over two caches.  The arrays that [getNextWords]
    stores in its cache are the very objects it returns, so they are kept
    in a heap and passed around by address. *)

Record EngineState := mkState {
  heap : list (list string);
  nextWordCache : gmap string nat;
  solvableMemo : gmap string bool;
}.

Definition emptyState : EngineState :=
  {| heap := []; nextWordCache := ∅; solvableMemo := ∅ |}.

(** Computations on the engine state; [None] is a run that the model does
    not follow to its end (recursion budget used up, or an array indexed
    outside its bounds). *)
Definition M (A : Type) : Type := EngineState → option (A * EngineState).

#[global] Instance M_ret : MRet M := λ A a st, Some (a, st).
#[global] Instance M_bind : MBind M := λ A B f m st,
  match m st with
  | Some (a, st') => f a st'
  | None => None
  end.

Definition stuck {A} : M A := λ _, None.

(** A fresh array with the given elements; its address is returned. *)
Definition alloc (elements : list string) : M nat := λ st,
  Some (length (heap st),
        {| heap := heap st ++ [elements];
           nextWordCache := nextWordCache st;
           solvableMemo := solvableMemo st |}).

(** The elements of the array at an address. *)
Definition readArray (loc : nat) : M (list string) := λ st,
  match heap st !! loc with
  | Some elements => Some (elements, st)
  | None => None
  end.

Definition writeArray (loc : nat) (elements : list string) : M unit := λ st,
  Some (tt, {| heap := <[loc := elements]> (heap st);
               nextWordCache := nextWordCache st;
               solvableMemo := solvableMemo st |}).

Definition cacheNextWords (word : string) (loc : nat) : M unit := λ st,
  Some (tt, {| heap := heap st;
               nextWordCache := <[word := loc]> (nextWordCache st);
               solvableMemo := solvableMemo st |}).

Definition memoise (word : string) (answer : bool) : M unit := λ st,
  Some (tt, {| heap := heap st;
               nextWordCache := nextWordCache st;
               solvableMemo := <[word := answer]> (solvableMemo st) |}).

(** ** The reachability query *)

Section Reachability.

Variable buckets : gmap string (list string).

(** [sorted.slice(0, i) + sorted.slice(i + 1)] *)
Definition deleteAt (i : nat) (sorted : string) : string :=
  Js.slice_to i sorted +:+ Js.slice_from (S i) sorted.

(** One turn of the loop over the deletion positions; the accumulator is
    the pair of [seenSignatures] and [candidates]. *)
Definition scanDeletion (sorted : string)
    (acc : list string * list string) (i : nat) : list string * list string :=
  let signature := deleteAt i sorted in
  if decide (signature ∈ acc.1) then acc
  else (Js.set_add signature acc.1,
        fold_left (λ candidates candidate, Js.set_add candidate candidates)
                  (bucketWords buckets signature) acc.2).

(** The part of [getNextWords] that runs on a cache miss for a word longer
    than three letters. *)
Definition computeNextWords (word : string) : list string :=
  let sorted := sortedLetters word in
  let scanned :=
    fold_left (scanDeletion sorted) (seq 0 (String.length sorted)) ([], []) in
  Js.sort scanned.2.

Definition getNextWords (word : string) : M nat := λ st,
  match nextWordCache st !! word with
  | Some loc => Some (loc, st)
  | None =>
    if String.length word <=? 3 then
      (cached ← alloc []; cacheNextWords word cached;; alloc []) st
    else
      (result ← alloc (computeNextWords word);
       cacheNextWords word result;; mret result) st
  end.

(** ** The solvability memoiser *)

(** [for (const x of items) { if (test(x)) return true; }], with [false]
    when the loop runs to its end. *)
Fixpoint forFirst (test : string → M bool) (items : list string) : M bool :=
  match items with
  | [] => mret false
  | x :: rest =>
    found ← test x; if (found : bool) then mret true else forFirst test rest
  end.

(** [fuel] bounds the depth of the recursion. *)
Fixpoint isSolvable (fuel : nat) (word : string) : M bool :=
  match fuel with
  | 0 => stuck
  | S fuel' =>
    if String.length word =? 3 then mret true
    else λ st,
      match solvableMemo st !! word with
      | Some answer => Some (answer, st)
      | None =>
        (loc ← getNextWords word;
         nextWords ← readArray loc;
         found ← forFirst (isSolvable fuel') nextWords;
         memoise word found;; mret found) st
      end
  end.

(** ** The chain builder *)

Section RandomSource.

(** A random source is a state [R] with a step that yields the next number
    and the next state.  Numbers are rationals: the value of the double. *)
Context {R : Type}.
Variable random : R → Q * R.

(** [Math.floor(r * n)]: the product is a double, the one nearest to the
    exact product. *)
Definition floorTimes (r : Q) (n : nat) : Z :=
  Qfloor (Double.round (r * inject_Z (Z.of_nat n))).

(** [[copy[i], copy[j]] = [copy[j], copy[i]]]; both indices must be
    inside the array. *)
Definition swap (copy : nat) (i : nat) (j : Z) : M unit :=
  elements ← readArray copy;
  if decide (0 ≤ j)%Z then
    match elements !! Z.to_nat j, elements !! i with
    | Some atJ, Some atI =>
        writeArray copy (<[Z.to_nat j := atI]> (<[i := atJ]> elements))
    | _, _ => stuck
    end
  else stuck.

(** The loop of [shuffled], entered with [i] at its current value. *)
Fixpoint shuffleLoop (copy : nat) (i : nat) (rng : R) : M R :=
  match i with
  | 0 => mret rng
  | S i' =>
    let '(r, rng1) := random rng in
    swap copy i (floorTimes r (i + 1));; shuffleLoop copy i' rng1
  end.

Definition shuffled (items : nat) (rng : R) : M (nat * R) :=
  elements ← readArray items;
  copy ← alloc elements;
  rng1 ← shuffleLoop copy (length elements - 1) rng;
  mret (copy, rng1).

(** The loop of [dfs] over the shuffled candidates. *)
Fixpoint tryEach (search : string → R → M (option (list string) * R))
    (word : string) (candidates : list string) (rng : R)
  : M (option (list string) * R) :=
  match candidates with
  | [] => mret (None, rng)
  | nextWord :: rest =>
    '(tail, rng1) ← search nextWord rng;
    match tail with
    | Some chain => mret (Some (word :: chain), rng1)
    | None => tryEach search word rest rng1
    end
  end.

Fixpoint dfs (fuel : nat) (word : string) (rng : R)
  : M (option (list string) * R) :=
  match fuel with
  | 0 => stuck
  | S fuel' =>
    if String.length word =? 3 then mret (Some [word], rng)
    else
      loc ← getNextWords word;
      '(copy, rng1) ← shuffled loc rng;
      orderedCandidates ← readArray copy;
      tryEach (dfs fuel') word orderedCandidates rng1
  end.

(** The recursion goes one level down per letter removed. *)
Definition buildChain (startWord : string) (rng : R)
  : M (option (list string) * R) :=
  dfs (S (String.length startWord)) startWord rng.

End RandomSource.

End Reachability.

(** ** The seeded generator

    Numbers that the script treats as 32-bit integers are integers here,
    with the conversions of the bitwise operators written out. *)

Module Int32.

Local Open Scope Z_scope.

(** [ToUint32]: the operand of [>>>], and [x >>> 0]. *)
Definition toUint32 (x : Z) : Z := x mod 2 ^ 32.

(** [ToInt32]: the operand of [^] and [|] and of [Math.imul]. *)
Definition toInt32 (x : Z) : Z := (x + 2 ^ 31) mod 2 ^ 32 - 2 ^ 31.

(** [x >>> k] *)
Definition ushr (x : Z) (k : Z) : Z := Z.shiftr (toUint32 x) k.

(** [x ^ y] *)
Definition xor (x y : Z) : Z := Z.lxor (toInt32 x) (toInt32 y).

(** [x | y] *)
Definition or (x y : Z) : Z := Z.lor (toInt32 x) (toInt32 y).

(** [Math.imul(x, y)] *)
Definition imul (x y : Z) : Z := toInt32 (toInt32 x * toInt32 y).

End Int32.

Definition charCode (c : ascii) : Z := Z.of_N (N_of_ascii c).

Definition stringToSeed (value : string) : Z :=
  fold_left (λ seed c, Int32.toUint32 (seed * 31 + charCode c))
            (Js.spread value) 0%Z.

(** One call of the closure that [mulberry32(seed)] returns.  The state is
    the closure's [seed] variable: an integer-valued double that is never
    wrapped, so that the sum is rounded once it needs more than 53
    bits. *)
Definition mulberry32 (seed : Z) : Q * Z :=
  let seed1 := Double.roundInteger (seed + 0x6d2b79f5)%Z in
  let t := seed1 in
  let t := Int32.imul (Int32.xor t (Int32.ushr t 15)) (Int32.or t 1) in
  let t := Int32.xor t (t + Int32.imul (Int32.xor t (Int32.ushr t 7)) (Int32.or t 61)) in
  (Int32.toUint32 (Int32.xor t (Int32.ushr t 14)) # 4294967296, seed1).

(** ** Dates

    A [Date] is its time value: milliseconds since the epoch, or [None]
    for an invalid date.  The functions follow the language definition;
    local time is UTC shifted by the offset that the host's time zone has
    at the time. *)

Module JsDate.

Local Open Scope Z_scope.

Definition msPerDay : Z := 86400000.

Definition Day (t : Z) : Z := t / msPerDay.
Definition TimeWithinDay (t : Z) : Z := t mod msPerDay.

Definition DaysInYear (y : Z) : Z :=
  if decide (y mod 4 ≠ 0) then 365
  else if decide (y mod 100 ≠ 0) then 366
  else if decide (y mod 400 ≠ 0) then 365
  else 366.

Definition DayFromYear (y : Z) : Z :=
  365 * (y - 1970) + (y - 1969) / 4 - (y - 1901) / 100 + (y - 1601) / 400.

(** The year that contains a day number, found through the cycles of 400,
    100, 4 and 1 years that start on 1 January 1601. *)
Definition yearOfDay (day : Z) : Z :=
  let d := day - DayFromYear 1601 in
  let n400 := d / 146097 in
  let d1 := d mod 146097 in
  let n100 := Z.min 3 (d1 / 36524) in
  let d2 := d1 - n100 * 36524 in
  let n4 := d2 / 1461 in
  let d3 := d2 mod 1461 in
  let n1 := Z.min 3 (d3 / 365) in
  1601 + 400 * n400 + 100 * n100 + 4 * n4 + n1.

Definition YearFromTime (t : Z) : Z := yearOfDay (Day t).

Definition InLeapYear (t : Z) : Z :=
  if decide (DaysInYear (YearFromTime t) = 366) then 1 else 0.

Definition DayWithinYear (t : Z) : Z := Day t - DayFromYear (YearFromTime t).

(** Day number within the year on which month [m] (0 to 11) starts; 365
    or 366 for [m = 12]. *)
Definition monthStart (leap : Z) (m : Z) : Z :=
  match m with
  | 0 => 0
  | 1 => 31
  | 2 => 59 + leap
  | 3 => 90 + leap
  | 4 => 120 + leap
  | 5 => 151 + leap
  | 6 => 181 + leap
  | 7 => 212 + leap
  | 8 => 243 + leap
  | 9 => 273 + leap
  | 10 => 304 + leap
  | 11 => 334 + leap
  | _ => 365 + leap
  end.

Definition monthOfDay (leap : Z) (d : Z) : Z :=
  if decide (d < monthStart leap 1) then 0
  else if decide (d < monthStart leap 2) then 1
  else if decide (d < monthStart leap 3) then 2
  else if decide (d < monthStart leap 4) then 3
  else if decide (d < monthStart leap 5) then 4
  else if decide (d < monthStart leap 6) then 5
  else if decide (d < monthStart leap 7) then 6
  else if decide (d < monthStart leap 8) then 7
  else if decide (d < monthStart leap 9) then 8
  else if decide (d < monthStart leap 10) then 9
  else if decide (d < monthStart leap 11) then 10
  else 11.

Definition MonthFromTime (t : Z) : Z :=
  monthOfDay (InLeapYear t) (DayWithinYear t).

Definition DateFromTime (t : Z) : Z :=
  DayWithinYear t - monthStart (InLeapYear t) (MonthFromTime t) + 1.

(** [MakeDay(year, month, date)] on integers. *)
Definition MakeDay (year month date : Z) : Z :=
  let ym := year + month / 12 in
  let mn := month mod 12 in
  let leap := if decide (DaysInYear ym = 366) then 1 else 0 in
  DayFromYear ym + monthStart leap mn + date - 1.

Definition MakeDate (day time : Z) : Z := day * msPerDay + time.

Definition TimeClip (time : Z) : option Z :=
  if decide (Z.abs time > 8640000000000000) then None else Some time.

(** The host's time zone: the offset of local time from UTC, in
    milliseconds, before the first transition, and the transitions in
    ascending order of their instants, each with the offset from that
    instant on. *)
Record Zone := mkZone {
  standardOffset : Z;
  transitions : list (Z * Z);
}.

(** A zone that keeps one offset throughout. *)
Definition fixedZone (offset : Z) : Zone := mkZone offset [].

(** The offset in force at the instant [t]. *)
Fixpoint offsetFrom (offset : Z) (changes : list (Z * Z)) (t : Z) : Z :=
  match changes with
  | [] => offset
  | (instant, next) :: rest =>
    if decide (t < instant) then offset else offsetFrom next rest t
  end.

(** The offset under which a local time is read: that of the first
    period the local time falls in.  A local time that a transition
    skips is read with the offset before the transition, and so is a
    local time that a transition repeats. *)
Fixpoint offsetOfLocal (offset : Z) (changes : list (Z * Z)) (local : Z) : Z :=
  match changes with
  | [] => offset
  | (instant, next) :: rest =>
    if decide (local < instant + offset ∨ local < instant + next) then offset
    else offsetOfLocal next rest local
  end.

Section LocalTime.

Variable zone : Zone.

Definition LocalTime (t : Z) : Z :=
  t + offsetFrom (standardOffset zone) (transitions zone) t.
Definition UTC (local : Z) : Z :=
  local - offsetOfLocal (standardOffset zone) (transitions zone) local.

(** The getters return a number; [None] is [NaN]. *)
Definition getFullYear (date : option Z) : option Z :=
  (λ t, YearFromTime (LocalTime t)) <$> date.
Definition getMonth (date : option Z) : option Z :=
  (λ t, MonthFromTime (LocalTime t)) <$> date.
Definition getDate (date : option Z) : option Z :=
  (λ t, DateFromTime (LocalTime t)) <$> date.

(** [date.setDate(dt)]: the new time value. *)
Definition setDate (date : option Z) (dt : option Z) : option Z :=
  match date, dt with
  | Some t, Some dt =>
    let t := LocalTime t in
    let newDate :=
      MakeDate (MakeDay (YearFromTime t) (MonthFromTime t) dt) (TimeWithinDay t) in
    TimeClip (UTC newDate)
  | _, _ => None
  end.

End LocalTime.

End JsDate.

(** [String(x)] for an integer or [NaN]. *)
Definition numberToString (x : option Z) : string :=
  match x with
  | Some z => pretty z
  | None => "NaN"
  end.

(** [s.padStart(n, '0')] *)
Definition padStart0 (n : nat) (s : string) : string :=
  String.string_of_list_ascii (replicate (n - String.length s) "0"%char) +:+ s.

Section Assembler.

Variable trimUpper : string → string.
Variable zone : JsDate.Zone.

Definition getLocalDateString (date : option Z) : string :=
  let year := JsDate.getFullYear zone date in
  let month := padStart0 2 (numberToString ((λ m, m + 1)%Z <$> JsDate.getMonth zone date)) in
  let day := padStart0 2 (numberToString (JsDate.getDate zone date)) in
  numberToString year +:+ "-" +:+ month +:+ "-" +:+ day.

(** What a run can end in: a value, a thrown error, or [Unfinished] when
    the model did not follow it to its end. *)
Inductive Error :=
  | NoSolvableWords
  | CouldNotBuildChain (dateString : string) (startWord : string)
  | TypeError.

Inductive Outcome (A : Type) :=
  | Returned (a : A)
  | Threw (e : Error)
  | Unfinished.
Arguments Returned {A} a.
Arguments Threw {A} e.
Arguments Unfinished {A}.

Record Engine := mkEngine {
  dictionary : list string;
  validSevenLetterWords : list string;
  engineBuckets : gmap string (list string);
  engineState : EngineState;
}.

(** [items.filter(test)] for a test that works on the engine state. *)
Fixpoint filterM (test : string → M bool) (items : list string) : M (list string) :=
  match items with
  | [] => mret []
  | x :: rest =>
    keep ← test x;
    kept ← filterM test rest;
    mret (if (keep : bool) then x :: kept else kept)
  end.

Definition buildEngine (words : list JsValue) : Outcome Engine :=
  let dictionary := normalise trimUpper words in
  let buckets := buildBuckets dictionary in
  let sevenLetterWords := filter (λ word, String.length word = 7) dictionary in
  match filterM (λ word, isSolvable buckets (String.length word) word)
                sevenLetterWords emptyState with
  | None => Unfinished
  | Some (solvable, st) =>
    let validSevenLetterWords := Js.sort solvable in
    if decide (length validSevenLetterWords = 0) then Threw NoSolvableWords
    else Returned {| dictionary := dictionary;
                     validSevenLetterWords := validSevenLetterWords;
                     engineBuckets := buckets;
                     engineState := st |}
  end.

Record Solution := mkSolution {
  six : string; five : string; four : string; three : string;
}.

Record Puzzle := mkPuzzle {
  date : string;
  startWord : string;
  words : list string;
  solution : Solution;
}.

(** The body of the loop of [generatePuzzles] for one offset: the record
    of that day and the engine state it leaves behind. *)
Definition generatePuzzle (startDate : option Z) (engine : Engine)
    (offset : nat) (st : EngineState) : Outcome (Puzzle * EngineState) :=
  let date := startDate in
  let date :=
    JsDate.setDate zone date
      ((λ d, d + Z.of_nat offset)%Z <$> JsDate.getDate zone startDate) in
  let dateString := getLocalDateString date in
  let '(r, random) := mulberry32 (stringToSeed dateString) in
  let index := floorTimes r (length (validSevenLetterWords engine)) in
  match (if decide (0 ≤ index)%Z
         then validSevenLetterWords engine !! Z.to_nat index else None) with
  | None => Threw TypeError
  | Some startWord =>
    match buildChain (engineBuckets engine) mulberry32 startWord random st with
    | None => Unfinished
    | Some ((Some [w7; w6; w5; w4; w3] as chain, _), st') =>
      Returned ({| date := dateString;
                   startWord := startWord;
                   words := [w7; w6; w5; w4; w3];
                   solution := {| six := w6; five := w5; four := w4; three := w3 |} |},
                st')
    | Some (_, _) => Threw (CouldNotBuildChain dateString startWord)
    end
  end.

(** The loop of [generatePuzzles] from [offset] on, [count] more days. *)
Fixpoint generateFrom (startDate : option Z) (engine : Engine)
    (count : nat) (offset : nat) (puzzles : list Puzzle) (st : EngineState)
  : Outcome (list Puzzle) :=
  match count with
  | 0 => Returned puzzles
  | S count' =>
    match generatePuzzle startDate engine offset st with
    | Returned (puzzle, st') =>
      generateFrom startDate engine count' (S offset) (puzzles ++ [puzzle]) st'
    | Threw e => Threw e
    | Unfinished => Unfinished
    end
  end.

Definition generatePuzzles (startDate : option Z) (days : nat) (engine : Engine)
  : Outcome (list Puzzle) :=
  generateFrom startDate engine days 0 [] (engineState engine).

(** [buildEngine] followed by [generatePuzzles], as in [main]. *)
Definition generate (words : list JsValue) (startDate : option Z) (days : nat)
  : Outcome (list Puzzle) :=
  match buildEngine words with
  | Returned engine => generatePuzzles startDate days engine
  | Threw e => Threw e
  | Unfinished => Unfinished
  end.

End Assembler.

Arguments Returned {A} a.
Arguments Threw {A} e.
Arguments Unfinished {A}.

(** ** Start dates and the command line *)

Definition isDigit (c : ascii) : bool :=
  ((48 <=? N_of_ascii c) && (N_of_ascii c <=? 57))%N.

(** [Number(digits)] for a string of decimal digits. *)
Definition numberOfDigits (digits : string) : Z :=
  fold_left (λ n c, n * 10 + (charCode c - 48))%Z (Js.spread digits) 0%Z.

(** [/^(\d{4})-(\d{2})-(\d{2})$/.exec(value)]: the three groups of a
    match. *)
Definition matchIsoDate (value : string) : option (string * string * string) :=
  match Js.spread value with
  | [y1; y2; y3; y4; dash1; m1; m2; dash2; d1; d2] =>
    if forallb isDigit [y1; y2; y3; y4; m1; m2; d1; d2]
       && Ascii.eqb dash1 "-" && Ascii.eqb dash2 "-"
    then Some (Js.join [y1; y2; y3; y4], Js.join [m1; m2], Js.join [d1; d2])
    else None
  | _ => None
  end.

(** The year that the [Date] constructor takes a year argument for: a
    year from 0 to 99 counts from 1900. *)
Definition MakeFullYear (year : Z) : Z :=
  if decide (0 ≤ year ≤ 99)%Z then (1900 + year)%Z else year.

(** [new Date(year, monthIndex, day)] *)
Definition newDate (zone : JsDate.Zone) (year monthIndex day : Z) : option Z :=
  JsDate.TimeClip
    (JsDate.UTC zone
       (JsDate.MakeDate (JsDate.MakeDay (MakeFullYear year) monthIndex day) 0)).

(** The number of days of a month, 1 to 12, of a year. *)
Definition daysInMonth (year month : Z) : Z :=
  match month with
  | 2 => if decide (JsDate.DaysInYear year = 366) then 29 else 28
  | 4 | 6 | 9 | 11 => 30
  | _ => 31
  end%Z.

Module Cli.

Inductive ArgError :=
  | InvalidStartValue
  | InvalidStartDate
  | PathNotString
  | UnknownArgument (token : string)
  | DaysNotPositive.

(** How argument parsing ends: with a value, with a thrown error, or with
    [process.exit(0)] after the help text. *)
Inductive Parse (A : Type) :=
  | Parsed (a : A)
  | Failed (e : ArgError)
  | Exited.
Arguments Parsed {A} a.
Arguments Failed {A} e.
Arguments Exited {A}.

Section Parsing.

Variable zone : JsDate.Zone.

Definition parseStartDate (value : string) : Parse (option Z) :=
  match matchIsoDate value with
  | None => Failed InvalidStartValue
  | Some (yearDigits, monthDigits, dayDigits) =>
    let year := numberOfDigits yearDigits in
    let month := numberOfDigits monthDigits in
    let day := numberOfDigits dayDigits in
    let date := newDate zone year (month - 1) day in
    if decide (JsDate.getFullYear zone date ≠ Some year
               ∨ JsDate.getMonth zone date ≠ Some (month - 1)%Z
               ∨ JsDate.getDate zone date ≠ Some day)
    then Failed InvalidStartDate
    else Parsed date
  end.

(** Built-ins of the platform: [path.resolve(rootDir, value)] on strings,
    [Number.parseInt(value, 10)] on a string or [undefined] ([None] for a
    result that is not an integer), and the time of the call. *)
Variable resolve : string → string → string.
Variable parseInt10 : option string → option Z.
Variable now : option Z.

Record Options := mkOptions {
  days : option Z;
  out : string;
  words : option string;
  startDate : option Z;
}.

(** [token.startsWith(prefix)] *)
Definition startsWith (prefix token : string) : bool := String.prefix prefix token.

(** The loop over [argv], from the token at the head on.  A flag written
    without [=] takes the next token, when there is one, as its value and
    the loop goes on after it. *)
Fixpoint parseTokens (rootDir : string) (argv : list string) (options : Options)
  : Parse Options :=
  match argv with
  | [] => Parsed options
  | token :: rest =>
    if decide (token = "--help" ∨ token = "-h") then Exited
    else if decide (token = "--days") then
      match rest with
      | [] => Parsed (mkOptions (parseInt10 None) (out options) (words options)
                                (startDate options))
      | value :: rest' =>
        parseTokens rootDir rest'
          (mkOptions (parseInt10 (Some value)) (out options) (words options)
                     (startDate options))
      end
    else if startsWith "--days=" token then
      parseTokens rootDir rest
        (mkOptions (parseInt10 (Some (Js.slice_from 7 token))) (out options)
                   (words options) (startDate options))
    else if decide (token = "--start") then
      match rest with
      | [] =>
        match parseStartDate "undefined" with
        | Parsed date => Parsed (mkOptions (days options) (out options)
                                           (words options) date)
        | Failed e => Failed e
        | Exited => Exited
        end
      | value :: rest' =>
        match parseStartDate value with
        | Parsed date =>
          parseTokens rootDir rest'
            (mkOptions (days options) (out options) (words options) date)
        | Failed e => Failed e
        | Exited => Exited
        end
      end
    else if startsWith "--start=" token then
      match parseStartDate (Js.slice_from 8 token) with
      | Parsed date =>
        parseTokens rootDir rest
          (mkOptions (days options) (out options) (words options) date)
      | Failed e => Failed e
      | Exited => Exited
      end
    else if decide (token = "--out") then
      match rest with
      | [] => Failed PathNotString
      | value :: rest' =>
        parseTokens rootDir rest'
          (mkOptions (days options) (resolve rootDir value) (words options)
                     (startDate options))
      end
    else if startsWith "--out=" token then
      parseTokens rootDir rest
        (mkOptions (days options) (resolve rootDir (Js.slice_from 6 token))
                   (words options) (startDate options))
    else if decide (token = "--words") then
      match rest with
      | [] => Failed PathNotString
      | value :: rest' =>
        parseTokens rootDir rest'
          (mkOptions (days options) (out options) (Some (resolve rootDir value))
                     (startDate options))
      end
    else if startsWith "--words=" token then
      parseTokens rootDir rest
        (mkOptions (days options) (out options)
                   (Some (resolve rootDir (Js.slice_from 8 token)))
                   (startDate options))
    else Failed (UnknownArgument token)
  end.

(** The options before any token is read; the start date is the date
    made from the local year, month and day of the call. *)
Definition defaultOptions (rootDir : string) : Options :=
  {| days := Some 365%Z;
     out := resolve rootDir "src/puzzles.json";
     words := None;
     startDate :=
       match JsDate.getFullYear zone now, JsDate.getMonth zone now,
             JsDate.getDate zone now with
       | Some year, Some month, Some day => newDate zone year month day
       | _, _, _ => None
       end |}.

Definition parseArgs (argv : list string) (rootDir : string) : Parse Options :=
  match parseTokens rootDir argv (defaultOptions rootDir) with
  | Parsed options =>
    match days options with
    | Some n => if decide (n ≤ 0)%Z then Failed DaysNotPositive else Parsed options
    | None => Failed DaysNotPositive
    end
  | Failed e => Failed e
  | Exited => Exited
  end.

End Parsing.

End Cli.

(** ** The words file *)

(** White space and line ends as [trim] knows them, among the code units
    below 256: tab, line feed, vertical tab, form feed, carriage return,
    space and no-break space. *)
Definition isWhiteSpace (c : ascii) : bool :=
  bool_decide (N_of_ascii c ∈ [9; 10; 11; 12; 13; 32; 160]%N).

Fixpoint trimStart (chars : list ascii) : list ascii :=
  match chars with
  | c :: rest => if isWhiteSpace c then trimStart rest else chars
  | [] => []
  end.

(** [line.trim()] *)
Definition trim (line : string) : string :=
  Js.join (reverse (trimStart (reverse (trimStart (Js.spread line))))).

(** [text.split(/\r?\n/u)]; [line] holds the characters since the last
    separator. *)
Fixpoint splitLines (text : string) (line : list ascii) : list string :=
  match text with
  | EmptyString => [Js.join line]
  | String c rest =>
    if Ascii.eqb c "010" then Js.join line :: splitLines rest []
    else
      match rest with
      | String c' rest' =>
        if Ascii.eqb c "013" && Ascii.eqb c' "010"
        then Js.join line :: splitLines rest' []
        else splitLines rest (line ++ [c])
      | EmptyString => splitLines rest (line ++ [c])
      end
  end.

(** What [JSON.parse] can return: an array, or a value of another kind. *)
Inductive JsonValue :=
  | JsonArray (items : list JsValue)
  | JsonOther.

Inductive WordsError :=
  | JsonSyntaxError
  | NotAnArray (name : string).

Section WordsFile.

(** Built-ins of the platform: [path.extname], [path.basename],
    [toLowerCase] and [JSON.parse] ([None] when it throws). *)
Variable extname : string → string.
Variable basename : string → string.
Variable toLowerCase : string → string.
Variable jsonParse : string → option JsonValue.

Definition parseWords (rawWords wordsPath : string) : WordsError + list JsValue :=
  if decide (toLowerCase (extname wordsPath) = ".json") then
    match jsonParse rawWords with
    | None => inl JsonSyntaxError
    | Some (JsonArray words) => inr words
    | Some JsonOther => inl (NotAnArray (basename wordsPath))
    end
  else
    inr (JsString <$>
           filter (λ line, line ≠ "" ∧ Cli.startsWith "#" line = false)
                  (trim <$> splitLines rawWords [])).

End WordsFile.

(** ** Functions that describe what the stateful code computes

    These take no state: they give the contents of the arrays and the
    answers that the engine's functions produce, and are related to those
    functions by the lemmas below. *)

Section Described.

Variable buckets : gmap string (list string).

(** The contents of the array that [getNextWords] returns. *)
Definition nextWords (word : string) : list string :=
  if String.length word <=? 3 then [] else computeNextWords buckets word.

(** The answer of [isSolvable], looking [depth] levels down. *)
Fixpoint solvableIn (depth : nat) (word : string) : bool :=
  (String.length word =? 3)
  || match depth with
     | 0 => false
     | S depth' => existsb (solvableIn depth') (nextWords word)
     end.

Definition solvable (word : string) : bool :=
  solvableIn (String.length word) word.

(** The caches hold what a fresh computation would give. *)
Definition cachesOk (st : EngineState) : Prop :=
  (∀ word loc, nextWordCache st !! word = Some loc →
               heap st !! loc = Some (nextWords word))
  ∧ (∀ word answer, solvableMemo st !! word = Some answer →
                    answer = solvable word).

(** A computation run from [st] does what [described] says: it returns
    that result, keeps the caches sound and only adds arrays to the heap;
    or neither has a result. *)
Definition follows {A} (run : M A) (described : option A) (st : EngineState) : Prop :=
  match described with
  | Some result =>
      ∃ st', run st = Some (result, st')
             ∧ cachesOk st' ∧ heap st `prefix_of` heap st'
  | None => run st = None
  end.

(** The shorter word's signature is the longer word's signature with one
    character taken out. *)
Definition oneLetterRemoved (shorter longer : string) : Prop :=
  ∃ i, i < String.length (sortedLetters longer)
       ∧ sortedLetters shorter = deleteAt i (sortedLetters longer).

(** What the loop over the deletion positions maintains. *)
Definition scanInv (sorted : string) (visited : list nat)
    (acc : list string * list string) : Prop :=
  NoDup acc.2
  ∧ (∀ signature, signature ∈ acc.1 ↔
                  ∃ i, i ∈ visited ∧ signature = deleteAt i sorted)
  ∧ (∀ word, word ∈ acc.2 ↔
             ∃ signature, signature ∈ acc.1 ∧ word ∈ bucketWords buckets signature).

(** A chain that starts at [word] and goes down through [nextWords] to a
    word of three letters. *)
Inductive Descent : string → list string → Prop :=
  | descent_end word :
      String.length word = 3 → Descent word [word]
  | descent_step word x tail :
      String.length word ≠ 3 → x ∈ nextWords word → Descent x tail →
      Descent word (word :: tail).

Context {R : Type}.
Variable random : R → Q * R.

(** Every number the source yields is a double in the interval from 0
    to 1, 1 excluded. *)
Definition unitRange : Prop :=
  ∀ rng, Double.isDouble (random rng).1
         ∧ (0 <= (random rng).1)%Q ∧ ((random rng).1 < 1)%Q.

(** The contents of the copy after the loop of [shuffled] has run from
    index [i] down. *)
Fixpoint shuffleList (elements : list string) (i : nat) (rng : R)
  : option (list string * R) :=
  match i with
  | 0 => Some (elements, rng)
  | S i' =>
    let '(r, rng1) := random rng in
    let j := floorTimes r (i + 1) in
    if decide (0 ≤ j)%Z then
      match elements !! Z.to_nat j, elements !! i with
      | Some atJ, Some atI =>
          shuffleList (<[Z.to_nat j := atI]> (<[i := atJ]> elements)) i' rng1
      | _, _ => None
      end
    else None
  end.

Definition shuffledList (items : list string) (rng : R)
  : option (list string * R) :=
  shuffleList items (length items - 1) rng.

Fixpoint firstChain (search : string → R → option (option (list string) * R))
    (word : string) (candidates : list string) (rng : R)
  : option (option (list string) * R) :=
  match candidates with
  | [] => Some (None, rng)
  | nextWord :: rest =>
    match search nextWord rng with
    | Some (Some chain, rng1) => Some (Some (word :: chain), rng1)
    | Some (None, rng1) => firstChain search word rest rng1
    | None => None
    end
  end.

(** The chain that [dfs] returns and the generator state it leaves. *)
Fixpoint chainFrom (fuel : nat) (word : string) (rng : R)
  : option (option (list string) * R) :=
  match fuel with
  | 0 => None
  | S fuel' =>
    if String.length word =? 3 then Some (Some [word], rng)
    else
      match shuffledList (nextWords word) rng with
      | Some (orderedCandidates, rng1) =>
          firstChain (chainFrom fuel') word orderedCandidates rng1
      | None => None
      end
  end.

End Described.

(** Every bucket holds words of its own signature only. *)
Definition bucketsWf (buckets : gmap string (list string)) : Prop :=
  ∀ signature bucket word,
    buckets !! signature = Some bucket → word ∈ bucket →
    sortedLetters word = signature.

(** The polynomial in 31 whose coefficients are the character codes, the
    first character having the highest power. *)
Fixpoint polynomialOf (chars : list ascii) : Z :=
  match chars with
  | [] => 0
  | c :: rest => charCode c * 31 ^ Z.of_nat (length rest) + polynomialOf rest
  end%Z.

Definition polynomialHash (value : string) : Z := polynomialOf (Js.spread value).

Section AssemblerDescribed.

Variable zone : JsDate.Zone.

(** The date that [generatePuzzles] works on at an offset. *)
Definition dateAt (startDate : option Z) (offset : nat) : option Z :=
  JsDate.setDate zone startDate
    ((λ d, d + Z.of_nat offset)%Z <$> JsDate.getDate zone startDate).

Definition dateStringAt (startDate : option Z) (offset : nat) : string :=
  getLocalDateString zone (dateAt startDate offset).

(** The start word chosen for a date string, and the generator as it is
    after that choice. *)
Definition startWordFor (engine : Engine) (dateString : string)
  : option string * Z :=
  let '(r, random) := mulberry32 (stringToSeed dateString) in
  let index := floorTimes r (length (validSevenLetterWords engine)) in
  (if decide (0 ≤ index)%Z
   then validSevenLetterWords engine !! Z.to_nat index else None, random).

(** The record that [generatePuzzles] makes at an offset, or how it
    fails there. *)
Definition puzzleAt (startDate : option Z) (engine : Engine) (offset : nat)
  : Outcome Puzzle :=
  let dateString := dateStringAt startDate offset in
  match startWordFor engine dateString with
  | (None, _) => Threw TypeError
  | (Some startWord, random) =>
    match chainFrom (engineBuckets engine) mulberry32
                    (S (String.length startWord)) startWord random with
    | None => Unfinished
    | Some (Some [w7; w6; w5; w4; w3], _) =>
      Returned {| date := dateString;
                  startWord := startWord;
                  words := [w7; w6; w5; w4; w3];
                  solution := {| six := w6; five := w5; four := w4; three := w3 |} |}
    | Some (_, _) => Threw (CouldNotBuildChain dateString startWord)
    end
  end.

(** What the loop of [generatePuzzles] arrives at from [offset] on. *)
Fixpoint puzzlesFrom (startDate : option Z) (engine : Engine)
    (count : nat) (offset : nat) (puzzles : list Puzzle) : Outcome (list Puzzle) :=
  match count with
  | 0 => Returned puzzles
  | S count' =>
    match puzzleAt startDate engine offset with
    | Returned puzzle =>
        puzzlesFrom startDate engine count' (S offset) (puzzles ++ [puzzle])
    | Threw e => Threw e
    | Unfinished => Unfinished
    end
  end.

(** [buildChain], called for the start word of the day at [offset],
    returns something other than a chain of five words. *)
Definition noFullChainAt (startDate : option Z) (engine : Engine) (offset : nat)
    (startWord : string) : Prop :=
  ∃ random found random',
    startWordFor engine (dateStringAt startDate offset) = (Some startWord, random)
    ∧ (∀ st, cachesOk (engineBuckets engine) st →
         ∃ st', buildChain (engineBuckets engine) mulberry32 startWord random st
                = Some ((found, random'), st'))
    ∧ (∀ chain, found = Some chain → length chain ≠ 5).

(** A month or a day of the month as [getLocalDateString] prints it. *)
Definition twoDigits (z : Z) : string := padStart0 2 (pretty z).

(** A time value that a [Date] can hold. *)
Definition validTime (t : Z) : Prop := (Z.abs t ≤ 8640000000000000)%Z.

End AssemblerDescribed.

(** An engine whose parts fit together: the buckets are an index, the
    caches are sound and there is a word to start from. *)
Definition engineOk (engine : Engine) : Prop :=
  bucketsWf (engineBuckets engine)
  ∧ cachesOk (engineBuckets engine) (engineState engine)
  ∧ validSevenLetterWords engine ≠ [].

(** A line of text: a string without a line feed. *)
Definition noLineFeed (line : string) : Prop := "010"%char ∉ Js.spread line.

(** Options whose start date is a valid date at most [jump] milliseconds
    after a local midnight. *)
Definition usableStart (zone : JsDate.Zone) (jump : Z) (options : Cli.Options)
  : Prop :=
  ∃ t, Cli.startDate options = Some t
       ∧ (0 ≤ JsDate.TimeWithinDay (JsDate.LocalTime zone t) ≤ jump)%Z
       ∧ validTime t.

(** A zone whose offsets are of at most a day each and whose transitions
    are at least two days apart. *)
Fixpoint spacedFrom (offset : Z) (changes : list (Z * Z)) : Prop :=
  (Z.abs offset ≤ JsDate.msPerDay)%Z
  ∧ match changes with
    | [] => True
    | (instant, next) :: rest =>
      match rest with
      | [] => True
      | (later, _) :: _ => (instant + 2 * JsDate.msPerDay ≤ later)%Z
      end
      ∧ spacedFrom next rest
    end.

Definition wellSpaced (zone : JsDate.Zone) : Prop :=
  spacedFrom (JsDate.standardOffset zone) (JsDate.transitions zone).

(** A zone in which no transition moves the clock forward by a day or
    more, so that no local day is skipped as a whole. *)
Fixpoint shortJumpsFrom (offset : Z) (changes : list (Z * Z)) : Prop :=
  match changes with
  | [] => True
  | (_, next) :: rest =>
    (next - offset < JsDate.msPerDay)%Z ∧ shortJumpsFrom next rest
  end.

Definition shortJumps (zone : JsDate.Zone) : Prop :=
  shortJumpsFrom (JsDate.standardOffset zone) (JsDate.transitions zone).

(** A zone in which no transition moves the clock forward by more than
    [jump] milliseconds. *)
Fixpoint jumpsWithinFrom (jump offset : Z) (changes : list (Z * Z)) : Prop :=
  match changes with
  | [] => True
  | (_, next) :: rest =>
    (next - offset ≤ jump)%Z ∧ jumpsWithinFrom jump next rest
  end.

Definition jumpsWithin (jump : Z) (zone : JsDate.Zone) : Prop :=
  jumpsWithinFrom jump (JsDate.standardOffset zone) (JsDate.transitions zone).

(** The date string of the day with a given day number. *)
Definition dayString (day : Z) : string :=
  getLocalDateString (JsDate.fixedZone 0) (Some (day * JsDate.msPerDay)%Z).

(** [word.trim().toUpperCase()] on text made of ASCII characters; the
    instance used in the examples. *)
Definition upperAscii (c : ascii) : ascii :=
  if ((97 <=? N_of_ascii c) && (N_of_ascii c <=? 122))%N
  then ascii_of_N (N_of_ascii c - 32) else c.

Fixpoint trimStartAscii (s : string) : string :=
  match s with
  | String c s' => if Ascii.is_space c then trimStartAscii s' else s
  | EmptyString => s
  end.

Definition trimUpperAscii (s : string) : string :=
  let trimmed := String.rev (trimStartAscii (String.rev (trimStartAscii s))) in
  Js.join (upperAscii <$> Js.spread trimmed).

(** [path.resolve] on a relative path without dots, and
    [Number.parseInt] on a string of digits; the instances used in the
    examples. *)
Definition joinPath (rootDir value : string) : string := rootDir +:+ "/" +:+ value.

Definition parseDigits (value : option string) : option Z :=
  match Js.spread <$> value with
  | Some (c :: chars) =>
    if forallb isDigit (c :: chars) then Some (numberOfDigits (Js.join (c :: chars)))
    else None
  | _ => None
  end.

(** A zone in which a local day does not exist, as at Apia: ten hours
    behind UTC until the end of 29 December 2011, which is 10:00 UTC on
    30 December, and fourteen hours ahead from then on. *)
Definition apia : JsDate.Zone :=
  JsDate.mkZone (-36000000) [(1325239200000, 50400000)]%Z.

(** A zone with daylight saving that starts at a local midnight, as at
    Sao Paulo in the summer of 2018: three hours behind UTC, two hours
    behind from 03:00 UTC on 4 November 2018, when the clock goes from
    midnight to 01:00, until 02:00 UTC on 17 February 2019. *)
Definition saoPaulo : JsDate.Zone :=
  JsDate.mkZone (-10800000)
    [(1541300400000, -7200000); (1550368800000, -10800000)]%Z.

(** The dictionary of the design document's scenario. *)
Definition bananas : list JsValue :=
  JsString <$> ["BANANAS"; "BANANA"; "ANANAS"; "ANANA"; "BANAN"; "NAAN"; "ANA"; "NAN"].

(** The engine built from it. *)
Definition bananaEngine : Engine :=
  match buildEngine trimUpperAscii bananas with
  | Returned engine => engine
  | _ => mkEngine [] [] ∅ emptyState
  end.

(** * Properties *)

(** ** Strings, sets and the sort *)

Lemma length_spread s : length (Js.spread s) = String.length s.
Proof. induction s; simpl; auto. Qed.

Lemma length_join l : String.length (Js.join l) = length l.
Proof. induction l; simpl; auto. Qed.

Lemma length_sortedLetters word :
  String.length (sortedLetters word) = String.length word.
Proof.
  unfold sortedLetters, Js.sort_chars.
  rewrite length_join, merge_sort_Permutation. apply length_spread.
Qed.

Lemma length_str_app s t :
  String.length (s +:+ t) = String.length s + String.length t.
Proof. induction s; simpl; auto. Qed.

Lemma length_slice_to i s :
  String.length (Js.slice_to i s) = i `min` String.length s.
Proof. revert s; induction i; intros [|c s]; simpl; auto. Qed.

Lemma length_slice_from i s :
  String.length (Js.slice_from i s) = String.length s - i.
Proof. revert s; induction i; intros [|c s]; simpl; auto. Qed.

Lemma length_deleteAt i s :
  i < String.length s → String.length (deleteAt i s) = String.length s - 1.
Proof.
  intros Hi. unfold deleteAt.
  rewrite length_str_app, length_slice_to, length_slice_from. lia.
Qed.

Lemma set_add_elem x y s : y ∈ Js.set_add x s ↔ y = x ∨ y ∈ s.
Proof.
  unfold Js.set_add. case_decide.
  - split; [auto | intros [-> | ?]; auto].
  - rewrite elem_of_app, list_elem_of_singleton. tauto.
Qed.

Lemma set_add_NoDup x s : NoDup s → NoDup (Js.set_add x s).
Proof.
  intros Hs. unfold Js.set_add. case_decide; [done |].
  apply NoDup_app. split_and!; [done | | apply NoDup_singleton].
  intros y Hy ->%list_elem_of_singleton. done.
Qed.

Lemma set_add_all_elem items y acc :
  y ∈ fold_left (λ s x, Js.set_add x s) items acc ↔ y ∈ acc ∨ y ∈ items.
Proof.
  revert acc. induction items as [|x items IH]; intros acc; simpl.
  - rewrite elem_of_nil. tauto.
  - rewrite IH, set_add_elem, elem_of_cons. tauto.
Qed.

Lemma set_add_all_NoDup items acc :
  NoDup acc → NoDup (fold_left (λ s x, Js.set_add x s) items acc).
Proof.
  revert acc. induction items as [|x items IH]; intros acc Hacc; simpl; [done |].
  apply IH, set_add_NoDup, Hacc.
Qed.

Lemma set_of_elem items y : y ∈ Js.set_of items ↔ y ∈ items.
Proof. unfold Js.set_of. rewrite set_add_all_elem, elem_of_nil. tauto. Qed.

Lemma set_of_NoDup items : NoDup (Js.set_of items).
Proof. apply set_add_all_NoDup, NoDup_nil_2. Qed.

Lemma sort_Permutation l : Js.sort l ≡ₚ l.
Proof. apply merge_sort_Permutation. Qed.

Lemma sort_Sorted l : Sorted String.le (Js.sort l).
Proof. apply (Sorted_merge_sort String.le). Qed.

Lemma sort_elem x l : x ∈ Js.sort l ↔ x ∈ l.
Proof. by rewrite sort_Permutation. Qed.

Lemma sort_NoDup l : NoDup l → NoDup (Js.sort l).
Proof. by rewrite sort_Permutation. Qed.

(** ** The normaliser *)

Lemma normalise_elem trimUpper words word :
  word ∈ normalise trimUpper words ↔
  isWord word = true ∧ ∃ raw, JsString raw ∈ words ∧ word = trimUpper raw.
Proof.
  unfold normalise, strings_of.
  rewrite set_of_elem, list_elem_of_filter, list_elem_of_fmap.
  split.
  - intros [Hw (raw & -> & Hraw)]. split; [done |]. exists raw. split; [| done].
    apply list_elem_of_omap in Hraw as (v & Hv & Heq).
    destruct v; simplify_eq. done.
  - intros [Hw (raw & Hraw & ->)]. split; [done |]. exists raw. split; [done |].
    apply list_elem_of_omap. exists (JsString raw). done.
Qed.

Lemma normalise_NoDup trimUpper words : NoDup (normalise trimUpper words).
Proof. apply set_of_NoDup. Qed.

Lemma isWord_length word :
  isWord word = true → 3 ≤ String.length word ≤ 7.
Proof.
  unfold isWord. rewrite !andb_true_iff, !Nat.leb_le. tauto.
Qed.

(** ** The bucket index *)

Lemma addToBucket_lookup buckets word signature :
  addToBucket buckets word !! signature =
  if decide (sortedLetters word = signature)
  then Some (bucketWords buckets signature ++ [word])
  else buckets !! signature.
Proof.
  unfold addToBucket, bucketWords. case_decide as Hsig.
  - subst signature.
    destruct (buckets !! sortedLetters word) as [bucket|] eqn:Hb.
    + by rewrite lookup_alter_eq, Hb.
    + by rewrite lookup_alter_eq, lookup_insert_eq.
  - rewrite lookup_alter_ne by done.
    destruct (buckets !! sortedLetters word); [done |].
    by rewrite lookup_insert_ne.
Qed.

Lemma buildBuckets_snoc dictionary word :
  buildBuckets (dictionary ++ [word]) = addToBucket (buildBuckets dictionary) word.
Proof. unfold buildBuckets. by rewrite fold_left_app. Qed.

Lemma buildBuckets_lookup dictionary signature :
  buildBuckets dictionary !! signature =
  match filter (λ word, sortedLetters word = signature) dictionary with
  | [] => None
  | bucket => Some bucket
  end.
Proof.
  induction dictionary as [|word dictionary IH] using rev_ind.
  - done.
  - rewrite buildBuckets_snoc, addToBucket_lookup, filter_app.
    unfold bucketWords. rewrite IH.
    rewrite filter_cons, filter_nil.
    destruct (filter _ dictionary) as [|w ws]; case_decide; simpl;
      rewrite ?app_nil_r; done.
Qed.

Lemma bucketWords_buildBuckets dictionary signature :
  bucketWords (buildBuckets dictionary) signature =
  filter (λ word, sortedLetters word = signature) dictionary.
Proof.
  unfold bucketWords. rewrite buildBuckets_lookup.
  by destruct (filter _ dictionary).
Qed.

Lemma buildBuckets_wf dictionary : bucketsWf (buildBuckets dictionary).
Proof.
  intros signature bucket word Hlook Hin.
  assert (word ∈ bucketWords (buildBuckets dictionary) signature) as Hw.
  { unfold bucketWords. by rewrite Hlook. }
  rewrite bucketWords_buildBuckets in Hw.
  by apply list_elem_of_filter in Hw as [? _].
Qed.

(** C5, as amended.  A lookup in the bucket index built from the normalised
    dictionary returns exactly the dictionary words whose sorted letters
    are the signature looked up, each once, in the order in which the
    dictionary lists them. *)
Theorem bucket_lookup_exact trimUpper words signature :
  let dictionary := normalise trimUpper words in
  let found := bucketWords (buildBuckets dictionary) signature in
  found = filter (λ word, sortedLetters word = signature) dictionary
  ∧ (∀ word, word ∈ found ↔ word ∈ dictionary ∧ sortedLetters word = signature)
  ∧ NoDup found.
Proof.
  intros dictionary found. subst found.
  rewrite bucketWords_buildBuckets. split_and!.
  - done.
  - intros word. rewrite list_elem_of_filter. tauto.
  - apply NoDup_filter, normalise_NoDup.
Qed.

(** C5, as stated, fails: with "TAB" before "BAT" in the word list the
    bucket of their common signature is ["TAB"; "BAT"], which is not in
    sorted order. *)
Lemma bucket_lookup_unsorted :
  let dictionary := normalise trimUpperAscii [JsString "tab"; JsString "bat"] in
  let found := bucketWords (buildBuckets dictionary) (sortedLetters "TAB") in
  found = ["TAB"; "BAT"] ∧ ¬ Sorted String.le found.
Proof.
  intros dictionary found.
  assert (found = ["TAB"; "BAT"]) as -> by (vm_compute; reflexivity).
  split; [done |]. intros Hs.
  inversion Hs as [|? ? _ Hhd]. inversion Hhd as [|? ? Hle].
  vm_compute in Hle. exact Hle.
Qed.

(** ** The reachability query *)

Section ReachabilityFacts.

Variable buckets : gmap string (list string).
Hypothesis Hwf : bucketsWf buckets.

Lemma bucketWords_signature signature word :
  word ∈ bucketWords buckets signature → sortedLetters word = signature.
Proof using Hwf.
  unfold bucketWords. destruct (buckets !! signature) as [bucket|] eqn:Hb; simpl.
  - by apply Hwf.
  - by intros ?%elem_of_nil.
Qed.

Lemma scanDeletion_inv sorted visited acc i :
  scanInv buckets sorted visited acc →
  scanInv buckets sorted (visited ++ [i]) (scanDeletion buckets sorted acc i).
Proof.
  intros (Hnd & Hseen & Hcand). unfold scanDeletion.
  case_decide as Hin.
  - split_and!; [done | | done].
    intros signature. rewrite Hseen. setoid_rewrite elem_of_app.
    setoid_rewrite list_elem_of_singleton. split; [naive_solver |].
    intros (k & [Hk | ->] & ->); [eauto |]. by apply Hseen.
  - unfold scanInv. cbn [fst snd]. split_and!.
    + by apply set_add_all_NoDup.
    + intros signature. rewrite set_add_elem, Hseen.
      setoid_rewrite elem_of_app. setoid_rewrite list_elem_of_singleton.
      naive_solver.
    + intros word. rewrite set_add_all_elem, Hcand.
      setoid_rewrite set_add_elem. naive_solver.
Qed.

Lemma scan_inv sorted positions visited acc :
  scanInv buckets sorted visited acc →
  scanInv buckets sorted (visited ++ positions)
          (fold_left (scanDeletion buckets sorted) positions acc).
Proof.
  revert visited acc.
  induction positions as [|i positions IH]; intros visited acc Hinv; simpl.
  - by rewrite app_nil_r.
  - replace (visited ++ i :: positions) with ((visited ++ [i]) ++ positions)
      by (by rewrite <- app_assoc).
    by apply IH, scanDeletion_inv.
Qed.

Lemma scanInv_start sorted : scanInv buckets sorted [] ([], []).
Proof.
  unfold scanInv. simpl. split_and!.
  - apply NoDup_nil_2.
  - intros signature. split; [by intros ?%elem_of_nil |].
    by intros (i & ?%elem_of_nil & _).
  - intros word. split; [by intros ?%elem_of_nil |].
    by intros (signature & ?%elem_of_nil & _).
Qed.

Lemma computeNextWords_elem word x :
  x ∈ computeNextWords buckets word ↔
  ∃ i, i < String.length (sortedLetters word)
       ∧ x ∈ bucketWords buckets (deleteAt i (sortedLetters word)).
Proof.
  unfold computeNextWords. rewrite sort_elem.
  pose proof (scan_inv (sortedLetters word)
                (seq 0 (String.length (sortedLetters word))) [] ([], [])) as Hinv.
  destruct Hinv as (_ & Hseen & Hcand); [apply scanInv_start |].
  rewrite Hcand. setoid_rewrite Hseen. simpl.
  setoid_rewrite elem_of_seq. split.
  - intros (signature & (i & Hi & ->) & Hx). exists i. split; [lia | done].
  - intros (i & Hi & Hx). exists (deleteAt i (sortedLetters word)).
    split; [| done]. exists i. split; [lia | done].
Qed.

Lemma computeNextWords_NoDup word : NoDup (computeNextWords buckets word).
Proof.
  unfold computeNextWords. apply sort_NoDup.
  pose proof (scan_inv (sortedLetters word)
                (seq 0 (String.length (sortedLetters word))) [] ([], [])) as Hinv.
  by destruct Hinv as (Hnd & _ & _); [apply scanInv_start |].
Qed.

Lemma nextWords_short word :
  String.length word ≤ 3 → nextWords buckets word = [].
Proof.
  intros Hlen. unfold nextWords.
  by destruct (Nat.leb_spec (String.length word) 3); [| lia].
Qed.

Lemma nextWords_long word :
  3 < String.length word → nextWords buckets word = computeNextWords buckets word.
Proof.
  intros Hlen. unfold nextWords.
  by destruct (Nat.leb_spec (String.length word) 3); [lia |].
Qed.

Lemma nextWords_edge word x :
  x ∈ nextWords buckets word → oneLetterRemoved x word.
Proof using Hwf.
  unfold nextWords. destruct (String.length word <=? 3).
  - by intros ?%elem_of_nil.
  - intros (i & Hi & Hx)%computeNextWords_elem. exists i. split; [done |].
    by apply bucketWords_signature.
Qed.

Lemma oneLetterRemoved_length x word :
  oneLetterRemoved x word → String.length x = String.length word - 1.
Proof.
  intros (i & Hi & Hsig).
  rewrite <- (length_sortedLetters x), Hsig, length_deleteAt by done.
  by rewrite length_sortedLetters.
Qed.

Lemma nextWords_length word x :
  x ∈ nextWords buckets word → String.length x = String.length word - 1.
Proof using Hwf. intros Hx. by apply oneLetterRemoved_length, nextWords_edge. Qed.

Lemma nextWords_NoDup word : NoDup (nextWords buckets word).
Proof.
  unfold nextWords. destruct (String.length word <=? 3).
  - apply NoDup_nil_2.
  - apply computeNextWords_NoDup.
Qed.

Lemma nextWords_Sorted word : Sorted String.le (nextWords buckets word).
Proof.
  unfold nextWords. destruct (String.length word <=? 3).
  - constructor.
  - apply sort_Sorted.
Qed.

End ReachabilityFacts.

(** ** The caches *)

Ltac run_M :=
  unfold mbind, M_bind, mret, M_ret, alloc, readArray, writeArray,
    cacheNextWords, memoise, stuck; cbn [heap nextWordCache solvableMemo].

Section EngineFacts.

Variable buckets : gmap string (list string).
Hypothesis Hwf : bucketsWf buckets.

Lemma cachesOk_empty : cachesOk buckets emptyState.
Proof. split; intros ? ?; simpl; by rewrite lookup_empty. Qed.

Lemma cachesOk_grow st elements :
  cachesOk buckets st →
  cachesOk buckets (mkState (heap st ++ [elements]) (nextWordCache st) (solvableMemo st)).
Proof.
  intros [Hnext Hmemo]. split; simpl; [| done].
  intros word loc Hloc. by apply lookup_app_l_Some, Hnext.
Qed.

Lemma cachesOk_cache st word loc :
  cachesOk buckets st → heap st !! loc = Some (nextWords buckets word) →
  cachesOk buckets (mkState (heap st) (<[word := loc]> (nextWordCache st)) (solvableMemo st)).
Proof.
  intros [Hnext Hmemo] Hloc. split; simpl; [| done].
  intros word' loc'. rewrite lookup_insert. case_decide.
  - intros [= <-]. by subst.
  - apply Hnext.
Qed.

Lemma cachesOk_memo st word :
  cachesOk buckets st →
  cachesOk buckets (mkState (heap st) (nextWordCache st)
                            (<[word := solvable buckets word]> (solvableMemo st))).
Proof.
  intros [Hnext Hmemo]. split; simpl; [done |].
  intros word' answer. rewrite lookup_insert. case_decide.
  - intros [= <-]. by subst.
  - apply Hmemo.
Qed.

(** A call of [getNextWords]: it returns, the array it returns holds
    [nextWords word], only new arrays are added to the heap, and the word
    is cached afterwards. *)
Lemma getNextWords_run word st :
  cachesOk buckets st →
  ∃ loc st',
    getNextWords buckets word st = Some (loc, st')
    ∧ heap st' !! loc = Some (nextWords buckets word)
    ∧ cachesOk buckets st'
    ∧ heap st `prefix_of` heap st'
    ∧ solvableMemo st' = solvableMemo st
    ∧ is_Some (nextWordCache st' !! word).
Proof.
  intros Hok. unfold getNextWords.
  destruct (nextWordCache st !! word) as [loc|] eqn:Hcache.
  - exists loc, st. rewrite Hcache. split_and!; eauto. by apply Hok.
  - destruct (Nat.leb_spec (String.length word) 3) as [Hlen | Hlen]; run_M.
    + rewrite (nextWords_short buckets word Hlen).
      eexists _, _. split_and!; [done | | | | done |].
      * by apply list_lookup_middle.
      * apply (cachesOk_grow (mkState _ _ _)), (cachesOk_cache (mkState _ _ _));
          [by apply cachesOk_grow |].
        simpl. rewrite (nextWords_short buckets word Hlen).
        by apply list_lookup_middle.
      * rewrite <- app_assoc. by apply prefix_app_r.
      * simpl. rewrite lookup_insert_eq. eauto.
    + rewrite (nextWords_long buckets word Hlen).
      eexists _, _. split_and!; [done | | | | done |].
      * by apply list_lookup_middle.
      * apply (cachesOk_cache (mkState _ _ _)); [by apply cachesOk_grow |].
        simpl. rewrite (nextWords_long buckets word Hlen).
        by apply list_lookup_middle.
      * by apply prefix_app_r.
      * simpl. rewrite lookup_insert_eq. eauto.
Qed.

(** A second call finds the word in the cache and changes nothing. *)
Lemma getNextWords_cached word st :
  is_Some (nextWordCache st !! word) →
  ∃ loc, getNextWords buckets word st = Some (loc, st)
         ∧ nextWordCache st !! word = Some loc.
Proof.
  intros [loc Hloc]. exists loc. unfold getNextWords. by rewrite Hloc.
Qed.

(** ** Solvability *)

Lemma existsb_agree {A} (f g : A → bool) (l : list A) :
  (∀ x, x ∈ l → f x = g x) → existsb f l = existsb g l.
Proof.
  induction l as [|x l IH]; intros Hfg; simpl; [done |].
  rewrite Hfg by left. f_equal. apply IH. intros y Hy. apply Hfg. by right.
Qed.

Lemma solvableIn_more depth word :
  String.length word ≤ depth + 3 →
  ∀ depth', depth ≤ depth' → solvableIn buckets depth' word = solvableIn buckets depth word.
Proof using Hwf.
  revert word. induction depth as [|depth IH]; intros word Hlen depth' Hle.
  - destruct depth'; simpl; [done |].
    by rewrite nextWords_short by lia.
  - destruct depth' as [|depth']; [lia |]. simpl. f_equal.
    apply existsb_agree. intros x Hx.
    apply nextWords_length in Hx; [| done]. apply IH; lia.
Qed.

Lemma solvableIn_enough depth word :
  String.length word ≤ depth + 3 → solvableIn buckets depth word = solvable buckets word.
Proof using Hwf.
  intros Hlen. unfold solvable.
  destruct (decide (depth ≤ String.length word)).
  - symmetry. by apply solvableIn_more.
  - apply solvableIn_more; lia.
Qed.

Lemma solvable_unfold word :
  solvable buckets word =
  (String.length word =? 3) || existsb (solvable buckets) (nextWords buckets word).
Proof using Hwf.
  unfold solvable at 1.
  destruct (String.length word) as [|n] eqn:Hlen; simpl; rewrite Hlen.
  - by rewrite nextWords_short by lia.
  - f_equal. apply existsb_agree. intros x Hx.
    apply nextWords_length in Hx; [| done]. apply solvableIn_enough. lia.
Qed.

Lemma solvable_three word : String.length word = 3 → solvable buckets word = true.
Proof using Hwf. intros Hlen. by rewrite solvable_unfold, Hlen. Qed.

Lemma solvable_long word :
  String.length word ≠ 3 →
  solvable buckets word = true ↔
  ∃ x, x ∈ nextWords buckets word ∧ solvable buckets x = true.
Proof using Hwf.
  intros Hlen. rewrite solvable_unfold.
  destruct (Nat.eqb_spec (String.length word) 3); [done |]. simpl.
  rewrite existsb_exists. by setoid_rewrite <- list_elem_of_In.
Qed.

(** The loop of [isSolvable], for a test that answers [solvable] on every
    item. *)
Lemma forFirst_run (test : string → M bool) items st :
  cachesOk buckets st →
  (∀ x st1, x ∈ items → cachesOk buckets st1 →
     ∃ st2, test x st1 = Some (solvable buckets x, st2)
            ∧ cachesOk buckets st2 ∧ heap st1 `prefix_of` heap st2) →
  ∃ st', forFirst test items st = Some (existsb (solvable buckets) items, st')
         ∧ cachesOk buckets st' ∧ heap st `prefix_of` heap st'.
Proof.
  revert st. induction items as [|x items IH]; intros st Hok Htest; simpl.
  - by exists st.
  - run_M. destruct (Htest x st) as (st2 & -> & Hok2 & Hpre2); [by left | done |].
    destruct (solvable buckets x); simpl.
    + by exists st2.
    + destruct (IH st2) as (st' & -> & Hok' & Hpre'); [done | |].
      * intros y st1 Hy. apply Htest. by right.
      * exists st'. split_and!; [done | done | by etrans].
Qed.

(** A call of [isSolvable] with enough fuel for the word's length. *)
Lemma isSolvable_run fuel word st :
  cachesOk buckets st → 1 ≤ fuel → String.length word ≤ fuel + 2 →
  ∃ st', isSolvable buckets fuel word st = Some (solvable buckets word, st')
         ∧ cachesOk buckets st' ∧ heap st `prefix_of` heap st'.
Proof using Hwf.
  revert word st. induction fuel as [|fuel IH]; intros word st Hok Hfuel Hlen; [lia |].
  simpl. destruct (Nat.eqb_spec (String.length word) 3) as [Hthree | Hthree].
  - exists st. by rewrite solvable_three.
  - destruct (solvableMemo st !! word) as [answer|] eqn:Hmemo.
    + exists st. split_and!; [| done | done].
      by rewrite (proj2 Hok _ _ Hmemo).
    + run_M.
      destruct (getNextWords_run word st Hok) as (loc & st1 & -> & Hloc & Hok1 & Hpre1 & _).
      rewrite Hloc.
      destruct (forFirst_run (isSolvable buckets fuel) (nextWords buckets word) st1)
        as (st2 & -> & Hok2 & Hpre2); [done | |].
      * intros x st' Hx Hok'.
        assert (3 < String.length word) as Hlong.
        { destruct (decide (3 < String.length word)); [done |].
          rewrite nextWords_short in Hx by lia. by apply elem_of_nil in Hx. }
        apply nextWords_length in Hx; [| done]. apply IH; [done | lia | lia].
      * rewrite (solvable_unfold word).
        destruct (Nat.eqb_spec (String.length word) 3); [done |]. simpl.
        eexists. split_and!; [done | | simpl; by etrans].
        rewrite <- (orb_false_l (existsb _ _)).
        replace false with (String.length word =? 3) by by apply Nat.eqb_neq.
        rewrite <- solvable_unfold. by apply (cachesOk_memo st2).
Qed.

End EngineFacts.

(** C3.  In an engine built from any word list, [getNextWords] returns an
    array whose contents depend on the word alone.  For a word of at most
    three letters it is empty; for a longer word it holds only words one
    letter shorter, holds none twice and is sorted.  The call leaves the
    caches sound, and calling again returns the cached array and changes
    nothing. *)
Theorem getNextWords_contract trimUpper words word st :
  let buckets := buildBuckets (normalise trimUpper words) in
  cachesOk buckets st →
  ∃ loc st',
    getNextWords buckets word st = Some (loc, st')
    ∧ heap st' !! loc = Some (nextWords buckets word)
    ∧ cachesOk buckets st'
    ∧ (String.length word ≤ 3 → nextWords buckets word = [])
    ∧ (3 < String.length word →
         (∀ x, x ∈ nextWords buckets word →
               String.length x = String.length word - 1)
         ∧ NoDup (nextWords buckets word)
         ∧ Sorted String.le (nextWords buckets word))
    ∧ (∃ loc', getNextWords buckets word st' = Some (loc', st')
               ∧ heap st' !! loc' = Some (nextWords buckets word)).
Proof.
  intros buckets Hok.
  destruct (getNextWords_run buckets word st Hok)
    as (loc & st' & Hrun & Hloc & Hok' & _ & _ & Hcached).
  exists loc, st'. split_and!; try done.
  - apply nextWords_short.
  - intros _. split_and!.
    + intros x. apply nextWords_length, buildBuckets_wf.
    + apply nextWords_NoDup.
    + apply nextWords_Sorted.
  - destruct (getNextWords_cached buckets word st' Hcached) as (loc' & Hagain & Hloc').
    exists loc'. split; [done |]. by apply Hok'.
Qed.

Lemma getNextWords_contract_witness :
  let buckets := buildBuckets (normalise trimUpperAscii bananas) in
  cachesOk buckets emptyState
  ∧ ∃ loc st',
      getNextWords buckets "BANANAS" emptyState = Some (loc, st')
      ∧ heap st' !! loc = Some ["ANANAS"; "BANANA"].
Proof.
  intros buckets.
  assert (cachesOk buckets emptyState) as Hok.
  { split; intros ? ? Hlook; simpl in Hlook; by rewrite lookup_empty in Hlook. }
  split; [exact Hok |].
  destruct (getNextWords_contract trimUpperAscii bananas "BANANAS" emptyState Hok)
    as (loc & st' & Hrun & Hloc & _).
  exists loc, st'. split; [exact Hrun |].
  rewrite Hloc. vm_compute. reflexivity.
Defined.

(** C9.  Whatever the dictionary, [isSolvable] answers [true] for every
    string of exactly three characters, and leaves the caches as they are:
    the test looks at the length only. *)
Theorem isSolvable_three_letters buckets fuel word st :
  String.length word = 3 →
  isSolvable buckets (S fuel) word st = Some (true, st).
Proof. intros Hlen. simpl. by rewrite Hlen. Qed.

Lemma isSolvable_three_letters_witness :
  let dictionary := normalise trimUpperAscii bananas in
  String.length "XYZ" = 3
  ∧ ("XYZ" ∉ dictionary)
  ∧ isSolvable (buildBuckets dictionary) 1 "XYZ" emptyState = Some (true, emptyState).
Proof.
  intros dictionary. split; [reflexivity |]. split.
  - apply (bool_decide_eq_false_1 _). vm_compute. reflexivity.
  - apply (isSolvable_three_letters (buildBuckets dictionary) 0 "XYZ" emptyState).
    reflexivity.
Defined.

(** C4.  [isSolvable] returns when given fuel for the word's length.  For
    a word of three letters the answer is [true]; for a longer word it is
    [true] exactly when [isSolvable] answers [true] for some member of
    [nextWords]; and the answer is the same from every sound state of the
    caches. *)
Theorem isSolvable_contract trimUpper words word fuel st :
  let buckets := buildBuckets (normalise trimUpper words) in
  cachesOk buckets st → 1 ≤ fuel → String.length word ≤ fuel + 2 →
  ∃ answer st',
    isSolvable buckets fuel word st = Some (answer, st')
    ∧ cachesOk buckets st'
    ∧ (String.length word = 3 → answer = true)
    ∧ (3 < String.length word →
         (answer = true ↔
          ∃ x st'', x ∈ nextWords buckets word
                    ∧ isSolvable buckets fuel x st' = Some (true, st'')))
    ∧ (∀ fuel2 st2,
         cachesOk buckets st2 → 1 ≤ fuel2 → String.length word ≤ fuel2 + 2 →
         ∃ st2', isSolvable buckets fuel2 word st2 = Some (answer, st2')).
Proof.
  intros buckets Hok Hfuel Hlen.
  pose proof (buildBuckets_wf (normalise trimUpper words)) as Hwf.
  fold buckets in Hwf.
  destruct (isSolvable_run buckets Hwf fuel word st) as (st' & Hrun & Hok' & _);
    [done .. |].
  exists (solvable buckets word), st'. split_and!; [done | done | | |].
  - by apply solvable_three.
  - intros Hlong. rewrite solvable_long by (done || lia). split.
    + intros (x & Hx & Hsolv).
      destruct (isSolvable_run buckets Hwf fuel x st') as (st'' & Hrunx & _);
        [done | done | |].
      { apply nextWords_length in Hx; [lia | done]. }
      exists x, st''. by rewrite Hrunx, Hsolv.
    + intros (x & st'' & Hx & Hrunx). exists x. split; [done |].
      destruct (isSolvable_run buckets Hwf fuel x st') as (st3 & Hrunx' & _);
        [done | done | |].
      { apply nextWords_length in Hx; [lia | done]. }
      congruence.
  - intros fuel2 st2 Hok2 Hfuel2 Hlen2.
    destruct (isSolvable_run buckets Hwf fuel2 word st2) as (st2' & Hrun2 & _);
      [done .. |].
    by exists st2'.
Qed.

Lemma isSolvable_contract_witness :
  let buckets := buildBuckets (normalise trimUpperAscii bananas) in
  cachesOk buckets emptyState ∧ 1 ≤ 7 ∧ String.length "BANANAS" ≤ 7 + 2
  ∧ ∃ st', isSolvable buckets 7 "BANANAS" emptyState = Some (true, st').
Proof.
  intros buckets.
  assert (cachesOk buckets emptyState) as Hok.
  { split; intros ? ? Hlook; simpl in Hlook; by rewrite lookup_empty in Hlook. }
  assert (1 ≤ 7) as Hfuel by lia.
  assert (String.length "BANANAS" ≤ 7 + 2) as Hlen by (simpl; lia).
  split_and!; [exact Hok | exact Hfuel | exact Hlen |].
  destruct (isSolvable_contract trimUpperAscii bananas "BANANAS" 7 emptyState
              Hok Hfuel Hlen) as (answer & st' & Hrun & _).
  exists st'. fold buckets in Hrun. rewrite Hrun. f_equal. f_equal.
  vm_compute in Hrun. congruence.
Defined.

(** ** The shuffle *)

Lemma insert_head_Permutation {A} (l : list A) j x y :
  l !! j = Some y → y :: <[j := x]> l ≡ₚ x :: l.
Proof.
  revert j. induction l as [|a l IH]; intros [|j] Hj; simplify_eq/=.
  - apply Permutation_swap.
  - rewrite Permutation_swap, (IH j Hj). apply Permutation_swap.
Qed.

Lemma exchange_Permutation {A} (l : list A) i j atI atJ :
  l !! i = Some atI → l !! j = Some atJ →
  <[j := atI]> (<[i := atJ]> l) ≡ₚ l.
Proof.
  revert i j. induction l as [|a l IH]; intros [|i] [|j] Hi Hj; simplify_eq/=.
  - done.
  - by apply insert_head_Permutation.
  - by apply insert_head_Permutation.
  - f_equiv. by apply IH.
Qed.

(** ** Doubles *)

Section DoubleFacts.

Import Double.
Local Open Scope Q_scope.

Lemma pow2_pos e : 0 < 2 ^ e.
Proof. by apply Qpower_0_lt. Qed.

Lemma pow2_plus a b : 2 ^ (a + b) == 2 ^ a * 2 ^ b.
Proof. by apply Qpower_plus. Qed.

Lemma pow2_mono a b : (a ≤ b)%Z → 2 ^ a <= 2 ^ b.
Proof. intros Hab. by apply Qpower_le_compat_l. Qed.

Lemma pow2_Z (n : Z) : (0 ≤ n)%Z → 2 ^ n == inject_Z (2 ^ n).
Proof. intros Hn. by rewrite Zpower_Qpower. Qed.

Lemma pow2_succ a : 2 ^ (a + 1) == 2 * 2 ^ a.
Proof. rewrite pow2_plus. change (2 ^ 1) with 2. lra. Qed.

Lemma exponent_spec x :
  0 < x → 2 ^ exponent x <= x ∧ x < 2 ^ (exponent x + 1).
Proof.
  intros Hx. destruct x as [p q]. unfold exponent. cbn [Qnum Qden].
  assert (0 < p)%Z as Hp by (unfold Qlt in Hx; simpl in Hx; lia).
  pose proof (Z.log2_spec p Hp) as [Hp1 Hp2].
  pose proof (Z.log2_spec (Z.pos q) ltac:(lia)) as [Hq1 Hq2].
  pose proof (Z.log2_nonneg p) as Hlp. pose proof (Z.log2_nonneg (Z.pos q)) as Hlq.
  set (lp := Z.log2 p) in *. set (lq := Z.log2 (Z.pos q)) in *.
  assert (2 ^ (lp - lq) == inject_Z (2 ^ lp) / inject_Z (2 ^ lq)) as Hd.
  { rewrite Qpower_minus by done. by rewrite <- !pow2_Z. }
  assert (p # q == inject_Z p / inject_Z (Z.pos q)) as Hfrac by apply Qmake_Qdiv.
  assert (0 < inject_Z (2 ^ lq)) as Hb by (rewrite <- (Zlt_Qlt 0); lia).
  assert (0 < inject_Z (2 ^ lp)) as Ha by (rewrite <- (Zlt_Qlt 0); lia).
  assert (0 < inject_Z (Z.pos q)) as Hq by (by rewrite <- (Zlt_Qlt 0)).
  assert (inject_Z (2 ^ lp) <= inject_Z p) as Hpa by (by rewrite <- Zle_Qle).
  assert (inject_Z p < 2 * inject_Z (2 ^ lp)) as Hpb.
  { change 2 with (inject_Z 2). rewrite <- inject_Z_mult, <- Zlt_Qlt.
    rewrite Z.pow_succ_r in Hp2 by done. lia. }
  assert (inject_Z (2 ^ lq) <= inject_Z (Z.pos q)) as Hqa by (by rewrite <- Zle_Qle).
  assert (inject_Z (Z.pos q) < 2 * inject_Z (2 ^ lq)) as Hqb.
  { change 2 with (inject_Z 2). rewrite <- inject_Z_mult, <- Zlt_Qlt.
    rewrite Z.pow_succ_r in Hq2 by done. lia. }
  revert Hd Hfrac Hb Ha Hq Hpa Hpb Hqa Hqb.
  generalize (inject_Z (2 ^ lp)) (inject_Z (2 ^ lq)) (inject_Z p) (inject_Z (Z.pos q)).
  intros a b P Qq Hd Hfrac Hb Ha Hq Hpa Hpb Hqa Hqb.
  assert (P / Qq < 2 * (a / b)) as Hupper.
  { apply Qlt_shift_div_r; [done |].
    assert (2 * (a / b) * Qq == 2 * a * (Qq / b)) as -> by (field; lra).
    assert (1 <= Qq / b) by (apply Qle_shift_div_l; lra). nra. }
  assert (a / b < 2 * (P / Qq)) as Hlower.
  { apply Qlt_shift_div_r; [done |].
    assert (2 * (P / Qq) * b == 2 * P * (b / Qq)) as -> by (field; lra).
    assert (1 < 2 * (b / Qq)).
    { assert (2 * (b / Qq) == (2 * b) / Qq) as -> by (field; lra).
      apply Qlt_shift_div_l; lra. }
    nra. }
  destruct (Qle_bool (2 ^ (lp - lq)) (p # q)) eqn:Hle.
  - apply Qle_bool_iff in Hle. split; [done |].
    rewrite pow2_succ, Hd, Hfrac. done.
  - assert (p # q < 2 ^ (lp - lq)) as Hlt.
    { apply Qnot_le_lt. intros Hge. apply Qle_bool_iff in Hge. congruence. }
    replace (lp - lq - 1 + 1)%Z with (lp - lq)%Z by lia. split; [| done].
    assert (2 ^ (lp - lq) == 2 * 2 ^ (lp - lq - 1)) as Hhalf.
    { rewrite <- pow2_succ. by replace (lp - lq - 1 + 1)%Z with (lp - lq)%Z by lia. }
    rewrite Hd in Hhalf. rewrite Hfrac. lra.
Qed.


Lemma nearestEven_near y :
  y - (1 # 2) <= inject_Z (nearestEven y) ∧ inject_Z (nearestEven y) <= y + (1 # 2).
Proof.
  unfold nearestEven.
  pose proof (Qfloor_le y) as Hlow. pose proof (Qlt_floor y) as Hhigh.
  rewrite inject_Z_plus in Hhigh. change (inject_Z 1) with 1 in Hhigh.
  destruct (Qcompare_spec (y - inject_Z (Qfloor y)) (1 # 2)) as [Heq | Hlt | Hgt].
  - destruct (Z.even (Qfloor y)).
    + lra.
    + rewrite inject_Z_plus. change (inject_Z 1) with 1. lra.
  - lra.
  - rewrite inject_Z_plus. change (inject_Z 1) with 1. lra.
Qed.

Lemma nearestEven_nonneg y : 0 <= y → (0 ≤ nearestEven y)%Z.
Proof.
  intros Hy. destruct (nearestEven_near y) as [Hlow _].
  assert (inject_Z (-1) < inject_Z (nearestEven y)) as Hlt
    by (change (inject_Z (-1)) with (-1); lra).
  rewrite <- Zlt_Qlt in Hlt. lia.
Qed.

#[local] Instance nearestEven_comp : Proper (Qeq ==> eq) nearestEven.
Proof.
  intros y1 y2 Hy. unfold nearestEven. rewrite (Qfloor_comp _ _ Hy).
  assert (y1 - inject_Z (Qfloor y2) == y2 - inject_Z (Qfloor y2)) as Heq by (by rewrite Hy).
  by rewrite (Qcompare_comp _ _ Heq _ _ (Qeq_refl (1 # 2))).
Qed.

Lemma nearestEven_Z k : nearestEven (inject_Z k) = k.
Proof.
  unfold nearestEven. rewrite Qfloor_Z.
  destruct (Qcompare_spec (inject_Z k - inject_Z k) (1 # 2)) as [Heq | Hlt | Hgt];
    [lra | done | lra].
Qed.

Lemma roundPos_near x : 0 < x → roundPos x <= x + ulp x / 2 ∧ 0 <= roundPos x.
Proof.
  intros Hx. unfold roundPos.
  assert (0 < ulp x) as Hulp by apply pow2_pos.
  assert (0 <= x / ulp x) as Hy by (apply Qle_shift_div_l; lra).
  destruct (nearestEven_near (x / ulp x)) as [_ Hhigh].
  pose proof (nearestEven_nonneg _ Hy) as Hnonneg. rewrite Zle_Qle in Hnonneg.
  change (inject_Z 0) with 0 in Hnonneg.
  revert Hhigh Hnonneg Hy. generalize (inject_Z (nearestEven (x / ulp x))).
  intros m Hhigh Hnonneg Hy. split.
  - assert (x + ulp x / 2 == (x / ulp x + (1 # 2)) * ulp x) as -> by (field; lra).
    apply Qmult_le_compat_r; lra.
  - apply Qmult_le_0_compat; lra.
Qed.

Lemma ulp_normal x :
  0 < x → (-1022 ≤ exponent x)%Z → ulp x / 2 <= x * (1 # 2 ^ 53).
Proof.
  intros Hx Hnormal. destruct (exponent_spec x Hx) as [Hlow _].
  unfold ulp. rewrite Z.max_l by done.
  replace (exponent x - 52)%Z with (exponent x + -52)%Z by lia.
  rewrite pow2_plus. change (2 ^ (-52)) with (1 # 2 ^ 52).
  revert Hlow. generalize (2 ^ exponent x). intros a Hlow.
  assert ((1 # 2 ^ 52) / 2 == 1 # 2 ^ 53) as Hhalf by reflexivity.
  rewrite <- Hhalf.
  assert (0 <= 1 # 2 ^ 52) as Hc by done.
  revert Hc. generalize (1 # 2 ^ 52). intros c Hc.
  assert (a * c / 2 == a * (c / 2)) as -> by field.
  apply Qmult_le_compat_r; [done |]. apply Qle_shift_div_l; lra.
Qed.

Lemma round_nonneg x : 0 <= x → 0 <= round x.
Proof.
  intros Hx. unfold round.
  destruct (Qcompare_spec x 0) as [Heq | Hlt | Hgt]; [lra | lra |].
  by apply roundPos_near.
Qed.

(** A product with a factor below [1 - 2^-53] stays below the other
    factor when it is rounded. *)
Lemma round_below x n :
  0 <= x → 1 <= n → x <= n * (1 - (1 # 2 ^ 53)) → round x < n.
Proof.
  intros Hx Hn Hbound. unfold round.
  destruct (Qcompare_spec x 0) as [Heq | Hlt | Hgt]; [lra | lra |].
  destruct (roundPos_near x Hgt) as [Hnear _].
  destruct (Z_le_gt_dec (-1022) (exponent x)) as [Hnormal | Hsub].
  - pose proof (ulp_normal x Hgt Hnormal) as Hulp.
    assert (0 <= 1 # 2 ^ 53) as Heps0 by done.
    assert ((1 # 2 ^ 53) <= 1) as Heps1 by done.
    assert (0 < (1 # 2 ^ 53) * (1 # 2 ^ 53)) as Heps2 by done.
    revert Hnear Hulp Hbound Heps0 Heps1 Heps2.
    generalize (roundPos x) (ulp x) (1 # 2 ^ 53).
    intros y u eps Hnear Hulp Hbound Heps0 Heps1 Heps2.
    assert (y <= x * (1 + eps)) as Hy by lra.
    assert (x * (1 + eps) <= n * (1 - eps) * (1 + eps)) as Hx2
      by (apply Qmult_le_compat_r; lra).
    assert (n * (1 - eps) * (1 + eps) == n - n * (eps * eps)) as Heq by ring.
    assert (0 < n * (eps * eps)) as Hpos by (apply Qmult_lt_0_compat; lra).
    lra.
  - destruct (exponent_spec x Hgt) as [_ Hhigh].
    assert (2 ^ (exponent x + 1) <= 2 ^ (-2)) as Hpow by (apply pow2_mono; lia).
    change (2 ^ (-2)) with (1 # 4) in Hpow.
    assert (ulp x <= 2 ^ (-2)) as Hulp.
    { unfold ulp. apply pow2_mono. lia. }
    change (2 ^ (-2)) with (1 # 4) in Hulp.
    assert (0 < ulp x) as Hupos by apply pow2_pos.
    revert Hnear Hulp Hupos. generalize (roundPos x) (ulp x). intros y u Hnear Hulp Hupos.
    assert (u / 2 <= u) as Hhalf by (apply Qle_shift_div_r; lra).
    lra.
Qed.

Lemma double_below_one r :
  isDouble r → 0 <= r → r < 1 → r <= 1 - (1 # 2 ^ 53).
Proof.
  intros (m & e & Hm & He & Hr) Hr0 Hr1.
  assert (0 < 2 ^ e) as Hpow by apply pow2_pos.
  destruct (Z_le_gt_dec 0 e) as [Hpos | Hneg].
  - (* an integer below 1 *)
    rewrite pow2_Z in Hr by done. rewrite <- inject_Z_mult in Hr.
    rewrite Hr in Hr0, Hr1 |- *. change 1 with (inject_Z 1) in Hr1.
    change 0 with (inject_Z 0) in Hr0.
    rewrite <- Zlt_Qlt in Hr1. rewrite <- Zle_Qle in Hr0.
    assert (m * 2 ^ e = 0)%Z as -> by lia. done.
  - assert (2 ^ e == / inject_Z (2 ^ (- e))) as Hinv.
    { rewrite <- pow2_Z by lia. rewrite <- Qpower_opp. by rewrite Z.opp_involutive. }
    assert (0 < 2 ^ (- e))%Z as Hden by (apply Z.pow_pos_nonneg; lia).
    assert (0 < inject_Z (2 ^ (- e))) as HdenQ by (by rewrite <- (Zlt_Qlt 0)).
    assert (m < 2 ^ (- e))%Z as Hmlt.
    { rewrite Zlt_Qlt. rewrite Hr, Hinv in Hr1.
      apply (Qmult_lt_r _ _ (inject_Z (2 ^ (- e))) HdenQ) in Hr1.
      rewrite <- Qmult_assoc, (Qmult_comm (/ _)), Qmult_inv_r in Hr1 by lra. lra. }
    destruct (Z_le_gt_dec (- e) 53) as [Hsmall | Hlarge].
    + (* the step 2^e is at least 2^-53 *)
      assert (2 ^ (-53) <= 2 ^ e) as Hstep by (apply pow2_mono; lia).
      change (2 ^ (-53)) with (1 # 2 ^ 53) in Hstep.
      assert (inject_Z m <= inject_Z (2 ^ (- e)) - 1) as Hm1.
      { assert (inject_Z m <= inject_Z (2 ^ (- e) + -1)) as Hle
          by (rewrite <- Zle_Qle; lia).
        rewrite inject_Z_plus in Hle. change (inject_Z (-1)) with (-1) in Hle. lra. }
      rewrite Hr.
      assert (inject_Z m * 2 ^ e <= (inject_Z (2 ^ (- e)) - 1) * 2 ^ e) as Hle
        by (apply Qmult_le_compat_r; lra).
      assert ((inject_Z (2 ^ (- e)) - 1) * 2 ^ e == 1 - 2 ^ e) as Heq.
      { rewrite Hinv. field. lra. }
      lra.
    + (* at most 53 bits under an exponent below -53 *)
      assert (2 ^ e <= 2 ^ (-54)) as Hstep by (apply pow2_mono; lia).
      change (2 ^ (-54)) with (1 # 2 ^ 54) in Hstep.
      assert (inject_Z m <= inject_Z (2 ^ 53)) as Hm1 by (rewrite <- Zle_Qle; lia).
      rewrite Hr.
      assert (inject_Z m * 2 ^ e <= inject_Z (2 ^ 53) * 2 ^ e) as Hle
        by (apply Qmult_le_compat_r; lra).
      assert (inject_Z (2 ^ 53) * 2 ^ e <= inject_Z (2 ^ 53) * (1 # 2 ^ 54)) as Hle2.
      { rewrite !(Qmult_comm (inject_Z (2 ^ 53))). apply Qmult_le_compat_r; [done | done]. }
      assert (inject_Z (2 ^ 53) * (1 # 2 ^ 54) <= 1 - (1 # 2 ^ 53)) as Hle3 by done.
      lra.
Qed.


Lemma roundPos_double x m e :
  0 < x → (0 < m < 2 ^ 53)%Z → (-1074 ≤ e)%Z → x == inject_Z m * 2 ^ e →
  roundPos x == x.
Proof.
  intros Hx Hm He Hxme. unfold roundPos, ulp.
  destruct (exponent_spec x Hx) as [Hlow _].
  set (s := (Z.max (exponent x) (-1022) - 52)%Z).
  assert (s ≤ e)%Z as Hs.
  { unfold s. destruct (Z.max_spec (exponent x) (-1022)) as [[_ ->] | [_ ->]]; [lia |].
    assert (2 ^ exponent x < 2 ^ (53 + e)) as Hlt.
    { eapply Qle_lt_trans; [exact Hlow |]. rewrite Hxme, pow2_plus.
      apply Qmult_lt_r; [apply pow2_pos |].
      rewrite pow2_Z by lia. rewrite <- Zlt_Qlt. lia. }
    apply Qpower_lt_compat_l_inv in Hlt; [lia | done]. }
  assert (0 < 2 ^ s) as Hpos by apply pow2_pos.
  assert (2 ^ e == 2 ^ (e - s) * 2 ^ s) as Hsplit.
  { rewrite <- pow2_plus. by replace (e - s + s)%Z with e by lia. }
  assert (x / 2 ^ s == inject_Z (m * 2 ^ (e - s))) as Hint.
  { rewrite inject_Z_mult, <- pow2_Z by lia. rewrite Hxme, Hsplit. field. lra. }
  rewrite Hint, nearestEven_Z, inject_Z_mult, <- pow2_Z by lia.
  rewrite Hxme, Hsplit. ring.
Qed.

(** Rounding leaves a double as it is. *)
Lemma round_double x : isDouble x → round x == x.
Proof.
  intros (m & e & Hm & He & Hxme). unfold round.
  assert (0 < 2 ^ e) as Hpow by apply pow2_pos.
  destruct (Qcompare_spec x 0) as [Heq | Hlt | Hgt].
  - by rewrite Heq.
  - assert (m < 0)%Z as Hneg.
    { destruct (Z_lt_ge_dec m 0) as [| Hge]; [done |]. exfalso.
      assert (0 <= inject_Z m) as HmQ by (rewrite <- (Zle_Qle 0); lia).
      assert (0 <= inject_Z m * 2 ^ e) by (apply Qmult_le_0_compat; lra). lra. }
    rewrite (roundPos_double (- x) (- m) e); [ring | lra | lia | lia |].
    rewrite Hxme, inject_Z_opp. ring.
  - assert (0 < m)%Z as Hposm.
    { destruct (Z_lt_ge_dec 0 m) as [| Hge]; [done |]. exfalso.
      assert (inject_Z m <= 0) as HmQ by (rewrite <- (Zle_Qle _ 0); lia).
      assert (0 <= (- inject_Z m) * 2 ^ e) by (apply Qmult_le_0_compat; lra).
      assert ((- inject_Z m) * 2 ^ e == - (inject_Z m * 2 ^ e)) as Hopp by ring. lra. }
    apply (roundPos_double x m e); [done | lia | lia | done].
Qed.

Lemma isDouble_Z z : (Z.abs z ≤ 2 ^ 53)%Z → isDouble (inject_Z z).
Proof.
  intros Hz. destruct (Z_lt_ge_dec (Z.abs z) (2 ^ 53)) as [Hlt | Hge].
  - exists z, 0%Z. split_and!; [done | lia | lia |]. change (2 ^ 0) with 1. ring.
  - assert (z = 2 ^ 53 ∨ z = - 2 ^ 53)%Z as [-> | ->] by lia.
    + exists (2 ^ 52)%Z, 1%Z. split_and!; done.
    + exists (- 2 ^ 52)%Z, 1%Z. split_and!; done.
Qed.

(** The example of a third: three times the double nearest to 1/3 rounds
    to 1. *)
Lemma round_third : round ((6004799503160661 # 2 ^ 54) * 3) == 1.
Proof. vm_compute. reflexivity. Qed.

(** Further examples: the double nearest to a tenth; a tie, which goes to
    the even neighbour, and a sum just above it; and two numbers below
    the smallest normal double. *)
Lemma round_examples :
  round (1 # 10) == 3602879701896397 # 2 ^ 55
  ∧ round (inject_Z (2 ^ 53 + 1)) == inject_Z (2 ^ 53)
  ∧ round (inject_Z (2 ^ 53 + 3)) == inject_Z (2 ^ 53 + 4)
  ∧ round (3 # 2 ^ 1076) == 1 # 2 ^ 1074
  ∧ round (1 # 2 ^ 1076) == 0.
Proof. split_and!; vm_compute; reflexivity. Qed.

End DoubleFacts.

Lemma floorTimes_range r n :
  Double.isDouble r → (0 <= r)%Q → (r < 1)%Q → 0 < n →
  (0 ≤ floorTimes r n < Z.of_nat n)%Z.
Proof.
  intros Hdouble Hr0 Hr1 Hn. unfold floorTimes.
  pose proof (double_below_one r Hdouble Hr0 Hr1) as Hbelow.
  assert (1 <= inject_Z (Z.of_nat n))%Q as Hone.
  { change 1%Q with (inject_Z 1). rewrite <- Zle_Qle. lia. }
  assert (0 <= r * inject_Z (Z.of_nat n))%Q as Hx
    by (apply Qmult_le_0_compat; lra).
  assert (r * inject_Z (Z.of_nat n)
          <= inject_Z (Z.of_nat n) * (1 - (1 # 2 ^ 53)))%Q as Hbound.
  { rewrite (Qmult_comm r). apply Qmult_le_l; [lra | done]. }
  pose proof (round_nonneg _ Hx) as Hlow.
  pose proof (round_below _ _ Hx Hone Hbound) as Hhigh.
  revert Hlow Hhigh. generalize (Double.round (r * inject_Z (Z.of_nat n))).
  intros y Hlow Hhigh. split.
  - change 0%Z with (Qfloor 0). by apply Qfloor_resp_le.
  - rewrite Zlt_Qlt. eapply Qle_lt_trans; [apply Qfloor_le | done].
Qed.

Section ShuffleFacts.

Context {R : Type}.
Variable random : R → Q * R.

Lemma shuffleList_Permutation elements i rng result rng' :
  shuffleList random elements i rng = Some (result, rng') → result ≡ₚ elements.
Proof.
  revert elements rng. induction i as [|i IH]; intros elements rng; simpl.
  - by intros [= -> _].
  - destruct (random rng) as [r rng1]. case_decide; [| done].
    destruct (elements !! Z.to_nat _) as [atJ|] eqn:HJ; [| done].
    destruct (elements !! S i) as [atI|] eqn:HI; [| done].
    intros Hrest%IH. rewrite Hrest. by eapply exchange_Permutation.
Qed.

Lemma shuffleList_returns elements i rng :
  unitRange random → i < length elements ∨ i = 0 →
  ∃ result rng', shuffleList random elements i rng = Some (result, rng').
Proof.
  intros Hunit. revert elements rng.
  induction i as [|i IH]; intros elements rng Hi; simpl; [eauto |].
  destruct Hi as [Hi | ?]; [| done].
  pose proof (Hunit rng) as (Hdouble & Hr0 & Hr1). destruct (random rng) as [r rng1].
  simpl in Hdouble, Hr0, Hr1.
  pose proof (floorTimes_range r (S (i + 1)) Hdouble Hr0 Hr1 ltac:(lia)) as Hj.
  case_decide; [| lia].
  destruct (lookup_lt_is_Some_2 elements (Z.to_nat (floorTimes r (S (i + 1)))))
    as [atJ ->]; [lia |].
  destruct (lookup_lt_is_Some_2 elements (S i)) as [atI ->]; [lia |].
  apply IH. left. rewrite !length_insert. lia.
Qed.

Lemma shuffledList_returns elements rng :
  unitRange random →
  ∃ result rng', shuffledList random elements rng = Some (result, rng')
                 ∧ result ≡ₚ elements.
Proof.
  intros Hunit. unfold shuffledList.
  destruct (shuffleList_returns elements (length elements - 1) rng Hunit)
    as (result & rng' & Hrun); [lia |].
  exists result, rng'. split; [done |]. by eapply shuffleList_Permutation.
Qed.

(** The loop of [shuffled] works on the array at [copy] and on nothing
    else. *)
Lemma shuffleLoop_run copy i rng st elements :
  heap st !! copy = Some elements →
  shuffleLoop random copy i rng st =
  match shuffleList random elements i rng with
  | Some (result, rng') =>
      Some (rng', mkState (<[copy := result]> (heap st))
                          (nextWordCache st) (solvableMemo st))
  | None => None
  end.
Proof.
  revert rng st elements. induction i as [|i IH]; intros rng st elements Hcopy; simpl.
  - run_M. rewrite list_insert_id by done. by destruct st.
  - destruct (random rng) as [r rng1]. unfold swap. run_M. rewrite Hcopy.
    case_decide; [| done].
    destruct (elements !! Z.to_nat _) as [atJ|] eqn:HJ; [| done].
    destruct (elements !! S i) as [atI|] eqn:HI; [| done].
    erewrite IH; first last.
    + simpl. apply list_lookup_insert_eq. by eapply lookup_lt_Some.
    + simpl. destruct (shuffleList _ _ _ _) as [[result rng']|]; [| done].
      by rewrite list_insert_insert_eq.
Qed.

(** [shuffled] reads the array at [items], and its only effect on the
    heap is one new array: the shuffled copy. *)
Lemma shuffled_run items rng st elements :
  heap st !! items = Some elements →
  shuffled random items rng st =
  match shuffledList random elements rng with
  | Some (result, rng') =>
      Some ((length (heap st), rng'),
            mkState (heap st ++ [result]) (nextWordCache st) (solvableMemo st))
  | None => None
  end.
Proof.
  intros Hitems. unfold shuffled, shuffledList. run_M. rewrite Hitems.
  erewrite shuffleLoop_run; [| simpl; by apply list_lookup_middle].
  destruct (shuffleList _ _ _ _) as [[result rng']|]; [| done]. simpl.
  rewrite insert_app_r_alt, Nat.sub_diag by lia. done.
Qed.

End ShuffleFacts.

(** C10.  With a random source whose numbers are doubles in the unit
    interval, [shuffled] returns a new array that is a permutation of the
    elements of [items], of the same length; the array [items] and every
    other array that existed before the call are left as they were. *)
Theorem shuffled_permutation {R} (random : R → Q * R) items rng st elements :
  unitRange random →
  heap st !! items = Some elements →
  ∃ copy rng' st' result,
    shuffled random items rng st = Some ((copy, rng'), st')
    ∧ heap st' !! copy = Some result
    ∧ result ≡ₚ elements
    ∧ length result = length elements
    ∧ copy ≠ items
    ∧ heap st' !! items = Some elements
    ∧ (∀ loc array, heap st !! loc = Some array → heap st' !! loc = Some array).
Proof.
  intros Hunit Hitems. rewrite (shuffled_run random items rng st elements Hitems).
  destruct (shuffledList_returns random elements rng Hunit)
    as (result & rng' & -> & Hperm).
  eexists (length (heap st)), rng', _, result. split_and!; [done | simpl ..].
  - by apply list_lookup_middle.
  - done.
  - by rewrite Hperm.
  - apply lookup_lt_Some in Hitems. lia.
  - by apply lookup_app_l_Some.
  - intros loc array Hloc. by apply lookup_app_l_Some.
Qed.

Lemma mulberry32_unitRange : unitRange mulberry32.
Proof.
  intros seed. unfold mulberry32, Int32.toUint32. cbn [fst].
  match goal with |- context [(?x mod 2 ^ 32)%Z] =>
    pose proof (Z.mod_pos_bound x (2 ^ 32) ltac:(lia)) as Hmod;
    generalize dependent (x mod 2 ^ 32)%Z
  end.
  intros u Hu. split_and!.
  - exists u, (-32)%Z. split_and!; [lia | lia | lia |].
    change (2 ^ (-32))%Q with (1 # 4294967296). unfold Qeq. simpl. lia.
  - unfold Qle. simpl. lia.
  - unfold Qlt. simpl. lia.
Qed.

Lemma shuffled_permutation_witness :
  let st := mkState [["ANA"; "NAN"; "NAAN"]] ∅ ∅ in
  unitRange mulberry32
  ∧ heap st !! 0 = Some ["ANA"; "NAN"; "NAAN"]
  ∧ ∃ copy rng' st' result,
      shuffled mulberry32 0 1%Z st = Some ((copy, rng'), st')
      ∧ heap st' !! copy = Some result
      ∧ result ≡ₚ ["ANA"; "NAN"; "NAAN"]
      ∧ heap st' !! 0 = Some ["ANA"; "NAN"; "NAAN"].
Proof.
  intros st. split; [exact mulberry32_unitRange |]. split; [reflexivity |].
  destruct (shuffled_permutation mulberry32 0 1%Z st ["ANA"; "NAN"; "NAAN"]
              mulberry32_unitRange eq_refl)
    as (copy & rng' & st' & result & Hrun & Hcopy & Hperm & _ & _ & Hitems & _).
  exists copy, rng', st', result. split_and!; assumption.
Defined.

(** ** The chain builder *)

Section ChainFacts.

Variable buckets : gmap string (list string).
Hypothesis Hwf : bucketsWf buckets.
Context {R : Type}.
Variable random : R → Q * R.

Lemma tryEach_run search described word candidates (rng : R) st :
  cachesOk buckets st →
  (∀ x rng1 st1, cachesOk buckets st1 →
                 follows buckets (search x rng1) (described x rng1) st1) →
  follows buckets (tryEach search word candidates rng)
          (firstChain described word candidates rng) st.
Proof.
  intros Hok Hsearch. revert rng st Hok.
  induction candidates as [|x rest IH]; intros rng st Hok; simpl.
  - by exists st.
  - specialize (Hsearch x rng st Hok). unfold follows in Hsearch |- *. run_M.
    destruct (described x rng) as [[[chain|] rng1]|].
    + destruct Hsearch as (st1 & -> & Hok1 & Hpre1). by exists st1.
    + destruct Hsearch as (st1 & -> & Hok1 & Hpre1).
      specialize (IH rng1 st1 Hok1). unfold follows in IH.
      destruct (firstChain described word rest rng1) as [result|]; [| done].
      destruct IH as (st2 & -> & Hok2 & Hpre2).
      exists st2. split_and!; [done | done | by etrans].
    + by rewrite Hsearch.
Qed.

(** [dfs] computes [chainFrom], whatever the caches hold. *)
Lemma dfs_run fuel word rng st :
  cachesOk buckets st →
  follows buckets (dfs buckets random fuel word rng) (chainFrom buckets random fuel word rng) st.
Proof.
  revert word rng st. induction fuel as [|fuel IH]; intros word rng st Hok; simpl.
  - done.
  - destruct (String.length word =? 3).
    + by exists st.
    + unfold follows. run_M.
      destruct (getNextWords_run buckets word st Hok)
        as (loc & st1 & -> & Hloc & Hok1 & Hpre1 & _).
      rewrite (shuffled_run random loc rng st1 _ Hloc).
      destruct (shuffledList random (nextWords buckets word) rng)
        as [[orderedCandidates rng1]|]; [| done].
      cbn [heap]. rewrite list_lookup_middle by done.
      pose proof (tryEach_run (dfs buckets random fuel) (chainFrom buckets random fuel)
                    word orderedCandidates rng1
                    (mkState (heap st1 ++ [orderedCandidates])
                             (nextWordCache st1) (solvableMemo st1))) as Hrest.
      unfold follows in Hrest.
      destruct (firstChain _ word orderedCandidates rng1) as [result|].
      * destruct Hrest as (st' & -> & Hok' & Hpre'); [by apply cachesOk_grow | done |].
        exists st'. split_and!; [done | done |].
        etrans; [done |]. etrans; [| done]. by apply prefix_app_r.
      * apply Hrest; [by apply cachesOk_grow | done].
Qed.

Lemma Descent_three word chain :
  Descent buckets word chain → String.length word = 3 → chain = [word].
Proof. by destruct 1. Qed.

Lemma Descent_long word chain :
  Descent buckets word chain → String.length word ≠ 3 →
  ∃ x tail, chain = word :: tail ∧ x ∈ nextWords buckets word
            ∧ Descent buckets x tail.
Proof. destruct 1; [done | eauto]. Qed.

Lemma Descent_solvable word chain :
  Descent buckets word chain → solvable buckets word = true.
Proof using Hwf.
  induction 1 as [word Hlen | word x tail Hlen Hx _ IH].
  - by apply solvable_three.
  - apply solvable_long; eauto.
Qed.

Hypothesis Hunit : unitRange random.

(** The loop over the shuffled candidates, when the search below answers
    as it should for each of them. *)
Lemma firstChain_found described word candidates (rng : R) :
  String.length word ≠ 3 →
  (∀ x, x ∈ candidates → x ∈ nextWords buckets word) →
  (∀ x rng1, x ∈ candidates →
     ∃ found rng2, described x rng1 = Some (found, rng2)
       ∧ match found with
         | Some chain => Descent buckets x chain
         | None => solvable buckets x = false
         end) →
  ∃ found rng', firstChain described word candidates rng = Some (found, rng')
    ∧ match found with
      | Some chain => Descent buckets word chain
      | None => existsb (solvable buckets) candidates = false
      end.
Proof.
  intros Hlen. revert rng.
  induction candidates as [|x rest IH]; intros rng Hnext Hsearch; simpl.
  - by exists None, rng.
  - destruct (Hsearch x rng) as ([chain|] & rng1 & -> & Hfound); [by left | |].
    + exists (Some (word :: chain)), rng1. split; [done |].
      apply descent_step with x; [done | | done]. apply Hnext. by left.
    + destruct (IH rng1) as (found & rng' & -> & Hrest).
      * intros y Hy. apply Hnext. by right.
      * intros y rng2 Hy. apply Hsearch. by right.
      * exists found, rng'. split; [done |].
        destruct found; [done |]. by rewrite Hfound.
Qed.

(** With enough fuel [chainFrom] has a result: a descent from the word
    when the word is solvable, and no chain otherwise. *)
Lemma chainFrom_found fuel word rng :
  1 ≤ fuel → String.length word ≤ fuel + 2 →
  ∃ found rng', chainFrom buckets random fuel word rng = Some (found, rng')
    ∧ match found with
      | Some chain => Descent buckets word chain
      | None => solvable buckets word = false
      end.
Proof using Hwf Hunit.
  revert word rng. induction fuel as [|fuel IH]; intros word rng Hfuel Hlen; [lia |].
  simpl. destruct (Nat.eqb_spec (String.length word) 3) as [Hthree | Hthree].
  - exists (Some [word]), rng. split; [done |]. by constructor.
  - destruct (shuffledList_returns random (nextWords buckets word) rng Hunit)
      as (orderedCandidates & rng1 & -> & Hperm).
    destruct (firstChain_found (chainFrom buckets random fuel) word orderedCandidates rng1)
      as (found & rng' & -> & Hfound); [done | | |].
    + intros x Hx. by rewrite <- Hperm.
    + intros x rng2 Hx. rewrite Hperm in Hx.
      assert (3 < String.length word) as Hlong.
      { destruct (decide (3 < String.length word)); [done |].
        rewrite nextWords_short in Hx by lia. by apply elem_of_nil in Hx. }
      apply nextWords_length in Hx; [| done]. apply IH; lia.
    + exists found, rng'. split; [done |]. destruct found as [chain|]; [done |].
      rewrite solvable_unfold by done.
      destruct (Nat.eqb_spec (String.length word) 3); [done |]. simpl.
      rewrite <- Hfound. apply eq_true_iff_eq.
      rewrite !existsb_exists. setoid_rewrite <- list_elem_of_In.
      by setoid_rewrite Hperm.
Qed.

End ChainFacts.

Lemma Descent_of_seven buckets word chain :
  bucketsWf buckets →
  Descent buckets word chain → String.length word = 7 →
  ∃ w6 w5 w4 w3,
    chain = [word; w6; w5; w4; w3]
    ∧ String.length w6 = 6 ∧ String.length w5 = 5
    ∧ String.length w4 = 4 ∧ String.length w3 = 3
    ∧ oneLetterRemoved w6 word ∧ oneLetterRemoved w5 w6
    ∧ oneLetterRemoved w4 w5 ∧ oneLetterRemoved w3 w4.
Proof.
  intros Hwf Hchain Hlen.
  apply Descent_long in Hchain as (w6 & tail6 & -> & Hw6 & Hchain); [| lia].
  pose proof (nextWords_length buckets Hwf _ _ Hw6) as Hlen6.
  apply Descent_long in Hchain as (w5 & tail5 & -> & Hw5 & Hchain); [| lia].
  pose proof (nextWords_length buckets Hwf _ _ Hw5) as Hlen5.
  apply Descent_long in Hchain as (w4 & tail4 & -> & Hw4 & Hchain); [| lia].
  pose proof (nextWords_length buckets Hwf _ _ Hw4) as Hlen4.
  apply Descent_long in Hchain as (w3 & tail3 & -> & Hw3 & Hchain); [| lia].
  pose proof (nextWords_length buckets Hwf _ _ Hw3) as Hlen3.
  apply Descent_three in Hchain as ->; [| lia].
  exists w6, w5, w4, w3.
  split_and!; [done | lia .. | | | |]; by apply (nextWords_edge buckets Hwf).
Qed.

(** C2.  Take a word of seven letters for which [isSolvable] answers
    [true], and a random source whose numbers are doubles in the unit
    interval.  Then [buildChain] returns a chain of five words, of 7, 6,
    5, 4 and 3 letters, in which the signature of each word after the
    first is the signature of the word before it with one character taken
    out. *)
Theorem buildChain_solvable_seven trimUpper words {R} (random : R → Q * R)
    startWord rng st st0 st0' :
  let buckets := buildBuckets (normalise trimUpper words) in
  unitRange random →
  String.length startWord = 7 →
  cachesOk buckets st0 →
  isSolvable buckets 7 startWord st0 = Some (true, st0') →
  cachesOk buckets st →
  ∃ w6 w5 w4 w3 rng' st',
    buildChain buckets random startWord rng st
      = Some ((Some [startWord; w6; w5; w4; w3], rng'), st')
    ∧ String.length w6 = 6 ∧ String.length w5 = 5
    ∧ String.length w4 = 4 ∧ String.length w3 = 3
    ∧ oneLetterRemoved w6 startWord ∧ oneLetterRemoved w5 w6
    ∧ oneLetterRemoved w4 w5 ∧ oneLetterRemoved w3 w4.
Proof.
  intros buckets Hunit Hlen Hok0 Hsolvable Hok.
  pose proof (buildBuckets_wf (normalise trimUpper words)) as Hwf.
  fold buckets in Hwf.
  destruct (isSolvable_run buckets Hwf 7 startWord st0) as (st1 & Hrun & _);
    [done | lia | lia |].
  assert (solvable buckets startWord = true) as Hsolv by congruence.
  destruct (chainFrom_found buckets Hwf random Hunit (S (String.length startWord))
              startWord rng) as (found & rng' & Hfound & Hchain); [lia | lia |].
  pose proof (dfs_run buckets random (S (String.length startWord)) startWord rng st Hok)
    as Hdfs.
  unfold follows in Hdfs. rewrite Hfound in Hdfs.
  destruct Hdfs as (st' & Hdfs & _).
  destruct found as [chain|]; [| congruence].
  destruct (Descent_of_seven buckets startWord chain Hwf Hchain Hlen)
    as (w6 & w5 & w4 & w3 & -> & Hrest).
  by exists w6, w5, w4, w3, rng', st'.
Qed.

Lemma buildChain_solvable_seven_witness :
  let buckets := buildBuckets (normalise trimUpperAscii bananas) in
  unitRange mulberry32
  ∧ String.length "BANANAS" = 7
  ∧ cachesOk buckets emptyState
  ∧ (∃ st0', isSolvable buckets 7 "BANANAS" emptyState = Some (true, st0'))
  ∧ ∃ w6 w5 w4 w3 rng' st',
      buildChain buckets mulberry32 "BANANAS" 1%Z emptyState
        = Some ((Some ["BANANAS"; w6; w5; w4; w3], rng'), st').
Proof.
  intros buckets.
  assert (cachesOk buckets emptyState) as Hok.
  { split; intros ? ? Hlook; simpl in Hlook; by rewrite lookup_empty in Hlook. }
  assert (∃ st0', isSolvable buckets 7 "BANANAS" emptyState = Some (true, st0'))
    as [st0' Hsolvable].
  { eexists. vm_compute. reflexivity. }
  split_and!; [exact mulberry32_unitRange | reflexivity | exact Hok | by exists st0' |].
  destruct (buildChain_solvable_seven trimUpperAscii bananas mulberry32
              "BANANAS" 1%Z emptyState emptyState st0'
              mulberry32_unitRange eq_refl Hok Hsolvable Hok)
    as (w6 & w5 & w4 & w3 & rng' & st' & Hrun & _).
  by exists w6, w5, w4, w3, rng', st'.
Defined.

(** C1.  Two calls of [buildChain] with the same start word and the same
    state of the [mulberry32] generator return the same chain and leave
    the generator in the same state, whatever the caches hold at the time
    of either call; and each call does return. *)
Theorem buildChain_deterministic trimUpper words startWord seed st1 st2 :
  let buckets := buildBuckets (normalise trimUpper words) in
  cachesOk buckets st1 → cachesOk buckets st2 →
  ∃ chain seed' st1' st2',
    buildChain buckets mulberry32 startWord seed st1 = Some ((chain, seed'), st1')
    ∧ buildChain buckets mulberry32 startWord seed st2 = Some ((chain, seed'), st2').
Proof.
  intros buckets Hok1 Hok2.
  pose proof (buildBuckets_wf (normalise trimUpper words)) as Hwf.
  fold buckets in Hwf.
  destruct (chainFrom_found buckets Hwf mulberry32 mulberry32_unitRange
              (S (String.length startWord)) startWord seed)
    as (found & seed' & Hfound & _); [lia | lia |].
  pose proof (dfs_run buckets mulberry32 (S (String.length startWord))
                startWord seed st1 Hok1) as Hrun1.
  pose proof (dfs_run buckets mulberry32 (S (String.length startWord))
                startWord seed st2 Hok2) as Hrun2.
  unfold follows in Hrun1, Hrun2. rewrite Hfound in Hrun1, Hrun2.
  destruct Hrun1 as (st1' & Hrun1 & _). destruct Hrun2 as (st2' & Hrun2 & _).
  by exists found, seed', st1', st2'.
Qed.

Lemma buildChain_deterministic_witness :
  let buckets := buildBuckets (normalise trimUpperAscii bananas) in
  let warm := mkState [["ANANAS"; "BANANA"]] {["BANANAS" := 0]} ∅ in
  cachesOk buckets emptyState ∧ cachesOk buckets warm
  ∧ ∃ chain seed' st1' st2',
      buildChain buckets mulberry32 "BANANAS" 2024%Z emptyState
        = Some ((chain, seed'), st1')
      ∧ buildChain buckets mulberry32 "BANANAS" 2024%Z warm
        = Some ((chain, seed'), st2').
Proof.
  intros buckets warm.
  assert (cachesOk buckets emptyState) as Hcold.
  { split; intros ? ? Hlook; simpl in Hlook; by rewrite lookup_empty in Hlook. }
  assert (cachesOk buckets warm) as Hwarm.
  { split; intros word ? Hlook; simpl in Hlook.
    - apply lookup_singleton_Some in Hlook as [<- <-]. vm_compute. reflexivity.
    - by rewrite lookup_empty in Hlook. }
  split_and!; [exact Hcold | exact Hwarm |].
  exact (buildChain_deterministic trimUpperAscii bananas "BANANAS" 2024%Z
           emptyState warm Hcold Hwarm).
Defined.

(** ** Dates *)

Section DateFacts.

Import JsDate.
Local Open Scope Z_scope.

Lemma DayFromYear_succ y : DayFromYear (y + 1) = DayFromYear y + DaysInYear y.
Proof.
  unfold DayFromYear, DaysInYear.
  repeat case_decide; Z.div_mod_to_equations; lia.
Qed.

(** [yearOfDay] finds the year of the language definition: the one whose
    first day is the last first-of-year not after the given day. *)
Lemma yearOfDay_spec day :
  DayFromYear (yearOfDay day) ≤ day < DayFromYear (yearOfDay day + 1).
Proof.
  rewrite DayFromYear_succ.
  unfold yearOfDay, DaysInYear.
  change (DayFromYear 1601) with (-134774).
  remember (day - -134774) as d eqn:Hd.
  pose proof (Z.div_mod d 146097 ltac:(lia)) as H400.
  pose proof (Z.mod_pos_bound d 146097 ltac:(lia)) as B400.
  remember (d / 146097) as n400 eqn:Hn400.
  remember (d mod 146097) as d1 eqn:Hd1.
  clear Hn400 Hd1.
  remember (Z.min 3 (d1 / 36524)) as n100 eqn:Hn100.
  assert (0 ≤ n100 ≤ 3 ∧ 0 ≤ d1 - n100 * 36524
          ∧ (n100 < 3 → d1 - n100 * 36524 < 36524)) as B100.
  { subst n100. Z.div_mod_to_equations. lia. }
  clear Hn100. remember (d1 - n100 * 36524) as d2 eqn:Hd2.
  pose proof (Z.div_mod d2 1461 ltac:(lia)) as H4.
  pose proof (Z.mod_pos_bound d2 1461 ltac:(lia)) as B4.
  remember (d2 / 1461) as n4 eqn:Hn4.
  remember (d2 mod 1461) as d3 eqn:Hd3.
  clear Hn4 Hd3.
  remember (Z.min 3 (d3 / 365)) as n1 eqn:Hn1.
  assert (0 ≤ n1 ≤ 3 ∧ 0 ≤ d3 - n1 * 365
          ∧ (n1 < 3 → d3 - n1 * 365 < 365)) as B1.
  { subst n1. Z.div_mod_to_equations. lia. }
  clear Hn1.
  unfold DayFromYear.
  assert (0 ≤ n4 ≤ 24) by lia.
  repeat case_decide; Z.div_mod_to_equations; lia.
Qed.

Lemma DayWithinYear_range t :
  0 ≤ DayWithinYear t < DaysInYear (YearFromTime t).
Proof.
  unfold DayWithinYear, YearFromTime.
  pose proof (yearOfDay_spec (Day t)) as Hy.
  rewrite DayFromYear_succ in Hy. lia.
Qed.

Lemma InLeapYear_days t : DaysInYear (YearFromTime t) = 365 + InLeapYear t.
Proof.
  unfold InLeapYear. case_decide as Hleap; [lia |].
  revert Hleap. unfold DaysInYear. repeat case_decide; lia.
Qed.

Lemma MonthFromTime_range t : 0 ≤ MonthFromTime t ≤ 11.
Proof. unfold MonthFromTime, monthOfDay. repeat case_decide; lia. Qed.

Lemma DateFromTime_range t : 1 ≤ DateFromTime t ≤ 31.
Proof.
  pose proof (DayWithinYear_range t) as Hd. rewrite InLeapYear_days in Hd.
  unfold DateFromTime, MonthFromTime, monthOfDay.
  assert (InLeapYear t = 0 ∨ InLeapYear t = 1) as [Hleap | Hleap]
    by (unfold InLeapYear; case_decide; auto);
    rewrite Hleap in *; repeat case_decide; cbn [monthStart] in *; lia.
Qed.

(** The day number is a function of the three fields. *)
Lemma Day_of_fields t :
  Day t = DayFromYear (YearFromTime t)
          + monthStart (InLeapYear t) (MonthFromTime t) + DateFromTime t - 1.
Proof. unfold DateFromTime, DayWithinYear. lia. Qed.

Lemma MakeDay_of_fields t k :
  MakeDay (YearFromTime t) (MonthFromTime t) (DateFromTime t + k) = Day t + k.
Proof.
  unfold MakeDay. pose proof (MonthFromTime_range t) as Hm.
  rewrite Z.div_small, Z.mod_small, Z.add_0_r by lia.
  fold (InLeapYear t). rewrite (Day_of_fields t). lia.
Qed.

Lemma LocalTime_fixed tza t : LocalTime (fixedZone tza) t = t + tza.
Proof. done. Qed.

Lemma UTC_fixed tza local : UTC (fixedZone tza) local = local - tza.
Proof. done. Qed.

Lemma spacedFrom_offset offset changes :
  spacedFrom offset changes → Z.abs offset ≤ msPerDay.
Proof. destruct changes; cbn; tauto. Qed.

Lemma wellSpaced_fixed tza : Z.abs tza ≤ msPerDay → wellSpaced (fixedZone tza).
Proof. intros Htza. by split. Qed.

Lemma shortJumps_fixed tza : shortJumps (fixedZone tza).
Proof. done. Qed.

Lemma offsetFrom_bound offset changes t :
  spacedFrom offset changes → Z.abs (offsetFrom offset changes t) ≤ msPerDay.
Proof.
  revert offset. induction changes as [|[instant next] rest IH]; intros offset Hspaced.
  - by destruct Hspaced.
  - cbn [offsetFrom]. destruct Hspaced as (Hoffset & _ & Hrest).
    case_decide; [done | by apply IH].
Qed.

Lemma offsetOfLocal_bound offset changes local :
  spacedFrom offset changes → Z.abs (offsetOfLocal offset changes local) ≤ msPerDay.
Proof.
  revert offset. induction changes as [|[instant next] rest IH]; intros offset Hspaced.
  - by destruct Hspaced.
  - cbn [offsetOfLocal]. destruct Hspaced as (Hoffset & _ & Hrest).
    case_decide; [done | by apply IH].
Qed.

(** After a transition the clock never shows a time before the one it
    showed right after the transition. *)
Lemma offsetFrom_after offset instant next rest t :
  spacedFrom offset ((instant, next) :: rest) → instant ≤ t →
  instant + next ≤ t + offsetFrom next rest t.
Proof.
  intros (_ & Hgap & Hrest) Ht. destruct rest as [|[later next'] rest]; [cbn; lia |].
  cbn [offsetFrom]. case_decide as Hlater; [lia |].
  pose proof (spacedFrom_offset _ _ Hrest) as Hnext.
  destruct Hrest as (_ & _ & Hrest).
  pose proof (offsetFrom_bound next' rest t Hrest) as Hbound.
  revert Hbound. generalize (offsetFrom next' rest t). unfold msPerDay in *. lia.
Qed.

(** A local time past a transition is read as a time past it. *)
Lemma offsetOfLocal_after offset instant next rest local :
  spacedFrom offset ((instant, next) :: rest) → instant + next ≤ local →
  instant ≤ local - offsetOfLocal next rest local.
Proof.
  intros (_ & Hgap & Hrest) Hlocal. destruct rest as [|[later next'] rest]; [cbn; lia |].
  cbn [offsetOfLocal]. case_decide as Hlater; [lia |].
  pose proof (spacedFrom_offset _ _ Hrest) as Hnext.
  destruct Hrest as (_ & _ & Hrest).
  pose proof (offsetOfLocal_bound next' rest local Hrest) as Hbound.
  revert Hbound. generalize (offsetOfLocal next' rest local). unfold msPerDay in *. lia.
Qed.

Lemma offsetOfLocal_offsetFrom offset changes t :
  spacedFrom offset changes →
  let local := t + offsetFrom offset changes t in
  let back := local - offsetOfLocal offset changes local in
  back + offsetFrom offset changes back = local.
Proof.
  revert offset. induction changes as [|[instant next] rest IH]; intros offset Hspaced.
  - cbn. lia.
  - pose proof (offsetFrom_after _ _ _ _ t Hspaced) as Hafter.
    pose proof (λ local, offsetOfLocal_after _ _ _ _ local Hspaced) as Hback.
    destruct Hspaced as (_ & _ & Hrest). specialize (IH next Hrest).
    cbn [offsetFrom offsetOfLocal] in *. cbn zeta in *.
    destruct (decide (t < instant)) as [Hbefore | Hlater].
    + rewrite decide_True by lia. rewrite decide_True by lia. lia.
    + specialize (Hafter ltac:(lia)).
      revert IH Hafter Hback. generalize (offsetFrom next rest t). intros f IH Hafter Hback.
      destruct (decide (t + f < instant + offset ∨ t + f < instant + next))
        as [Hfirst | Hnot].
      * rewrite decide_True by lia. lia.
      * specialize (Hback (t + f) ltac:(lia)).
        rewrite decide_False by lia. exact IH.
Qed.

(** The local time of a date, read back as a time, is a time with the
    same local time: a local time that the clock shows is never moved. *)
Lemma LocalTime_UTC zone t :
  wellSpaced zone → LocalTime zone (UTC zone (LocalTime zone t)) = LocalTime zone t.
Proof. intros Hzone. by apply offsetOfLocal_offsetFrom. Qed.

(** A local time that the clock never shows, within a transition that
    moves the clock forward, is read as the time that much later. *)
Lemma offsetOfLocal_within jump offset changes local :
  spacedFrom offset changes → jumpsWithinFrom jump offset changes → 0 ≤ jump →
  let back := local - offsetOfLocal offset changes local in
  local ≤ back + offsetFrom offset changes back ≤ local + jump.
Proof.
  intros Hspaced Hjumps Hjump. revert offset Hspaced Hjumps.
  induction changes as [|[instant next] rest IH]; intros offset Hspaced Hjumps.
  - cbn. lia.
  - pose proof (offsetOfLocal_after _ _ _ _ local Hspaced) as Hback.
    pose proof (spacedFrom_offset _ _ Hspaced) as Hoffset.
    destruct Hspaced as (_ & Hgap & Hrest). destruct Hjumps as (Hnext & Hjumps).
    pose proof (spacedFrom_offset _ _ Hrest) as Hbound.
    specialize (IH next Hrest Hjumps).
    cbn [offsetFrom offsetOfLocal] in *. cbn zeta in *.
    destruct (decide (local < instant + offset ∨ local < instant + next))
      as [Hfirst | Hnot].
    + destruct (decide (local < instant + offset)) as [Hbefore | Hskipped].
      * rewrite decide_True by lia. lia.
      * rewrite decide_False by lia.
        assert (offsetFrom next rest (local - offset) = next) as ->.
        { destruct rest as [|[later next'] rest]; [done |].
          cbn [offsetFrom]. apply decide_True. unfold msPerDay in *. lia. }
        lia.
    + specialize (Hback ltac:(lia)). rewrite decide_False by lia. exact IH.
Qed.

Lemma shortJumps_within offset changes :
  shortJumpsFrom offset changes → jumpsWithinFrom (msPerDay - 1) offset changes.
Proof.
  revert offset. induction changes as [|[instant next] rest IH]; intros offset; [done |].
  intros [Hnext Hrest]. split; [lia | by apply IH].
Qed.

Lemma offsetOfLocal_resolves offset changes local :
  spacedFrom offset changes → shortJumpsFrom offset changes →
  let back := local - offsetOfLocal offset changes local in
  local ≤ back + offsetFrom offset changes back < local + msPerDay.
Proof.
  intros Hspaced Hjumps%shortJumps_within.
  pose proof (offsetOfLocal_within _ _ _ local Hspaced Hjumps) as Hnear.
  cbn zeta in *. unfold msPerDay in *. lia.
Qed.

(** Where no transition moves the clock forward by a day or more, the
    midnight that starts a local day is read as a time on that day. *)
Lemma Day_LocalTime_UTC zone day :
  wellSpaced zone → shortJumps zone →
  Day (LocalTime zone (UTC zone (day * msPerDay))) = day.
Proof.
  intros Hspaced Hjumps.
  pose proof (offsetOfLocal_resolves _ _ (day * msPerDay) Hspaced Hjumps) as Hnear.
  cbn zeta in Hnear. unfold LocalTime, UTC.
  revert Hnear.
  generalize (day * msPerDay - offsetOfLocal (standardOffset zone) (transitions zone)
                                 (day * msPerDay)).
  intros back. generalize (offsetFrom (standardOffset zone) (transitions zone) back).
  intros f Hnear. unfold Day. symmetry.
  apply (Z.div_unique _ _ _ (back + f - day * msPerDay)).
  - left. unfold msPerDay in *. lia.
  - lia.
Qed.

Lemma UTC_bound zone local :
  wellSpaced zone → Z.abs (UTC zone local - local) ≤ msPerDay.
Proof.
  intros Hspaced. unfold UTC.
  pose proof (offsetOfLocal_bound _ _ local Hspaced) as Hbound.
  revert Hbound. generalize (offsetOfLocal (standardOffset zone) (transitions zone) local).
  lia.
Qed.

Lemma LocalTime_bound zone t :
  wellSpaced zone → Z.abs (LocalTime zone t - t) ≤ msPerDay.
Proof.
  intros Hspaced. unfold LocalTime.
  pose proof (offsetFrom_bound _ _ t Hspaced) as Hbound.
  revert Hbound. generalize (offsetFrom (standardOffset zone) (transitions zone) t).
  lia.
Qed.


Lemma dateAt_invalid zone offset : dateAt zone None offset = None.
Proof. done. Qed.


End DateFacts.

(** ** Date strings *)

Lemma str_app_inj s1 s2 t1 t2 :
  s1 +:+ t1 = s2 +:+ t2 → String.length t1 = String.length t2 →
  s1 = s2 ∧ t1 = t2.
Proof.
  revert s2. induction s1 as [|c s1 IH]; intros [|c2 s2] Happ Hlen.
  - done.
  - exfalso. apply (f_equal String.length) in Happ.
    rewrite !length_str_app in Happ. simpl in Happ. lia.
  - exfalso. apply (f_equal String.length) in Happ.
    rewrite !length_str_app in Happ. simpl in Happ. lia.
  - injection Happ as -> Happ. destruct (IH s2 Happ Hlen) as [-> ->]. done.
Qed.

Lemma twoDigits_length z : (1 ≤ z ≤ 31)%Z → String.length (twoDigits z) = 2.
Proof.
  intros Hz.
  assert (Forall (λ z, String.length (twoDigits z) = 2) (seqZ 1 31)) as Hall.
  { apply (bool_decide_unpack _). vm_compute. exact I. }
  rewrite Forall_forall in Hall. apply Hall. apply elem_of_seqZ. lia.
Qed.

Lemma NoDup_fmap_inj {A B} (f : A → B) (l : list A) x y :
  NoDup (f <$> l) → x ∈ l → y ∈ l → f x = f y → x = y.
Proof.
  induction l as [|a l IH]; simpl; [by intros _ ?%elem_of_nil |].
  rewrite NoDup_cons, !elem_of_cons. intros [Ha Hnd] [-> | Hx] [-> | Hy] Hf.
  - done.
  - exfalso. apply Ha. rewrite Hf. by apply list_elem_of_fmap_2.
  - exfalso. apply Ha. rewrite <- Hf. by apply list_elem_of_fmap_2.
  - by apply IH.
Qed.

Lemma twoDigits_inj z1 z2 :
  (1 ≤ z1 ≤ 31)%Z → (1 ≤ z2 ≤ 31)%Z → twoDigits z1 = twoDigits z2 → z1 = z2.
Proof.
  intros Hz1 Hz2.
  assert (NoDup (twoDigits <$> seqZ 1 31)) as Hnd.
  { apply (bool_decide_unpack _). vm_compute. exact I. }
  apply (NoDup_fmap_inj twoDigits (seqZ 1 31)); [done | |]; apply elem_of_seqZ; lia.
Qed.

Lemma getLocalDateString_valid zone t :
  getLocalDateString zone (Some t) =
  pretty (JsDate.YearFromTime (JsDate.LocalTime zone t))
  +:+ "-" +:+ twoDigits (JsDate.MonthFromTime (JsDate.LocalTime zone t) + 1)
  +:+ "-" +:+ twoDigits (JsDate.DateFromTime (JsDate.LocalTime zone t)).
Proof. done. Qed.

(** Equal date strings come from the same local day. *)
Lemma getLocalDateString_day zone t1 t2 :
  getLocalDateString zone (Some t1) = getLocalDateString zone (Some t2) →
  JsDate.Day (JsDate.LocalTime zone t1) = JsDate.Day (JsDate.LocalTime zone t2).
Proof.
  rewrite !getLocalDateString_valid. intros Heq.
  pose proof (MonthFromTime_range (JsDate.LocalTime zone t1)) as Hm1.
  pose proof (MonthFromTime_range (JsDate.LocalTime zone t2)) as Hm2.
  pose proof (DateFromTime_range (JsDate.LocalTime zone t1)) as Hd1.
  pose proof (DateFromTime_range (JsDate.LocalTime zone t2)) as Hd2.
  assert (∀ z, (1 ≤ z ≤ 31)%Z → String.length (twoDigits z) = 2) as Hlen
    by apply twoDigits_length.
  apply str_app_inj in Heq as [Hyear Heq];
    [| rewrite !length_str_app, !Hlen by lia; done].
  apply str_app_inj in Heq as [_ Heq];
    [| rewrite !length_str_app, !Hlen by lia; done].
  apply str_app_inj in Heq as [Hmonth Heq];
    [| rewrite !length_str_app, !Hlen by lia; done].
  apply str_app_inj in Heq as [_ Hdate]; [| rewrite !Hlen by lia; done].
  apply (inj pretty) in Hyear.
  apply twoDigits_inj in Hmonth; [| lia | lia].
  apply twoDigits_inj in Hdate; [| lia | lia].
  rewrite (Day_of_fields (JsDate.LocalTime zone t1)), (Day_of_fields (JsDate.LocalTime zone t2)).
  unfold JsDate.InLeapYear. rewrite Hyear, Hdate.
  replace (JsDate.MonthFromTime (JsDate.LocalTime zone t1))
    with (JsDate.MonthFromTime (JsDate.LocalTime zone t2)) by lia.
  done.
Qed.






(** ** The engine *)

Section EngineBuild.

Variable buckets : gmap string (list string).
Hypothesis Hwf : bucketsWf buckets.

Lemma filterM_isSolvable_run items st :
  cachesOk buckets st →
  (∀ word, word ∈ items → 1 ≤ String.length word) →
  ∃ st',
    filterM (λ word, isSolvable buckets (String.length word) word) items st
      = Some (filter (λ word, solvable buckets word = true) items, st')
    ∧ cachesOk buckets st'.
Proof using Hwf.
  revert st. induction items as [|x items IH]; intros st Hok Hlen; simpl.
  - by exists st.
  - run_M.
    destruct (isSolvable_run buckets Hwf (String.length x) x st)
      as (st1 & -> & Hok1 & _); [done | apply Hlen; by left | lia |].
    destruct (IH st1) as (st2 & -> & Hok2); [done | |].
    { intros word Hword. apply Hlen. by right. }
    exists st2. split; [| done].
    rewrite filter_cons. by destruct (solvable buckets x); case_decide.
Qed.

(** From empty caches [isSolvable] answers [solvable]. *)
Lemma isSolvable_fresh word answer st' :
  1 ≤ String.length word →
  isSolvable buckets (String.length word) word emptyState = Some (answer, st') →
  answer = solvable buckets word.
Proof using Hwf.
  intros Hlen Hrun.
  destruct (isSolvable_run buckets Hwf (String.length word) word emptyState)
    as (st1 & Hrun1 & _); [apply cachesOk_empty | done | lia |].
  congruence.
Qed.

End EngineBuild.

Lemma buildEngine_run trimUpper words :
  let dictionary := normalise trimUpper words in
  let buckets := buildBuckets dictionary in
  let sevens :=
    Js.sort (filter (λ word, solvable buckets word = true)
                    (filter (λ word, String.length word = 7) dictionary)) in
  ∃ st,
    cachesOk buckets st
    ∧ buildEngine trimUpper words =
      if decide (length sevens = 0) then Threw NoSolvableWords
      else Returned (mkEngine dictionary sevens buckets st).
Proof.
  intros dictionary buckets sevens. unfold buildEngine.
  fold dictionary. fold buckets.
  destruct (filterM_isSolvable_run buckets (buildBuckets_wf dictionary)
              (filter (λ word, String.length word = 7) dictionary) emptyState)
    as (st & -> & Hok).
  - apply cachesOk_empty.
  - intros word [Hlen _]%list_elem_of_filter. lia.
  - exists st. split; [done |]. fold sevens. by case_decide.
Qed.

Lemma buildEngine_Returned trimUpper words engine :
  buildEngine trimUpper words = Returned engine →
  dictionary engine = normalise trimUpper words
  ∧ engineBuckets engine = buildBuckets (normalise trimUpper words)
  ∧ validSevenLetterWords engine =
      Js.sort (filter (λ word, solvable (engineBuckets engine) word = true)
                 (filter (λ word, String.length word = 7) (dictionary engine)))
  ∧ engineOk engine.
Proof.
  destruct (buildEngine_run trimUpper words) as (st & Hok & ->).
  case_decide as Hempty; [done |]. intros [= <-]. simpl.
  split_and!; [done | done | done |].
  split_and!; simpl; [apply buildBuckets_wf | done |].
  intros Hnil. by rewrite Hnil in Hempty.
Qed.

(** ** The assembler *)

Section AssemblerFacts.

Variable zone : JsDate.Zone.
Variable engine : Engine.
Hypothesis Hengine : engineOk engine.

Lemma startWordFor_chosen dateString :
  ∃ startWord random,
    startWordFor engine dateString = (Some startWord, random)
    ∧ startWord ∈ validSevenLetterWords engine.
Proof using Hengine.
  unfold startWordFor.
  pose proof (mulberry32_unitRange (stringToSeed dateString)) as (Hdouble & Hr0 & Hr1).
  destruct (mulberry32 (stringToSeed dateString)) as [r random].
  simpl in Hdouble, Hr0, Hr1.
  destruct Hengine as (_ & _ & Hsome).
  pose proof (floorTimes_range r (length (validSevenLetterWords engine))
                Hdouble Hr0 Hr1) as Hj.
  destruct (validSevenLetterWords engine) as [|w ws] eqn:Hws; [done |].
  rewrite <- Hws in *.
  assert (0 < length (validSevenLetterWords engine)) as Hpos by (rewrite Hws; simpl; lia).
  specialize (Hj Hpos). case_decide; [| lia].
  destruct (lookup_lt_is_Some_2 (validSevenLetterWords engine)
              (Z.to_nat (floorTimes r (length (validSevenLetterWords engine)))))
    as [startWord Hstart]; [lia |].
  exists startWord, random. rewrite Hstart. split; [done |].
  by eapply list_elem_of_lookup_2.
Qed.

(** [buildChain] has a result for every start word. *)
Lemma buildChain_returns startWord random :
  ∃ found random',
    chainFrom (engineBuckets engine) mulberry32 (S (String.length startWord))
              startWord random = Some (found, random')
    ∧ ∀ st, cachesOk (engineBuckets engine) st →
        ∃ st', buildChain (engineBuckets engine) mulberry32 startWord random st
               = Some ((found, random'), st')
               ∧ cachesOk (engineBuckets engine) st'.
Proof using Hengine.
  destruct Hengine as (Hwf & _ & _).
  destruct (chainFrom_found (engineBuckets engine) Hwf mulberry32 mulberry32_unitRange
              (S (String.length startWord)) startWord random)
    as (found & random' & Hfound & _); [lia | lia |].
  exists found, random'. split; [done |]. intros st Hok.
  pose proof (dfs_run (engineBuckets engine) mulberry32 (S (String.length startWord))
                startWord random st Hok) as Hrun.
  unfold follows in Hrun. rewrite Hfound in Hrun.
  destruct Hrun as (st' & Hrun & Hok' & _). by exists st'.
Qed.

(** One turn of the loop of [generatePuzzles] does what [puzzleAt] says. *)
Lemma generatePuzzle_run startDate offset st :
  cachesOk (engineBuckets engine) st →
  match puzzleAt zone startDate engine offset with
  | Returned puzzle =>
      ∃ st', generatePuzzle zone startDate engine offset st = Returned (puzzle, st')
             ∧ cachesOk (engineBuckets engine) st'
  | Threw e => generatePuzzle zone startDate engine offset st = Threw e
  | Unfinished => generatePuzzle zone startDate engine offset st = Unfinished
  end.
Proof using Hengine.
  intros Hok. unfold puzzleAt, generatePuzzle, startWordFor.
  fold (dateAt zone startDate offset). fold (dateStringAt zone startDate offset).
  destruct (mulberry32 (stringToSeed (dateStringAt zone startDate offset)))
    as [r random].
  destruct (if decide (0 ≤ floorTimes r (length (validSevenLetterWords engine)))%Z
            then _ else None) as [startWord|]; [| done].
  destruct (buildChain_returns startWord random) as (found & random' & -> & Hrun).
  destruct (Hrun st Hok) as (st' & -> & Hok').
  destruct found as [[|w7 [|w6 [|w5 [|w4 [|w3 [|w2 rest]]]]]]|]; try done.
  by exists st'.
Qed.

Lemma generateFrom_run startDate count offset puzzles st :
  cachesOk (engineBuckets engine) st →
  generateFrom zone startDate engine count offset puzzles st
  = puzzlesFrom zone startDate engine count offset puzzles.
Proof using Hengine.
  revert offset puzzles st.
  induction count as [|count IH]; intros offset puzzles st Hok;
    cbn [generateFrom puzzlesFrom]; [done |].
  pose proof (generatePuzzle_run startDate offset st Hok) as Hturn.
  destruct (puzzleAt zone startDate engine offset) as [puzzle | e |].
  - destruct Hturn as (st' & -> & Hok'). by apply IH.
  - by rewrite Hturn.
  - by rewrite Hturn.
Qed.

Lemma generatePuzzles_run startDate days :
  generatePuzzles zone startDate days engine
  = puzzlesFrom zone startDate engine days 0 [].
Proof using Hengine.
  unfold generatePuzzles. apply generateFrom_run. apply Hengine.
Qed.

End AssemblerFacts.

Section LoopFacts.

Variable zone : JsDate.Zone.
Variable engine : Engine.
Variable startDate : option Z.
Hypothesis Hengine : engineOk engine.

(** The parts of a turn of the loop: the start word, the result of
    [buildChain], and what becomes of it. *)
Lemma puzzleAt_parts offset :
  let dateString := dateStringAt zone startDate offset in
  ∃ startWord random found random',
    startWordFor engine dateString = (Some startWord, random)
    ∧ startWord ∈ validSevenLetterWords engine
    ∧ chainFrom (engineBuckets engine) mulberry32 (S (String.length startWord))
                startWord random = Some (found, random')
    ∧ (∀ st, cachesOk (engineBuckets engine) st →
         ∃ st', buildChain (engineBuckets engine) mulberry32 startWord random st
                = Some ((found, random'), st'))
    ∧ puzzleAt zone startDate engine offset =
      match found with
      | Some [w7; w6; w5; w4; w3] =>
        Returned {| date := dateString;
                    startWord := startWord;
                    words := [w7; w6; w5; w4; w3];
                    solution := {| six := w6; five := w5; four := w4; three := w3 |} |}
      | _ => Threw (CouldNotBuildChain dateString startWord)
      end.
Proof using Hengine.
  intros dateString. unfold puzzleAt. fold dateString.
  destruct (startWordFor_chosen engine Hengine dateString)
    as (startWord & random & Hstart & Hin).
  destruct (buildChain_returns engine Hengine startWord random)
    as (found & random' & Hfound & Hrun).
  exists startWord, random, found, random'. rewrite Hstart, Hfound.
  split_and!; [done | done | done | |].
  - intros st Hok. destruct (Hrun st Hok) as (st' & Hst' & _). by exists st'.
  - by destruct found as [[|w7 [|w6 [|w5 [|w4 [|w3 [|w2 rest]]]]]]|].
Qed.

Lemma puzzleAt_finished offset : puzzleAt zone startDate engine offset ≠ Unfinished.
Proof using Hengine.
  destruct (puzzleAt_parts offset) as (w & r & found & r' & _ & _ & _ & _ & ->).
  by destruct found as [[|w7 [|w6 [|w5 [|w4 [|w3 [|w2 rest]]]]]]|].
Qed.

Lemma puzzleAt_Threw offset e :
  puzzleAt zone startDate engine offset = Threw e ↔
  ∃ startWord,
    e = CouldNotBuildChain (dateStringAt zone startDate offset) startWord
    ∧ noFullChainAt zone startDate engine offset startWord.
Proof using Hengine.
  destruct (puzzleAt_parts offset)
    as (w & r & found & r' & Hstart & _ & _ & Hrun & ->).
  split.
  - intros Hthrew. exists w.
    assert (e = CouldNotBuildChain (dateStringAt zone startDate offset) w
            ∧ ∀ chain, found = Some chain → length chain ≠ 5) as [-> Hlen].
    { destruct found as [[|w7 [|w6 [|w5 [|w4 [|w3 [|w2 rest]]]]]]|];
        simplify_eq; (split; [done |]); intros chain [= <-]; simpl; lia. }
    split; [done |]. by exists r, found, r'.
  - intros (startWord & -> & r2 & found2 & r2' & Hstart2 & Hrun2 & Hlen).
    rewrite Hstart in Hstart2. injection Hstart2 as <- <-.
    destruct Hengine as (_ & Hok & _).
    destruct (Hrun _ Hok) as (st1 & Hrun1). destruct (Hrun2 _ Hok) as (st2 & Hrun2').
    rewrite Hrun1 in Hrun2'. injection Hrun2' as <- <- <-.
    destruct found as [[|w7 [|w6 [|w5 [|w4 [|w3 [|w2 rest]]]]]]|]; try done.
    by destruct (Hlen _ eq_refl).
Qed.

Lemma puzzleAt_date offset puzzle :
  puzzleAt zone startDate engine offset = Returned puzzle →
  date puzzle = dateStringAt zone startDate offset.
Proof.
  unfold puzzleAt. destruct (startWordFor _ _) as [[w|] r]; [| done].
  destruct (chainFrom _ _ _ _ _) as [[found r']|]; [| done].
  destruct found as [[|w7 [|w6 [|w5 [|w4 [|w3 [|w2 rest]]]]]]|]; try done.
  by intros [= <-].
Qed.

(** The loop either goes through all its turns, or stops at the first
    turn that throws. *)
Lemma puzzlesFrom_cases count offset puzzles :
  (∃ new,
     puzzlesFrom zone startDate engine count offset puzzles = Returned (puzzles ++ new)
     ∧ Forall2 (λ k puzzle, puzzleAt zone startDate engine k = Returned puzzle)
               (seq offset count) new)
  ∨ (∃ k e,
       offset ≤ k < offset + count
       ∧ puzzlesFrom zone startDate engine count offset puzzles = Threw e
       ∧ puzzleAt zone startDate engine k = Threw e).
Proof using Hengine.
  revert offset puzzles.
  induction count as [|count IH]; intros offset puzzles; cbn [puzzlesFrom seq].
  - left. exists []. rewrite app_nil_r. split; [done | constructor].
  - destruct (puzzleAt zone startDate engine offset) as [puzzle | e |] eqn:Hturn.
    + destruct (IH (S offset) (puzzles ++ [puzzle]))
        as [(new & -> & Hall) | (k & e & Hk & -> & Hthrew)].
      * left. exists (puzzle :: new). rewrite <- app_assoc. split; [done |].
        by constructor.
      * right. exists k, e. split_and!; [lia | lia | done | done].
    + right. exists offset, e. split_and!; [lia | lia | done | done].
    + by destruct (puzzleAt_finished offset).
Qed.

Lemma puzzles_dates offsets puzzles :
  Forall2 (λ k puzzle, puzzleAt zone startDate engine k = Returned puzzle)
          offsets puzzles →
  date <$> puzzles = dateStringAt zone startDate <$> offsets.
Proof.
  induction 1 as [|k puzzle offsets puzzles Hturn _ IH]; simpl; [done |].
  f_equal; [by apply puzzleAt_date | done].
Qed.

End LoopFacts.

(** In an engine that [buildEngine] returned every turn of the loop makes
    its record. *)
Lemma puzzleAt_built trimUpper zone words engine startDate offset :
  buildEngine trimUpper words = Returned engine →
  ∃ puzzle, puzzleAt zone startDate engine offset = Returned puzzle.
Proof.
  intros (_ & Hbuckets & Hsevens & Hok)%buildEngine_Returned.
  destruct (puzzleAt_parts zone engine startDate Hok offset)
    as (w & r & found & r' & _ & Hin & Hfound & _ & ->).
  rewrite Hsevens, sort_elem in Hin.
  apply list_elem_of_filter in Hin as [Hsolv [Hlen _]%list_elem_of_filter].
  destruct Hok as (Hwf & _ & _).
  destruct (chainFrom_found (engineBuckets engine) Hwf mulberry32 mulberry32_unitRange
              (S (String.length w)) w r) as (found2 & r2 & Hfound2 & Hchain);
    [lia | lia |].
  rewrite Hfound in Hfound2. injection Hfound2 as <- <-.
  destruct found as [chain|]; [| congruence].
  destruct (Descent_of_seven _ _ _ Hwf Hchain Hlen) as (w6 & w5 & w4 & w3 & -> & _).
  eauto.
Qed.

Lemma generatePuzzles_built trimUpper zone words engine startDate days :
  buildEngine trimUpper words = Returned engine →
  ∃ puzzles,
    generatePuzzles zone startDate days engine = Returned puzzles
    ∧ Forall2 (λ k puzzle, puzzleAt zone startDate engine k = Returned puzzle)
              (seq 0 days) puzzles.
Proof.
  intros Hbuilt.
  pose proof (buildEngine_Returned _ _ _ Hbuilt) as (_ & _ & _ & Hok).
  rewrite (generatePuzzles_run zone engine Hok).
  destruct (puzzlesFrom_cases zone engine startDate Hok days 0 [])
    as [(new & -> & Hall) | (k & e & _ & _ & Hthrew)].
  - by exists new.
  - destruct (puzzleAt_built trimUpper zone words engine startDate k Hbuilt) as [p Hp].
    congruence.
Qed.




(** ** The seed *)

Lemma stringToSeed_from chars seed :
  fold_left (λ seed c, Int32.toUint32 (seed * 31 + charCode c)) chars seed
  = ((seed * 31 ^ Z.of_nat (length chars) + polynomialOf chars) mod 2 ^ 32)%Z
    ∨ chars = [].
Proof.
  revert seed. induction chars as [|c chars IH]; intros seed; [by right |].
  left. simpl fold_left. destruct (IH (Int32.toUint32 (seed * 31 + charCode c)))
    as [-> | ->].
  - unfold Int32.toUint32. cbn [polynomialOf length].
    rewrite Nat2Z.inj_succ, Z.pow_succ_r by lia.
    rewrite Z.add_assoc, <- (Zplus_mod_idemp_l (_ * _)), Zmult_mod_idemp_l.
    rewrite Zplus_mod_idemp_l. f_equal. lia.
  - simpl. unfold Int32.toUint32. f_equal. lia.
Qed.

Lemma stringToSeed_polynomial value :
  stringToSeed value = (polynomialHash value mod 2 ^ 32)%Z.
Proof.
  unfold stringToSeed, polynomialHash.
  destruct (stringToSeed_from (Js.spread value) 0) as [-> | ->]; [| done].
  f_equal.
Qed.

(** ** What [generatePuzzles] does for one date *)


Lemma validSevenLetterWords_elem trimUpper words engine word :
  buildEngine trimUpper words = Returned engine →
  word ∈ validSevenLetterWords engine ↔
  word ∈ normalise trimUpper words ∧ String.length word = 7
  ∧ ∃ st, isSolvable (engineBuckets engine) 7 word emptyState = Some (true, st).
Proof.
  intros (Hdict & Hbuckets & -> & Hwf & _)%buildEngine_Returned.
  rewrite sort_elem, list_elem_of_filter, list_elem_of_filter, Hdict.
  split.
  - intros (Hsolv & Hlen & Hin). split_and!; [done | done |].
    destruct (isSolvable_run _ Hwf 7 word emptyState) as (st & Hrun & _);
      [apply cachesOk_empty | lia | lia |].
    exists st. by rewrite Hrun, Hsolv.
  - intros (Hin & Hlen & st & Hrun). split_and!; [| done | done].
    symmetry. eapply isSolvable_fresh; [done | lia |]. by rewrite Hlen.
Qed.



(** ** Failures *)

Lemma buildEngine_no_words trimUpper words :
  (¬ ∃ word, word ∈ normalise trimUpper words ∧ String.length word = 7
             ∧ ∃ st, isSolvable (buildBuckets (normalise trimUpper words)) 7 word
                                emptyState = Some (true, st)) →
  buildEngine trimUpper words = Threw NoSolvableWords.
Proof.
  intros Hnone.
  destruct (buildEngine trimUpper words) as [engine | e |] eqn:Hbuilt.
  - exfalso. apply Hnone.
    pose proof (buildEngine_Returned _ _ _ Hbuilt) as (_ & Hbuckets & _ & _ & _ & Hsome).
    destruct (validSevenLetterWords engine) as [|word rest] eqn:Hwords; [done |].
    exists word. rewrite <- Hbuckets.
    apply (validSevenLetterWords_elem trimUpper words engine word Hbuilt).
    rewrite Hwords. by left.
  - destruct (buildEngine_run trimUpper words) as (st & _ & Hrun).
    rewrite Hrun in Hbuilt. by case_decide.
  - destruct (buildEngine_run trimUpper words) as (st & _ & Hrun).
    rewrite Hrun in Hbuilt. by case_decide.
Qed.

Lemma buildEngine_some_word trimUpper words word st :
  word ∈ normalise trimUpper words → String.length word = 7 →
  isSolvable (buildBuckets (normalise trimUpper words)) 7 word emptyState
    = Some (true, st) →
  ∃ engine, buildEngine trimUpper words = Returned engine ∧ engineOk engine.
Proof.
  intros Hin Hlen Hsolvable.
  destruct (buildEngine_run trimUpper words) as (st1 & _ & Hrun).
  case_decide as Hempty.
  - exfalso. apply length_zero_iff_nil in Hempty.
    assert (word ∈ @nil string) as Hword; [| by apply elem_of_nil in Hword].
    rewrite <- Hempty, sort_elem, !list_elem_of_filter. split_and!; [| done | done].
    symmetry. eapply isSolvable_fresh; [apply buildBuckets_wf | lia |].
    by rewrite Hlen.
  - eexists. split; [done |]. by eapply buildEngine_Returned.
Qed.

(** C8.  [buildEngine] throws when no seven-letter word of the normalised
    dictionary is solvable, and then the run stops there, before any date;
    otherwise it returns an engine.  With an engine, [generatePuzzles]
    throws exactly when, for the start word of some date asked for,
    [buildChain] returns no chain or a chain that has not five words; the
    error names that date and word, and no records are returned.  When
    there is no such date it returns one record per day.  It throws for no
    other reason. *)
Theorem generation_failures trimUpper zone words startDate days :
  let dictionary := normalise trimUpper words in
  let solvableSeven word :=
    word ∈ dictionary ∧ String.length word = 7
    ∧ ∃ st, isSolvable (buildBuckets dictionary) 7 word emptyState = Some (true, st) in
  ((¬ ∃ word, solvableSeven word) →
     buildEngine trimUpper words = Threw NoSolvableWords
     ∧ generate trimUpper zone words startDate days = Threw NoSolvableWords)
  ∧ ((∃ word, solvableSeven word) →
     ∃ engine, buildEngine trimUpper words = Returned engine ∧ engineOk engine
               ∧ generate trimUpper zone words startDate days
                 = generatePuzzles zone startDate days engine)
  ∧ ∀ engine, engineOk engine →
      (∀ e, generatePuzzles zone startDate days engine = Threw e →
         ∃ offset startWord,
           offset < days
           ∧ e = CouldNotBuildChain (dateStringAt zone startDate offset) startWord
           ∧ noFullChainAt zone startDate engine offset startWord)
      ∧ ((∃ offset startWord,
            offset < days ∧ noFullChainAt zone startDate engine offset startWord) →
         ∃ e, generatePuzzles zone startDate days engine = Threw e)
      ∧ ((¬ ∃ offset startWord,
            offset < days ∧ noFullChainAt zone startDate engine offset startWord) →
         ∃ puzzles, generatePuzzles zone startDate days engine = Returned puzzles
                    ∧ length puzzles = days).
Proof.
  intros dictionary solvableSeven. split_and!.
  - intros Hnone. pose proof (buildEngine_no_words trimUpper words Hnone) as Hthrew.
    split; [done |]. unfold generate. by rewrite Hthrew.
  - intros (word & Hin & Hlen & st & Hsolvable).
    destruct (buildEngine_some_word trimUpper words word st Hin Hlen Hsolvable)
      as (engine & Hbuilt & Hok).
    exists engine. split_and!; [done | done |]. unfold generate. by rewrite Hbuilt.
  - intros engine Hok. rewrite (generatePuzzles_run zone engine Hok).
    pose proof (puzzlesFrom_cases zone engine startDate Hok days 0 []) as Hcases.
    split_and!.
    + intros e Hthrew.
      destruct Hcases as [(new & Hrun & _) | (k & e' & Hk & Hrun & Hturn)];
        [congruence |].
      assert (e' = e) as -> by congruence.
      apply (puzzleAt_Threw zone engine startDate Hok) in Hturn
        as (startWord & -> & Hbad).
      exists k, startWord. split_and!; [lia | done | done].
    + intros (offset & startWord & Hoffset & Hbad).
      destruct Hcases as [(new & _ & Hall) | (k & e & _ & Hrun & _)]; [| eauto].
      exfalso.
      destruct (Forall2_lookup_l _ _ _ offset offset Hall) as (puzzle & _ & Hturn).
      { by apply lookup_seq_lt. }
      assert (puzzleAt zone startDate engine offset
              = Threw (CouldNotBuildChain (dateStringAt zone startDate offset) startWord))
        as Hthrew by (apply (puzzleAt_Threw zone engine startDate Hok); eauto).
      congruence.
    + intros Hgood.
      destruct Hcases as [(new & Hrun & Hall) | (k & e & Hk & _ & Hturn)].
      * exists new. split; [done |].
        apply Forall2_length in Hall. by rewrite length_seq in Hall.
      * exfalso. apply Hgood.
        apply (puzzleAt_Threw zone engine startDate Hok) in Hturn
          as (startWord & _ & Hbad).
        exists k, startWord. split; [lia | done].
Qed.

Lemma generation_failures_witness :
  let lonely := mkEngine ["BANANAS"] ["BANANAS"] (buildBuckets ["BANANAS"]) emptyState in
  generate trimUpperAscii (JsDate.fixedZone 0) [JsString "banana"; JsOther] (Some 1704067200000%Z) 3
    = Threw NoSolvableWords
  ∧ engineOk lonely
  ∧ generatePuzzles (JsDate.fixedZone 0) (Some 1704067200000%Z) 3 lonely
    = Threw (CouldNotBuildChain "2024-01-01" "BANANAS")
  ∧ ∃ offset, offset < 3
      ∧ noFullChainAt (JsDate.fixedZone 0) (Some 1704067200000%Z) lonely offset "BANANAS".
Proof.
  intros lonely.
  pose proof (generation_failures trimUpperAscii (JsDate.fixedZone 0) [JsString "banana"; JsOther]
                (Some 1704067200000%Z) 3) as (Hbuild & _ & Hloop).
  assert (engineOk lonely) as Hok.
  { split_and!; [apply buildBuckets_wf | | done].
    split; intros ? ? Hlook; simpl in Hlook; by rewrite lookup_empty in Hlook. }
  assert (generatePuzzles (JsDate.fixedZone 0) (Some 1704067200000%Z) 3 lonely
          = Threw (CouldNotBuildChain "2024-01-01" "BANANAS")) as Hthrew
    by (vm_compute; reflexivity).
  split_and!; [| exact Hok | exact Hthrew |].
  - apply Hbuild. intros (word & Hin & Hlen & _).
    apply list_elem_of_In in Hin. vm_compute in Hin.
    destruct Hin as [<- | []]. vm_compute in Hlen. discriminate Hlen.
  - destruct (Hloop lonely Hok) as (Hwhy & _).
    destruct (Hwhy _ Hthrew) as (offset & startWord & Hoffset & Herror & Hbad).
    exists offset. split; [exact Hoffset |].
    apply (f_equal (λ e, match e with
                         | CouldNotBuildChain _ word => word
                         | _ => ""
                         end)) in Herror.
    cbn beta iota in Herror. by rewrite Herror.
Defined.

(** * Further properties *)

(** ** Signatures and anagrams *)

Lemma char_le_codes a b : Js.char_le a b ↔ (N_of_ascii a ≤ N_of_ascii b)%N.
Proof.
  unfold Js.char_le, Ascii.leb, Ascii.compare.
  destruct (N.compare_spec (N_of_ascii a) (N_of_ascii b)); simpl; split; try done; lia.
Qed.

#[local] Instance char_le_trans : Transitive Js.char_le.
Proof. intros a b c. rewrite !char_le_codes. lia. Qed.

#[local] Instance char_le_antisymm : AntiSymm (=) Js.char_le.
Proof.
  intros a b Hab Hba. apply Ascii.leb_antisym; by apply Is_true_true.
Qed.

#[local] Instance char_le_total : Total Js.char_le.
Proof. intros a b. rewrite !char_le_codes. lia. Qed.

Lemma spread_join chars : Js.spread (Js.join chars) = chars.
Proof. apply String.list_ascii_of_string_of_list_ascii. Qed.

Lemma join_spread s : Js.join (Js.spread s) = s.
Proof. apply String.string_of_list_ascii_of_string. Qed.

Lemma spread_app s t : Js.spread (s +:+ t) = Js.spread s ++ Js.spread t.
Proof.
  induction s as [|c s IH]; [done |]. unfold Js.spread in *.
  change (String c s +:+ t) with (String c (s +:+ t)). simpl. by rewrite IH.
Qed.

Lemma spread_sortedLetters word :
  Js.spread (sortedLetters word) = Js.sort_chars (Js.spread word).
Proof. apply spread_join. Qed.

Lemma sort_chars_unique chars sorted :
  Sorted Js.char_le sorted → sorted ≡ₚ chars → Js.sort_chars chars = sorted.
Proof.
  intros Hsorted Hperm. apply (Sorted_unique Js.char_le).
  - apply (Sorted_merge_sort Js.char_le).
  - done.
  - unfold Js.sort_chars. by rewrite merge_sort_Permutation.
Qed.

Lemma sortedLetters_sorted word :
  Sorted Js.char_le (Js.spread (sortedLetters word))
  ∧ Js.spread (sortedLetters word) ≡ₚ Js.spread word.
Proof.
  rewrite spread_sortedLetters. split.
  - apply (Sorted_merge_sort Js.char_le).
  - apply merge_sort_Permutation.
Qed.

(** X1.  The signature of a word is its characters in ascending order of
    their codes, and two words have the same signature exactly when one
    is a rearrangement of the characters of the other. *)
Theorem sortedLetters_anagrams word1 word2 :
  Sorted Js.char_le (Js.spread (sortedLetters word1))
  ∧ Js.spread (sortedLetters word1) ≡ₚ Js.spread word1
  ∧ (sortedLetters word1 = sortedLetters word2 ↔
     Js.spread word1 ≡ₚ Js.spread word2).
Proof.
  destruct (sortedLetters_sorted word1) as [Hsorted Hperm1].
  split_and!; [exact Hsorted | exact Hperm1 |]. clear Hsorted Hperm1.
  split.
  - intros Hsame. apply (f_equal Js.spread) in Hsame.
    rewrite !spread_sortedLetters in Hsame. unfold Js.sort_chars in Hsame.
    by rewrite <- (merge_sort_Permutation Js.char_le (Js.spread word1)), Hsame,
      merge_sort_Permutation.
  - intros Hperm. unfold sortedLetters. f_equal.
    apply sort_chars_unique.
    + apply (Sorted_merge_sort Js.char_le).
    + unfold Js.sort_chars. by rewrite merge_sort_Permutation.
Qed.

(** ** Reachability as a relation on letters *)

Lemma spread_slice_to i s : Js.spread (Js.slice_to i s) = take i (Js.spread s).
Proof. revert s. induction i as [|i IH]; intros [|c s]; cbn; by rewrite ?IH. Qed.

Lemma spread_slice_from i s : Js.spread (Js.slice_from i s) = drop i (Js.spread s).
Proof. revert s. induction i as [|i IH]; intros [|c s]; cbn; by rewrite ?IH. Qed.

Lemma spread_deleteAt i s : Js.spread (deleteAt i s) = delete i (Js.spread s).
Proof.
  unfold deleteAt.
  by rewrite spread_app, spread_slice_to, spread_slice_from, delete_take_drop.
Qed.

Lemma spread_inj s t : Js.spread s = Js.spread t → s = t.
Proof. intros Heq. by rewrite <- (join_spread s), Heq, join_spread. Qed.

Lemma StronglySorted_delete {A} (R : relation A) l i :
  StronglySorted R l → StronglySorted R (delete i l).
Proof.
  intros Hl. revert i. induction Hl as [|x l Hl IH Hx]; intros [|i]; simpl.
  - constructor.
  - constructor.
  - done.
  - constructor; [apply IH | by apply Forall_delete].
Qed.

(** Taking one character out of the signature of the longer word gives
    the signature of the shorter one exactly when the longer word is a
    rearrangement of the shorter one with one more character. *)
Lemma oneLetterRemoved_letters shorter longer :
  oneLetterRemoved shorter longer ↔
  ∃ c, Js.spread longer ≡ₚ c :: Js.spread shorter.
Proof.
  unfold oneLetterRemoved. split.
  - intros (i & Hi & Hsig).
    rewrite <- (length_spread (sortedLetters longer)) in Hi.
    destruct (lookup_lt_is_Some_2 _ _ Hi) as [c Hc]. exists c.
    apply (f_equal Js.spread) in Hsig. rewrite spread_deleteAt in Hsig.
    destruct (sortedLetters_sorted longer) as (_ & Hlong).
    destruct (sortedLetters_sorted shorter) as (_ & Hshort).
    by rewrite <- Hlong, (delete_Permutation _ _ _ Hc), <- Hsig, Hshort.
  - intros (c & Hperm).
    destruct (sortedLetters_sorted longer) as (Hsorted & Hlong).
    assert (c ∈ Js.spread (sortedLetters longer)) as Hin.
    { rewrite Hlong, Hperm. by left. }
    apply list_elem_of_lookup_1 in Hin as [i Hi]. exists i. split.
    { rewrite <- length_spread. by eapply lookup_lt_Some. }
    apply spread_inj. rewrite spread_deleteAt, (spread_sortedLetters shorter).
    apply sort_chars_unique.
    + apply StronglySorted_Sorted, StronglySorted_delete.
      by apply (Sorted_StronglySorted Js.char_le).
    + apply (Permutation_cons_inv (a := c)).
      by rewrite <- (delete_Permutation _ _ _ Hi), Hlong.
Qed.

Lemma nextWords_dictionary dictionary word x :
  x ∈ nextWords (buildBuckets dictionary) word ↔
  3 < String.length word ∧ x ∈ dictionary ∧ oneLetterRemoved x word.
Proof.
  unfold nextWords. destruct (Nat.leb_spec (String.length word) 3) as [Hlen | Hlen].
  - split; [by intros ?%elem_of_nil | lia].
  - rewrite computeNextWords_elem. unfold oneLetterRemoved.
    setoid_rewrite bucketWords_buildBuckets. setoid_rewrite list_elem_of_filter.
    split.
    + intros (i & Hi & Hsig & Hin). split_and!; [done | done |]. by exists i.
    + intros (_ & Hin & i & Hi & Hsig). by exists i.
Qed.

(** X2.  The array that [getNextWords] returns for a word holds exactly
    the dictionary words whose letters are the letters of that word with
    one letter left out, in any arrangement, provided the word has more
    than three letters; for shorter words it holds nothing. *)
Theorem getNextWords_letters trimUpper words word st :
  let dictionary := normalise trimUpper words in
  let buckets := buildBuckets dictionary in
  cachesOk buckets st →
  ∃ loc st' result,
    getNextWords buckets word st = Some (loc, st')
    ∧ heap st' !! loc = Some result
    ∧ ∀ x, x ∈ result ↔
           3 < String.length word ∧ x ∈ dictionary
           ∧ ∃ c, Js.spread word ≡ₚ c :: Js.spread x.
Proof.
  intros dictionary buckets Hok.
  destruct (getNextWords_run buckets word st Hok) as (loc & st' & Hrun & Hloc & _).
  exists loc, st', (nextWords buckets word). split_and!; [done | done |].
  intros x. unfold buckets. rewrite nextWords_dictionary.
  by rewrite oneLetterRemoved_letters.
Qed.

Lemma getNextWords_letters_witness :
  let dictionary := normalise trimUpperAscii bananas in
  let buckets := buildBuckets dictionary in
  cachesOk buckets emptyState
  ∧ ∃ loc st' result,
      getNextWords buckets "BANANA" emptyState = Some (loc, st')
      ∧ heap st' !! loc = Some result
      ∧ ("BANAN" ∈ result).
Proof.
  intros dictionary buckets.
  assert (cachesOk buckets emptyState) as Hok.
  { split; intros ? ? Hlook; simpl in Hlook; by rewrite lookup_empty in Hlook. }
  split; [exact Hok |].
  destruct (getNextWords_letters trimUpperAscii bananas "BANANA" emptyState Hok)
    as (loc & st' & result & Hrun & Hloc & Hresult).
  exists loc, st', result. split_and!; [exact Hrun | exact Hloc |].
  apply Hresult. split_and!.
  - vm_compute. lia.
  - apply (bool_decide_unpack _). vm_compute. exact I.
  - exists "A"%char. apply (bool_decide_unpack _). vm_compute. exact I.
Defined.

(** X3.  The bucket index has a key exactly for the signatures of the
    dictionary words; no bucket is empty or lists a word twice; and a
    dictionary word is in the bucket of its own signature and in no
    other. *)
Theorem buckets_partition trimUpper words :
  let dictionary := normalise trimUpper words in
  let buckets := buildBuckets dictionary in
  (∀ signature,
     is_Some (buckets !! signature) ↔
     ∃ word, word ∈ dictionary ∧ sortedLetters word = signature)
  ∧ (∀ signature bucket,
       buckets !! signature = Some bucket → bucket ≠ [] ∧ NoDup bucket)
  ∧ (∀ word signature,
       word ∈ dictionary →
       (word ∈ bucketWords buckets signature ↔ signature = sortedLetters word)).
Proof.
  intros dictionary buckets. split_and!.
  - intros signature. unfold buckets. rewrite buildBuckets_lookup.
    destruct (filter _ dictionary) as [|w ws] eqn:Hfilter.
    + split; [by intros [? ?] |]. intros (word & Hin & Hsig).
      assert (word ∈ filter (λ word, sortedLetters word = signature) dictionary)
        as Hword by by apply list_elem_of_filter.
      rewrite Hfilter in Hword. by apply elem_of_nil in Hword.
    + split; [| eauto]. intros _. exists w.
      assert (w ∈ filter (λ word, sortedLetters word = signature) dictionary)
        as Hw by (rewrite Hfilter; by left).
      apply list_elem_of_filter in Hw. tauto.
  - intros signature bucket. unfold buckets. rewrite buildBuckets_lookup.
    destruct (filter _ dictionary) as [|w ws] eqn:Hfilter; [done |].
    intros [= <-]. split; [done |]. rewrite <- Hfilter.
    apply NoDup_filter, normalise_NoDup.
  - intros word signature Hin. unfold buckets.
    rewrite bucketWords_buildBuckets, list_elem_of_filter. split; [by intros [<- _] |].
    by intros ->.
Qed.

(** ** The memo of [isSolvable] *)

(** X4.  When a call of [isSolvable] on a word that has not exactly
    three letters returns, the answer is in the memo afterwards, and a
    further call returns the same answer at once and changes nothing. *)
Theorem isSolvable_memoised buckets fuel word st answer st' :
  isSolvable buckets fuel word st = Some (answer, st') →
  String.length word ≠ 3 →
  solvableMemo st' !! word = Some answer
  ∧ ∀ fuel2, isSolvable buckets (S fuel2) word st' = Some (answer, st').
Proof.
  intros Hrun Hlen.
  assert (solvableMemo st' !! word = Some answer) as Hmemo.
  { destruct fuel as [|fuel]; [done |]. simpl in Hrun.
    destruct (Nat.eqb_spec (String.length word) 3); [done |].
    destruct (solvableMemo st !! word) as [known|] eqn:Hknown.
    - by injection Hrun as <- <-.
    - revert Hrun. run_M.
      destruct (getNextWords buckets word st) as [[loc st1]|]; [| done].
      destruct (heap st1 !! loc) as [nextWords|]; [| done].
      destruct (forFirst _ nextWords st1) as [[found st2]|]; [| done].
      intros [= <- <-]. simpl. apply lookup_insert_eq. }
  split; [done |]. intros fuel2. simpl.
  destruct (Nat.eqb_spec (String.length word) 3); [done |]. by rewrite Hmemo.
Qed.

Lemma isSolvable_memoised_witness :
  let buckets := buildBuckets (normalise trimUpperAscii bananas) in
  ∃ st',
    isSolvable buckets 7 "BANANAS" emptyState = Some (true, st')
    ∧ String.length "BANANAS" ≠ 3
    ∧ solvableMemo st' !! "BANANAS" = Some true
    ∧ isSolvable buckets 1 "BANANAS" st' = Some (true, st').
Proof.
  intros buckets.
  assert (∃ st', isSolvable buckets 7 "BANANAS" emptyState = Some (true, st'))
    as [st' Hrun] by (eexists; vm_compute; reflexivity).
  assert (String.length "BANANAS" ≠ 3) as Hlen by (vm_compute; lia).
  exists st'. split_and!; [exact Hrun | exact Hlen | |];
    destruct (isSolvable_memoised buckets 7 "BANANAS" emptyState true st' Hrun Hlen)
      as [Hmemo Hagain]; [exact Hmemo | exact (Hagain 0)].
Defined.

(** X5.  In an engine built from a word list, [isSolvable] answers
    [false] for every string shorter than three characters and for every
    string longer than eight: nothing in the dictionary is one letter
    shorter than such a string. *)
Theorem isSolvable_out_of_range trimUpper words word fuel st :
  let buckets := buildBuckets (normalise trimUpper words) in
  cachesOk buckets st →
  String.length word < 3 ∨ 8 < String.length word →
  ∃ st', isSolvable buckets (S fuel) word st = Some (false, st').
Proof.
  intros buckets Hok Hlen.
  assert (nextWords buckets word = []) as Hnone.
  { destruct (nextWords buckets word) as [|x rest] eqn:Hnext; [done |]. exfalso.
    assert (x ∈ nextWords buckets word) as Hx by (rewrite Hnext; by left).
    pose proof (nextWords_length buckets (buildBuckets_wf _) _ _ Hx) as Hshorter.
    apply nextWords_dictionary in Hx as (Hlong & Hin & _).
    apply normalise_elem in Hin as [Hword%isWord_length _]. lia. }
  assert (solvable buckets word = false) as Hsolvable.
  { rewrite solvable_unfold, Hnone by apply buildBuckets_wf.
    destruct (Nat.eqb_spec (String.length word) 3); [lia | done]. }
  simpl. destruct (Nat.eqb_spec (String.length word) 3); [lia |].
  destruct (solvableMemo st !! word) as [known|] eqn:Hknown.
  - exists st. by rewrite (proj2 Hok _ _ Hknown), Hsolvable.
  - run_M.
    destruct (getNextWords_run buckets word st Hok) as (loc & st1 & -> & Hloc & _).
    rewrite Hloc, Hnone. simpl. run_M. eauto.
Qed.

Lemma isSolvable_out_of_range_witness :
  let buckets := buildBuckets (normalise trimUpperAscii bananas) in
  cachesOk buckets emptyState
  ∧ (String.length "AN" < 3 ∨ 8 < String.length "AN")
  ∧ ∃ st', isSolvable buckets 1 "AN" emptyState = Some (false, st').
Proof.
  intros buckets.
  assert (cachesOk buckets emptyState) as Hok.
  { split; intros ? ? Hlook; simpl in Hlook; by rewrite lookup_empty in Hlook. }
  assert (String.length "AN" < 3 ∨ 8 < String.length "AN") as Hlen
    by (left; vm_compute; lia).
  split_and!; [exact Hok | exact Hlen |].
  exact (isSolvable_out_of_range trimUpperAscii bananas "AN" 0 emptyState Hok Hlen).
Defined.

(** ** Chains *)

Lemma Descent_shape buckets word chain :
  bucketsWf buckets →
  Descent buckets word chain →
  chain !! 0 = Some word
  ∧ length chain + 2 = String.length word
  ∧ (∃ final, last chain = Some final ∧ String.length final = 3)
  ∧ (∀ i longer shorter,
       chain !! i = Some longer → chain !! S i = Some shorter →
       shorter ∈ nextWords buckets longer).
Proof.
  intros Hwf. induction 1 as [word Hlen | word x tail Hlen Hx Htail IH].
  - split_and!; [done | simpl; lia | by exists word |].
    intros i longer shorter _ Hnone. by destruct i.
  - destruct IH as (Hhead & Hcount & (final & Hlast & Hfinal) & Hedges).
    pose proof (nextWords_length buckets Hwf _ _ Hx) as Hshorter.
    assert (3 < String.length word) as Hlong.
    { destruct (decide (3 < String.length word)); [done |].
      rewrite nextWords_short in Hx by lia. by apply elem_of_nil in Hx. }
    split_and!.
    + done.
    + simpl. lia.
    + exists final. split; [| done]. destruct tail; [done |]. by rewrite last_cons, Hlast.
    + intros [|i] longer shorter Hi Hnext; simpl in Hi, Hnext.
      * injection Hi as <-. rewrite Hhead in Hnext. by injection Hnext as <-.
      * by eapply Hedges.
Qed.

(** X6.  For every start word, with a random source whose numbers are
    doubles in the unit interval, [buildChain] returns a chain exactly when
    [isSolvable] answers [true] for that word.  A chain it returns starts
    with the start word, ends with a word of three letters, has one word
    for each length in between, and each of its words after the first is
    a dictionary word obtained from the word before it by leaving out one
    letter. *)
Theorem buildChain_agrees_with_isSolvable trimUpper words {R} (random : R → Q * R)
    startWord rng st :
  let dictionary := normalise trimUpper words in
  let buckets := buildBuckets dictionary in
  unitRange random →
  cachesOk buckets st →
  ∃ found rng' st' answer st'',
    buildChain buckets random startWord rng st = Some ((found, rng'), st')
    ∧ isSolvable buckets (S (String.length startWord)) startWord st'
      = Some (answer, st'')
    ∧ (answer = true ↔ is_Some found)
    ∧ ∀ chain, found = Some chain →
        chain !! 0 = Some startWord
        ∧ length chain + 2 = String.length startWord
        ∧ (∃ final, last chain = Some final ∧ String.length final = 3)
        ∧ (∀ i longer shorter,
             chain !! i = Some longer → chain !! S i = Some shorter →
             shorter ∈ dictionary
             ∧ ∃ c, Js.spread longer ≡ₚ c :: Js.spread shorter).
Proof.
  intros dictionary buckets Hunit Hok.
  pose proof (buildBuckets_wf dictionary) as Hwf. fold buckets in Hwf.
  destruct (chainFrom_found buckets Hwf random Hunit (S (String.length startWord))
              startWord rng) as (found & rng' & Hfound & Hchain); [lia | lia |].
  pose proof (dfs_run buckets random (S (String.length startWord)) startWord rng st Hok)
    as Hdfs.
  unfold follows in Hdfs. rewrite Hfound in Hdfs.
  destruct Hdfs as (st' & Hdfs & Hok' & _).
  destruct (isSolvable_run buckets Hwf (S (String.length startWord)) startWord st' Hok')
    as (st'' & Hsolvable & _); [lia | lia |].
  exists found, rng', st', (solvable buckets startWord), st''.
  split_and!; [done | done | |].
  - destruct found as [chain|].
    + split; [eauto |]. intros _. by eapply Descent_solvable.
    + rewrite Hchain. split; [done | by intros [? ?]].
  - intros chain ->.
    destruct (Descent_shape buckets startWord chain Hwf Hchain)
      as (Hhead & Hcount & Hlast & Hedges).
    split_and!; [done | done | done |].
    intros i longer shorter Hi Hnext.
    specialize (Hedges i longer shorter Hi Hnext).
    apply nextWords_dictionary in Hedges as (_ & Hin & Hedge).
    split; [done |]. by apply oneLetterRemoved_letters.
Qed.

Lemma buildChain_agrees_with_isSolvable_witness :
  let buckets := buildBuckets (normalise trimUpperAscii bananas) in
  unitRange mulberry32
  ∧ cachesOk buckets emptyState
  ∧ ∃ rng' st' st'',
      buildChain buckets mulberry32 "CABBAGE" 7%Z emptyState = Some ((None, rng'), st')
      ∧ isSolvable buckets 8 "CABBAGE" st' = Some (false, st'').
Proof.
  intros buckets.
  assert (cachesOk buckets emptyState) as Hok.
  { split; intros ? ? Hlook; simpl in Hlook; by rewrite lookup_empty in Hlook. }
  split_and!; [exact mulberry32_unitRange | exact Hok |].
  destruct (buildChain_agrees_with_isSolvable trimUpperAscii bananas mulberry32
              "CABBAGE" 7%Z emptyState mulberry32_unitRange Hok)
    as (found & rng' & st' & answer & st'' & Hchain & Hsolvable & Hagree & _).
  assert (found = None) as ->.
  { pose proof (f_equal (λ o, match o with
                              | Some ((chain, _), _) => chain
                              | None => Some []
                              end) Hchain) as Hfound.
    vm_compute in Hfound. exact (eq_sym Hfound). }
  assert (answer = false) as ->.
  { destruct answer; [| reflexivity].
    destruct Hagree as [[chain Hnone] _]; [reflexivity | discriminate Hnone]. }
  exists rng', st', st''. split; [exact Hchain | exact Hsolvable].
Defined.

(** ** The shuffle and the random source *)

Lemma shuffleList_draws {R} (random : R → Q * R) elements i rng result rng' :
  shuffleList random elements i rng = Some (result, rng') →
  rng' = Nat.iter i (λ g, (random g).2) rng.
Proof.
  revert elements rng. induction i as [|i IH]; intros elements rng.
  - simpl. by intros [= _ <-].
  - rewrite Nat.iter_succ_r. cbn [shuffleList].
    destruct (random rng) as [r rng1]. case_decide; [| done].
    destruct (elements !! Z.to_nat _) as [atJ|]; [| done].
    destruct (elements !! S i) as [atI|]; [| done].
    apply IH.
Qed.

(** X7.  A call of [shuffled] that returns has taken exactly one number
    from the random source for each element but one; on an array of at
    most one element it takes none and the copy equals the original. *)
Theorem shuffled_draws {R} (random : R → Q * R) items rng st copy rng' st' :
  shuffled random items rng st = Some ((copy, rng'), st') →
  ∃ elements,
    heap st !! items = Some elements
    ∧ rng' = Nat.iter (length elements - 1) (λ g, (random g).2) rng
    ∧ (length elements ≤ 1 → rng' = rng ∧ heap st' !! copy = Some elements).
Proof.
  intros Hrun.
  destruct (heap st !! items) as [elements|] eqn:Hitems.
  - exists elements. rewrite (shuffled_run random items rng st elements Hitems) in Hrun.
    unfold shuffledList in Hrun.
    destruct (shuffleList _ _ _ _) as [[result rng1]|] eqn:Hlist; [| done].
    injection Hrun as <- <- <-.
    pose proof (shuffleList_draws random _ _ _ _ _ Hlist) as Hdraws.
    split_and!; [done | done |]. intros Hshort.
    replace (length elements - 1) with 0 in * by lia.
    simpl in Hlist, Hdraws. injection Hlist as <- _.
    split; [done |]. simpl. by apply list_lookup_middle.
  - exfalso. revert Hrun. unfold shuffled. run_M. by rewrite Hitems.
Qed.

Lemma shuffled_draws_witness :
  let st := mkState [["ANA"; "NAN"; "NAAN"]] ∅ ∅ in
  ∃ copy rng' st',
    shuffled mulberry32 0 1%Z st = Some ((copy, rng'), st')
    ∧ rng' = (1 + 2 * 0x6d2b79f5)%Z.
Proof.
  intros st.
  assert (∃ copy rng' st', shuffled mulberry32 0 1%Z st = Some ((copy, rng'), st'))
    as (copy & rng' & st' & Hrun) by (do 3 eexists; vm_compute; reflexivity).
  exists copy, rng', st'. split; [exact Hrun |].
  destruct (shuffled_draws mulberry32 0 1%Z st copy rng' st' Hrun)
    as (elements & Hitems & Hdraws & _).
  injection Hitems as <-. rewrite Hdraws. vm_compute. reflexivity.
Defined.

(** X8.  The seed of a string is a number from 0 to 2^32 - 1, and the
    seed of a string followed by another is the seed of the first, times
    31 to the length of the second, plus the polynomial of the second,
    reduced modulo 2^32. *)
Theorem stringToSeed_rolling s t :
  (0 ≤ stringToSeed s < 2 ^ 32)%Z
  ∧ stringToSeed (s +:+ t)
    = ((stringToSeed s * 31 ^ Z.of_nat (String.length t) + polynomialHash t)
       mod 2 ^ 32)%Z.
Proof.
  split.
  - rewrite stringToSeed_polynomial. by apply Z.mod_pos_bound.
  - unfold stringToSeed at 1. rewrite spread_app, fold_left_app.
    fold (stringToSeed s).
    destruct (stringToSeed_from (Js.spread t) (stringToSeed s)) as [-> | Hnil].
    + by rewrite length_spread.
    + rewrite <- (length_spread t). unfold polynomialHash. rewrite Hnil. simpl.
      rewrite Z.mul_1_r, Z.add_0_r, Z.mod_small; [done |].
      rewrite stringToSeed_polynomial. by apply Z.mod_pos_bound.
Qed.

Lemma toUint32_shift x : Int32.toUint32 (x + 2 ^ 32) = Int32.toUint32 x.
Proof.
  unfold Int32.toUint32.
  replace (x + 2 ^ 32)%Z with (x + 1 * 2 ^ 32)%Z by lia. by rewrite Z_mod_plus_full.
Qed.

Lemma toInt32_shift x : Int32.toInt32 (x + 2 ^ 32) = Int32.toInt32 x.
Proof.
  unfold Int32.toInt32.
  replace (x + 2 ^ 32 + 2 ^ 31)%Z with (x + 2 ^ 31 + 1 * 2 ^ 32)%Z by lia.
  by rewrite Z_mod_plus_full.
Qed.

Lemma roundInteger_exact z : (Z.abs z ≤ 2 ^ 53)%Z → Double.roundInteger z = z.
Proof.
  intros Hz. unfold Double.roundInteger.
  rewrite (Qfloor_comp _ _ (round_double _ (isDouble_Z z Hz))). apply Qfloor_Z.
Qed.

(** X9.  Every number that the generator yields is a multiple of 2^-32
    from 0 up to but not including 1.  As long as the state with the
    constant added is at most 2^53 in magnitude, a call adds the constant
    to the state exactly, and the number depends on the state modulo 2^32
    only.  Past 2^53 the sum is rounded to a double: from the state 2^53
    the next state is one less than the exact sum, and the number is the
    one that the state -1 gives. *)
Theorem mulberry32_step seed :
  (∃ k, (0 ≤ k < 2 ^ 32)%Z ∧ (mulberry32 seed).1 = k # 4294967296)
  ∧ ((Z.abs (seed + 0x6d2b79f5) ≤ 2 ^ 53)%Z →
     (mulberry32 seed).2 = (seed + 0x6d2b79f5)%Z)
  ∧ ((Z.abs (seed + 0x6d2b79f5) ≤ 2 ^ 53)%Z →
     (Z.abs (seed + 2 ^ 32 + 0x6d2b79f5) ≤ 2 ^ 53)%Z →
     (mulberry32 (seed + 2 ^ 32)).1 = (mulberry32 seed).1)
  ∧ mulberry32 (2 ^ 53) = ((mulberry32 (-1)).1, (2 ^ 53 + 0x6d2b79f5 - 1)%Z).
Proof.
  split_and!.
  - unfold mulberry32. cbn [fst]. eexists. split; [| reflexivity].
    unfold Int32.toUint32. by apply Z.mod_pos_bound.
  - intros Hexact. unfold mulberry32. cbn [snd]. by apply roundInteger_exact.
  - intros Hexact1 Hexact2. unfold mulberry32. cbn [fst].
    rewrite !roundInteger_exact by done.
    replace (seed + 2 ^ 32 + 1831565813)%Z with (seed + 1831565813 + 2 ^ 32)%Z by lia.
    generalize (seed + 1831565813)%Z. intros t.
    unfold Int32.xor, Int32.or, Int32.ushr, Int32.imul.
    by rewrite !toInt32_shift, !toUint32_shift.
  - vm_compute. reflexivity.
Qed.

Lemma mulberry32_step_witness :
  (Z.abs (42 + 0x6d2b79f5) ≤ 2 ^ 53)%Z
  ∧ (Z.abs (42 + 2 ^ 32 + 0x6d2b79f5) ≤ 2 ^ 53)%Z
  ∧ (mulberry32 42).2 = (42 + 0x6d2b79f5)%Z
  ∧ (mulberry32 (42 + 2 ^ 32)).1 = (mulberry32 42).1.
Proof.
  assert (Z.abs (42 + 0x6d2b79f5) ≤ 2 ^ 53)%Z as Hexact1 by (vm_compute; discriminate).
  assert (Z.abs (42 + 2 ^ 32 + 0x6d2b79f5) ≤ 2 ^ 53)%Z as Hexact2
    by (vm_compute; discriminate).
  destruct (mulberry32_step 42) as (_ & Hstate & Hnumber & _).
  split_and!; [exact Hexact1 | exact Hexact2 | exact (Hstate Hexact1)
              | exact (Hnumber Hexact1 Hexact2)].
Defined.

(** ** Start dates *)

Section StartDateFacts.

Import JsDate.
Local Open Scope Z_scope.

Lemma DayFromYear_mono a b : a ≤ b → DayFromYear a ≤ DayFromYear b.
Proof. unfold DayFromYear. intros. Z.div_mod_to_equations. lia. Qed.

Lemma yearOfDay_unique y day :
  DayFromYear y ≤ day < DayFromYear (y + 1) → yearOfDay day = y.
Proof.
  intros Hy. pose proof (yearOfDay_spec day) as Hspec.
  destruct (Z.lt_trichotomy (yearOfDay day) y) as [Hlt | [Heq | Hgt]]; [| done |].
  - pose proof (DayFromYear_mono (yearOfDay day + 1) y ltac:(lia)). lia.
  - pose proof (DayFromYear_mono (y + 1) (yearOfDay day) ltac:(lia)). lia.
Qed.

Lemma digit_cases c :
  isDigit c = true →
  c ∈ ["0"; "1"; "2"; "3"; "4"; "5"; "6"; "7"; "8"; "9"]%char.
Proof.
  destruct c as [[] [] [] [] [] [] [] []]; intros H; try discriminate H;
    apply (bool_decide_unpack _); vm_compute; exact I.
Qed.

Lemma fourDigits_pretty :
  Forall (λ a, Forall (λ b, Forall (λ c, Forall (λ d,
    numberOfDigits (Js.join [a; b; c; d]) < 1000
    ∨ pretty (numberOfDigits (Js.join [a; b; c; d])) = Js.join [a; b; c; d])
   ["0"; "1"; "2"; "3"; "4"; "5"; "6"; "7"; "8"; "9"]%char)
   ["0"; "1"; "2"; "3"; "4"; "5"; "6"; "7"; "8"; "9"]%char)
   ["0"; "1"; "2"; "3"; "4"; "5"; "6"; "7"; "8"; "9"]%char)
   ["0"; "1"; "2"; "3"; "4"; "5"; "6"; "7"; "8"; "9"]%char.
Proof. apply (bool_decide_unpack _). vm_compute. exact I. Qed.

Lemma twoDigits_digits :
  Forall (λ a, Forall (λ b,
    twoDigits (numberOfDigits (Js.join [a; b])) = Js.join [a; b])
   ["0"; "1"; "2"; "3"; "4"; "5"; "6"; "7"; "8"; "9"]%char)
   ["0"; "1"; "2"; "3"; "4"; "5"; "6"; "7"; "8"; "9"]%char.
Proof. apply (bool_decide_unpack _). vm_compute. exact I. Qed.

Lemma digit_value c : isDigit c = true → 0 ≤ charCode c - 48 ≤ 9.
Proof.
  unfold isDigit, charCode. rewrite andb_true_iff, !N.leb_le. lia.
Qed.

Lemma matchIsoDate_Some value yd md dd :
  matchIsoDate value = Some (yd, md, dd) →
  value = yd +:+ "-" +:+ md +:+ "-" +:+ dd
  ∧ (∃ a b c d, yd = Js.join [a; b; c; d]
       ∧ isDigit a = true ∧ isDigit b = true ∧ isDigit c = true ∧ isDigit d = true)
  ∧ (∃ a b, md = Js.join [a; b] ∧ isDigit a = true ∧ isDigit b = true)
  ∧ (∃ a b, dd = Js.join [a; b] ∧ isDigit a = true ∧ isDigit b = true).
Proof.
  unfold matchIsoDate. intros Hmatch.
  destruct (Js.spread value)
    as [|y1 [|y2 [|y3 [|y4 [|s1 [|m1 [|m2 [|s2 [|d1 [|d2 [|]]]]]]]]]]] eqn:Hchars;
    try discriminate Hmatch.
  destruct (forallb _ _ && _ && _) eqn:Htest; [| discriminate Hmatch].
  injection Hmatch as <- <- <-.
  apply andb_true_iff in Htest as [[Hdigits Hs1%Ascii.eqb_eq]%andb_true_iff Hs2%Ascii.eqb_eq].
  subst s1 s2. cbn [forallb] in Hdigits.
  repeat (apply andb_true_iff in Hdigits as [? Hdigits]).
  split_and!.
  - rewrite <- (join_spread value), Hchars. reflexivity.
  - by exists y1, y2, y3, y4.
  - by exists m1, m2.
  - by exists d1, d2.
Qed.

Lemma matchIsoDate_numbers value yd md dd :
  matchIsoDate value = Some (yd, md, dd) →
  0 ≤ numberOfDigits yd ≤ 9999
  ∧ 0 ≤ numberOfDigits md ≤ 99 ∧ 0 ≤ numberOfDigits dd ≤ 99.
Proof.
  intros (_ & (a & b & c & d & -> & Ha & Hb & Hc & Hd)
            & (m1 & m2 & -> & Hm1 & Hm2) & (d1 & d2 & -> & Hd1 & Hd2))%matchIsoDate_Some.
  unfold numberOfDigits. rewrite !spread_join. cbn [fold_left].
  apply digit_value in Ha, Hb, Hc, Hd, Hm1, Hm2, Hd1, Hd2. lia.
Qed.

(** The fields of the date that [MakeDay] makes from a calendar date. *)
Lemma fields_of_MakeDay year monthIndex day :
  0 ≤ monthIndex ≤ 11 → 1 ≤ day ≤ daysInMonth year (monthIndex + 1) →
  let t := MakeDate (MakeDay year monthIndex day) 0 in
  YearFromTime t = year ∧ MonthFromTime t = monthIndex ∧ DateFromTime t = day
  ∧ TimeWithinDay t = 0.
Proof.
  intros Hm Hd t.
  assert (Day t = MakeDay year monthIndex day) as Hday.
  { unfold t, Day, MakeDate. rewrite Z.add_0_r. by apply Z.div_mul. }
  assert (TimeWithinDay t = 0) as Htime.
  { unfold t, TimeWithinDay, MakeDate. rewrite Z.add_0_r. by apply Z.mod_mul. }
  unfold MakeDay in Hday.
  rewrite Z.div_small, Z.mod_small, Z.add_0_r in Hday by lia.
  set (leap := if decide (DaysInYear year = 366) then 1 else 0) in *.
  assert (DaysInYear year = 365 + leap) as Hdays.
  { unfold leap. case_decide as Hleap; [lia |].
    revert Hleap. unfold DaysInYear. repeat case_decide; lia. }
  assert (0 ≤ monthStart leap monthIndex + day - 1 < DaysInYear year
          ∧ monthOfDay leap (monthStart leap monthIndex + day - 1) = monthIndex)
    as [Hrange Hmonth].
  { rewrite Hdays. unfold daysInMonth in Hd. clear Hday Hdays Htime.
    assert (monthIndex = 0 ∨ monthIndex = 1 ∨ monthIndex = 2 ∨ monthIndex = 3
            ∨ monthIndex = 4 ∨ monthIndex = 5 ∨ monthIndex = 6 ∨ monthIndex = 7
            ∨ monthIndex = 8 ∨ monthIndex = 9 ∨ monthIndex = 10 ∨ monthIndex = 11)
      as Hcases by lia.
    unfold monthOfDay. subst leap.
    destruct (decide (DaysInYear year = 366));
      repeat destruct Hcases as [-> | Hcases]; try subst monthIndex;
      match type of Hd with context [match ?e with _ => _ end] =>
        let v := eval vm_compute in e in change e with v in Hd
      end;
      cbn beta iota in Hd; cbn [monthStart];
      (split; [lia |]); repeat case_decide; lia. }
  assert (YearFromTime t = year) as Hyear.
  { unfold YearFromTime. apply yearOfDay_unique. rewrite DayFromYear_succ, Hday. lia. }
  assert (InLeapYear t = leap) as Hleap by (unfold InLeapYear; by rewrite Hyear).
  assert (DayWithinYear t = monthStart leap monthIndex + day - 1) as Hwithin.
  { unfold DayWithinYear. rewrite Hyear, Hday. lia. }
  split_and!; [done | | | done].
  - unfold MonthFromTime. by rewrite Hleap, Hwithin.
  - unfold DateFromTime, MonthFromTime. rewrite Hleap, Hwithin, Hmonth. lia.
Qed.

Lemma DateFromTime_in_month t :
  1 ≤ DateFromTime t ≤ daysInMonth (YearFromTime t) (MonthFromTime t + 1).
Proof.
  pose proof (DayWithinYear_range t) as Hd. rewrite InLeapYear_days in Hd.
  unfold DateFromTime, MonthFromTime, monthOfDay, daysInMonth.
  unfold InLeapYear in *.
  destruct (decide (DaysInYear (YearFromTime t) = 366));
    repeat case_decide; cbn [monthStart] in *;
    match goal with |- context [match ?e with _ => _ end] =>
      let v := eval vm_compute in e in change e with v
    end; cbn beta iota; lia.
Qed.

Lemma DayFromYear_100 : DayFromYear 100 = -683003.
Proof. vm_compute. reflexivity. Qed.

Lemma DayFromYear_10000 : DayFromYear 10000 = 2932897.
Proof. vm_compute. reflexivity. Qed.

Lemma DayFromYear_1900 : DayFromYear 1900 = -25567.
Proof. vm_compute. reflexivity. Qed.


Lemma whole_days local : TimeWithinDay local = 0 → local = Day local * msPerDay.
Proof.
  unfold TimeWithinDay, Day. intros Hzero.
  assert (msPerDay ≠ 0) as Hne by (unfold msPerDay; lia).
  pose proof (Z.div_mod local msPerDay Hne). lia.
Qed.

Lemma fields_of_day a b :
  Day a = Day b →
  YearFromTime a = YearFromTime b ∧ MonthFromTime a = MonthFromTime b
  ∧ DateFromTime a = DateFromTime b.
Proof.
  intros Hday. unfold DateFromTime, MonthFromTime, DayWithinYear, InLeapYear, YearFromTime.
  by rewrite Hday.
Qed.

Lemma Day_MakeDate d : Day (MakeDate d 0) = d.
Proof.
  unfold Day, MakeDate. rewrite Z.add_0_r. apply Z.div_mul. unfold msPerDay. lia.
Qed.

Lemma TimeWithinDay_MakeDate d : TimeWithinDay (MakeDate d 0) = 0.
Proof.
  unfold TimeWithinDay, MakeDate. rewrite Z.add_0_r. apply Z.mod_mul.
  unfold msPerDay. lia.
Qed.

(** The midnight that starts a local day is read as a time on that day. *)
Lemma Day_of_midnight zone local :
  wellSpaced zone → shortJumps zone → TimeWithinDay local = 0 →
  Day (LocalTime zone (UTC zone local)) = Day local.
Proof.
  intros Hspaced Hjumps Hmidnight.
  pose proof (Day_LocalTime_UTC zone (Day local) Hspaced Hjumps) as Hday.
  by rewrite <- (whole_days local Hmidnight) in Hday.
Qed.

Lemma clip_bound zone d :
  wellSpaced zone → -683003 ≤ d < 2932897 →
  TimeClip (UTC zone (d * msPerDay)) = Some (UTC zone (d * msPerDay)).
Proof.
  intros Hspaced Hd. pose proof (UTC_bound zone (d * msPerDay) Hspaced) as Hbound.
  unfold TimeClip. apply decide_False.
  revert Hbound. generalize (UTC zone (d * msPerDay)). unfold msPerDay. lia.
Qed.

Section NewDate.

Variable zone : Zone.
Hypothesis Hspaced : wellSpaced zone.
Hypothesis Hjumps : shortJumps zone.

Lemma newDate_fields year month day :
  100 ≤ year ≤ 9999 → 1 ≤ month ≤ 12 → 1 ≤ day ≤ daysInMonth year month →
  ∃ t, newDate zone year (month - 1) day = Some t
       ∧ t = UTC zone (MakeDate (MakeDay year (month - 1) day) 0)
       ∧ YearFromTime (LocalTime zone t) = year
       ∧ MonthFromTime (LocalTime zone t) = month - 1
       ∧ DateFromTime (LocalTime zone t) = day.
Proof using Hspaced Hjumps.
  intros Hyear Hmonth Hday.
  destruct (fields_of_MakeDay year (month - 1) day) as (Hy & Hm & Hd & Htime); [lia | |].
  { by replace (month - 1 + 1) with month by lia. }
  unfold newDate, MakeFullYear. rewrite decide_False by lia.
  generalize dependent (MakeDate (MakeDay year (month - 1) day) 0).
  intros local Hy Hm Hd Htime.
  exists (UTC zone local).
  destruct (fields_of_day _ _ (Day_of_midnight zone local Hspaced Hjumps Htime))
    as (-> & -> & ->).
  split_and!; [| done | exact Hy | exact Hm | exact Hd].
  rewrite (whole_days local Htime). apply clip_bound; [exact Hspaced |].
  pose proof (yearOfDay_spec (Day local)) as Hspec.
  unfold YearFromTime in Hy. rewrite Hy in Hspec.
  pose proof (DayFromYear_mono 100 year ltac:(lia)) as Hlow.
  pose proof (DayFromYear_mono (year + 1) 10000 ltac:(lia)) as Hhigh.
  rewrite DayFromYear_100 in Hlow. rewrite DayFromYear_10000 in Hhigh. lia.
Qed.

End NewDate.

Lemma monthStart_nonneg leap m : 0 ≤ leap → 0 ≤ monthStart leap m.
Proof. intros Hleap. unfold monthStart. repeat case_match; lia. Qed.

Lemma TimeClip_Some x t : TimeClip x = Some t → t = x.
Proof. unfold TimeClip. case_decide; [done |]. by intros [= <-]. Qed.

Lemma yearOfDay_late yr monthIndex day :
  1900 ≤ yr → 0 ≤ monthIndex ≤ 11 → 1 ≤ day →
  1900 ≤ yearOfDay (MakeDay yr monthIndex day).
Proof.
  intros Hyr Hm Hd.
  pose proof (yearOfDay_spec (MakeDay yr monthIndex day)) as Hspec.
  destruct (decide (1900 ≤ yearOfDay (MakeDay yr monthIndex day))) as [| Hearly];
    [done |]. exfalso.
  pose proof (DayFromYear_mono (yearOfDay (MakeDay yr monthIndex day) + 1) 1900
                ltac:(lia)) as Hlow.
  pose proof (DayFromYear_mono 1900 yr Hyr) as Hhigh.
  assert (DayFromYear yr ≤ MakeDay yr monthIndex day) as Hday.
  { unfold MakeDay. rewrite Z.div_small, Z.mod_small, Z.add_0_r by lia.
    pose proof (monthStart_nonneg
                  (if decide (DaysInYear yr = 366) then 1 else 0) monthIndex
                  ltac:(case_decide; lia)).
    lia. }
  lia.
Qed.

Lemma getters_valid zone t :
  getFullYear zone (Some t) = Some (YearFromTime (LocalTime zone t))
  ∧ getMonth zone (Some t) = Some (MonthFromTime (LocalTime zone t))
  ∧ getDate zone (Some t) = Some (DateFromTime (LocalTime zone t)).
Proof. done. Qed.

Lemma newDate_local tza year monthIndex day t :
  newDate (fixedZone tza) year monthIndex day = Some t →
  t + tza = MakeDate (MakeDay (MakeFullYear year) monthIndex day) 0.
Proof.
  unfold newDate. generalize (MakeDate (MakeDay (MakeFullYear year) monthIndex day) 0).
  intros l Hclip. apply TimeClip_Some in Hclip. rewrite UTC_fixed in Hclip. lia.
Qed.

Lemma YearFromTime_MakeDate d : YearFromTime (MakeDate d 0) = yearOfDay d.
Proof. unfold YearFromTime. by rewrite Day_MakeDate. Qed.

Section StartDateParsing.

Variable zone : Zone.
Hypothesis Hspaced : wellSpaced zone.
Hypothesis Hjumps : shortJumps zone.

Lemma newDate_day year monthIndex day t :
  newDate zone year monthIndex day = Some t →
  Day (LocalTime zone t) = MakeDay (MakeFullYear year) monthIndex day.
Proof using Hspaced Hjumps.
  unfold newDate. intros ->%TimeClip_Some.
  rewrite Day_of_midnight; [apply Day_MakeDate | done | done |].
  apply TimeWithinDay_MakeDate.
Qed.

Lemma newDate_small_year year monthIndex day t :
  0 ≤ year ≤ 99 → 0 ≤ monthIndex ≤ 11 → 1 ≤ day →
  newDate zone year monthIndex day = Some t →
  1900 ≤ YearFromTime (LocalTime zone t).
Proof using Hspaced Hjumps.
  intros Hyear Hm Hd Hdate. apply newDate_day in Hdate.
  unfold YearFromTime. rewrite Hdate. apply yearOfDay_late; [| done ..].
  unfold MakeFullYear. rewrite decide_True by done. lia.
Qed.

Lemma newDate_fields_inv year monthIndex day t :
  0 ≤ year →
  newDate zone year monthIndex day = Some t →
  YearFromTime (LocalTime zone t) = year →
  MonthFromTime (LocalTime zone t) = monthIndex →
  DateFromTime (LocalTime zone t) = day →
  100 ≤ year ∧ 0 ≤ monthIndex ≤ 11 ∧ 1 ≤ day ≤ daysInMonth year (monthIndex + 1).
Proof using Hspaced Hjumps.
  intros Hyear Hdate Hfy Hfm Hfd.
  pose proof (MonthFromTime_range (LocalTime zone t)) as Hmrange.
  pose proof (DateFromTime_in_month (LocalTime zone t)) as Hdrange.
  rewrite Hfy, Hfm, Hfd in Hdrange. rewrite Hfm in Hmrange.
  split_and!; [| clear - Hmrange Hdrange; lia ..].
  destruct (decide (100 ≤ year)) as [| Hsmall]; [done |]. exfalso.
  pose proof (newDate_small_year year monthIndex day t) as Hlate.
  rewrite Hfy in Hlate. specialize (Hlate ltac:(lia) Hmrange ltac:(lia) Hdate). lia.
Qed.

Lemma parseStartDate_cases value :
  match matchIsoDate value with
  | None => Cli.parseStartDate zone value = Cli.Failed Cli.InvalidStartValue
  | Some (yearDigits, monthDigits, dayDigits) =>
    let year := numberOfDigits yearDigits in
    let month := numberOfDigits monthDigits in
    let day := numberOfDigits dayDigits in
    if decide (100 ≤ year ∧ 1 ≤ month ≤ 12 ∧ 1 ≤ day ≤ daysInMonth year month)
    then ∃ t, Cli.parseStartDate zone value = Cli.Parsed (Some t)
              ∧ t = UTC zone (MakeDate (MakeDay year (month - 1) day) 0)
              ∧ YearFromTime (LocalTime zone t) = year
              ∧ MonthFromTime (LocalTime zone t) = month - 1
              ∧ DateFromTime (LocalTime zone t) = day
    else Cli.parseStartDate zone value = Cli.Failed Cli.InvalidStartDate
  end.
Proof using Hspaced Hjumps.
  unfold Cli.parseStartDate.
  destruct (matchIsoDate value) as [[[yd md] dd]|] eqn:Hmatch; [| done].
  pose proof (matchIsoDate_numbers _ _ _ _ Hmatch) as (Hyear & Hmonth & Hday).
  cbn zeta. revert Hyear Hmonth Hday.
  generalize (numberOfDigits yd) (numberOfDigits md) (numberOfDigits dd).
  intros year month day Hyear Hmonth Hday.
  destruct (decide (100 ≤ year ∧ 1 ≤ month ≤ 12 ∧ 1 ≤ day ≤ daysInMonth year month))
    as [(Hy & Hm & Hd) | Hinvalid].
  - destruct (newDate_fields zone Hspaced Hjumps year month day)
      as (t & Hdate & Htime & Hfy & Hfm & Hfd); [lia | done | done |].
    exists t. rewrite Hdate.
    destruct (getters_valid zone t) as (-> & -> & ->).
    rewrite Hfy, Hfm, Hfd.
    split_and!; try done. apply decide_False. by intros [? | [? | ?]].
  - destruct (newDate zone year (month - 1) day) as [t|] eqn:Hdate.
    + destruct (getters_valid zone t) as (-> & -> & ->).
      apply decide_True.
      destruct (decide (YearFromTime (LocalTime zone t) = year)) as [Hfy |];
        [| left; congruence].
      destruct (decide (MonthFromTime (LocalTime zone t) = month - 1)) as [Hfm |];
        [| right; left; congruence].
      destruct (decide (DateFromTime (LocalTime zone t) = day)) as [Hfd |];
        [| right; right; congruence].
      exfalso. apply Hinvalid.
      destruct (newDate_fields_inv year (month - 1) day t) as (? & ? & Hdd);
        [lia | done .. |].
      replace (month - 1 + 1) with month in Hdd by lia. lia.
    + apply decide_True. by left.
Qed.

End StartDateParsing.

(** What [parseStartDate] has checked when it returns. *)
Lemma parseStartDate_Parsed zone value date :
  Cli.parseStartDate zone value = Cli.Parsed date →
  ∃ yd md dd t,
    matchIsoDate value = Some (yd, md, dd)
    ∧ date = Some t
    ∧ newDate zone (numberOfDigits yd) (numberOfDigits md - 1) (numberOfDigits dd) = Some t
    ∧ YearFromTime (LocalTime zone t) = numberOfDigits yd
    ∧ MonthFromTime (LocalTime zone t) = numberOfDigits md - 1
    ∧ DateFromTime (LocalTime zone t) = numberOfDigits dd.
Proof.
  unfold Cli.parseStartDate.
  destruct (matchIsoDate value) as [[[yd md] dd]|]; [| done].
  cbn zeta.
  destruct (newDate zone (numberOfDigits yd) (numberOfDigits md - 1) (numberOfDigits dd))
    as [t|] eqn:Hdate.
  - destruct (getters_valid zone t) as (-> & -> & ->).
    case_decide as Hdiffers; [intros Hfalse; discriminate Hfalse |]. intros [= <-].
    exists yd, md, dd, t. split_and!; try done.
    + destruct (decide (YearFromTime (LocalTime zone t) = numberOfDigits yd)); [done |].
      exfalso. apply Hdiffers. left. congruence.
    + destruct (decide (MonthFromTime (LocalTime zone t) = numberOfDigits md - 1)); [done |].
      exfalso. apply Hdiffers. right. left. congruence.
    + destruct (decide (DateFromTime (LocalTime zone t) = numberOfDigits dd)); [done |].
      exfalso. apply Hdiffers. right. right. congruence.
  - rewrite decide_True; [intros Hfalse; discriminate Hfalse |]. by left.
Qed.

(** X10.  In a time zone whose offsets are of at most a day, whose
    transitions are at least two days apart and in which no transition
    moves the clock forward by a day or more, [parseStartDate] accepts
    a value exactly when it has the shape of four digits, two digits and
    two digits between hyphens, the year is 100 or more, the month is
    from 1 to 12 and the day is a day of that month of that year.  A year
    below 100 is refused because [Date] counts such a year from 1900. *)
Theorem parseStartDate_accepts zone value :
  wellSpaced zone → shortJumps zone →
  (∃ date, Cli.parseStartDate zone value = Cli.Parsed date)
  ↔ ∃ yearDigits monthDigits dayDigits,
      matchIsoDate value = Some (yearDigits, monthDigits, dayDigits)
      ∧ 100 ≤ numberOfDigits yearDigits
      ∧ 1 ≤ numberOfDigits monthDigits ≤ 12
      ∧ 1 ≤ numberOfDigits dayDigits
          ≤ daysInMonth (numberOfDigits yearDigits) (numberOfDigits monthDigits).
Proof.
  intros Hspaced Hjumps.
  pose proof (parseStartDate_cases zone Hspaced Hjumps value) as Hcases.
  destruct (matchIsoDate value) as [[[yd md] dd]|].
  - cbn zeta in Hcases. case_decide as Hvalid.
    + destruct Hcases as (t & Hparsed & _). split; [| by eexists].
      intros _. by exists yd, md, dd.
    + split.
      * intros [date Hparsed]. congruence.
      * intros (yd' & md' & dd' & [= <- <- <-] & Hrest). done.
  - split.
    + intros [date Hparsed]. congruence.
    + by intros (? & ? & ? & ? & _).
Qed.

Lemma parseStartDate_accepts_witness :
  wellSpaced saoPaulo
  ∧ shortJumps saoPaulo
  ∧ ((∃ date, Cli.parseStartDate saoPaulo "2018-11-04" = Cli.Parsed date)
     ↔ ∃ yearDigits monthDigits dayDigits,
         matchIsoDate "2018-11-04" = Some (yearDigits, monthDigits, dayDigits)
         ∧ 100 ≤ numberOfDigits yearDigits
         ∧ 1 ≤ numberOfDigits monthDigits ≤ 12
         ∧ 1 ≤ numberOfDigits dayDigits
             ≤ daysInMonth (numberOfDigits yearDigits) (numberOfDigits monthDigits)).
Proof.
  assert (wellSpaced saoPaulo) as Hspaced
    by (repeat split; vm_compute; discriminate).
  assert (shortJumps saoPaulo) as Hjumps by (repeat split; vm_compute; reflexivity).
  split_and!; [exact Hspaced | exact Hjumps |].
  exact (parseStartDate_accepts saoPaulo "2018-11-04" Hspaced Hjumps).
Defined.

Lemma TimeClip_valid x t : TimeClip x = Some t → validTime t.
Proof.
  unfold TimeClip, validTime. case_decide; [done |]. intros [= <-]. lia.
Qed.

Lemma newDate_valid zone year monthIndex day t :
  newDate zone year monthIndex day = Some t → validTime t.
Proof. unfold newDate. apply TimeClip_valid. Qed.

Lemma newDate_midnight tza year monthIndex day t :
  newDate (fixedZone tza) year monthIndex day = Some t → TimeWithinDay (t + tza) = 0.
Proof.
  intros Hdate%newDate_local. rewrite Hdate. apply TimeWithinDay_MakeDate.
Qed.

Lemma jumpsWithin_short jump offset changes :
  jump < msPerDay → jumpsWithinFrom jump offset changes →
  shortJumpsFrom offset changes.
Proof.
  intros Hjump. revert offset.
  induction changes as [|[instant next] rest IH]; intros offset; [done |].
  intros [Hnext Hrest]. split; [lia | by apply IH].
Qed.

(** A date made from a year, a month and a day is at most as long after
    the local midnight of its day as a transition moves the clock. *)
Lemma newDate_near_midnight zone jump year monthIndex day t :
  wellSpaced zone → jumpsWithin jump zone → 0 ≤ jump < msPerDay →
  newDate zone year monthIndex day = Some t →
  0 ≤ TimeWithinDay (LocalTime zone t) ≤ jump.
Proof.
  intros Hspaced Hjumps Hjump. unfold newDate. intros ->%TimeClip_Some.
  unfold MakeDate. generalize (MakeDay (MakeFullYear year) monthIndex day). intros d.
  rewrite Z.add_0_r.
  pose proof (offsetOfLocal_within jump _ _ (d * msPerDay) Hspaced Hjumps (proj1 Hjump))
    as Hnear.
  cbn zeta in Hnear.
  fold (UTC zone (d * msPerDay)) in Hnear.
  fold (LocalTime zone (UTC zone (d * msPerDay))) in Hnear.
  revert Hnear. generalize (LocalTime zone (UTC zone (d * msPerDay))). intros local Hnear.
  unfold TimeWithinDay.
  rewrite <- (Z.mod_unique local msPerDay d (local - d * msPerDay)); [lia | left; lia | lia].
Qed.

(** X11.  A date that [parseStartDate] returns is never an invalid date:
    in every time zone it is a date whose local year, month and day are
    the ones that the value names.  In a zone that keeps one offset
    throughout it is the local midnight of that day.  In a zone whose
    offsets are of at most a day, whose transitions are at least two days
    apart and in which no transition moves the clock forward by more than
    [jump], less than a day, it is at most [jump] after that midnight. *)
Theorem parseStartDate_midnight zone value date :
  Cli.parseStartDate zone value = Cli.Parsed date →
  ∃ t yearDigits monthDigits dayDigits,
    date = Some t
    ∧ matchIsoDate value = Some (yearDigits, monthDigits, dayDigits)
    ∧ YearFromTime (LocalTime zone t) = numberOfDigits yearDigits
    ∧ MonthFromTime (LocalTime zone t) + 1 = numberOfDigits monthDigits
    ∧ DateFromTime (LocalTime zone t) = numberOfDigits dayDigits
    ∧ validTime t
    ∧ (transitions zone = [] → TimeWithinDay (LocalTime zone t) = 0)
    ∧ (∀ jump, wellSpaced zone → jumpsWithin jump zone → 0 ≤ jump < msPerDay →
               0 ≤ TimeWithinDay (LocalTime zone t) ≤ jump).
Proof.
  intros (yd & md & dd & t & Hmatch & -> & Hdate & Hy & Hm & Hd)%parseStartDate_Parsed.
  exists t, yd, md, dd.
  pose proof (newDate_valid _ _ _ _ _ Hdate) as Hvalid.
  split_and!; [done | done | exact Hy | | exact Hd | exact Hvalid | |].
  - rewrite Hm. lia.
  - intros Hfixed. destruct zone as [tza changes].
    cbn [transitions] in Hfixed. subst changes.
    exact (newDate_midnight _ _ _ _ _ Hdate).
  - intros jump Hspaced Hjumps Hjump.
    exact (newDate_near_midnight zone jump _ _ _ _ Hspaced Hjumps Hjump Hdate).
Qed.

Lemma parseStartDate_midnight_witness :
  (Cli.parseStartDate (fixedZone 36000000) "2024-02-29" = Cli.Parsed (Some 1709128800000)
   ∧ ∃ t yearDigits monthDigits dayDigits,
       Some 1709128800000 = Some t
       ∧ matchIsoDate "2024-02-29" = Some (yearDigits, monthDigits, dayDigits)
       ∧ YearFromTime (LocalTime (fixedZone 36000000) t) = numberOfDigits yearDigits
       ∧ MonthFromTime (LocalTime (fixedZone 36000000) t) + 1 = numberOfDigits monthDigits
       ∧ DateFromTime (LocalTime (fixedZone 36000000) t) = numberOfDigits dayDigits
       ∧ validTime t
       ∧ TimeWithinDay (LocalTime (fixedZone 36000000) t) = 0)
  ∧ Cli.parseStartDate saoPaulo "2018-11-04" = Cli.Parsed (Some 1541300400000)
  ∧ wellSpaced saoPaulo
  ∧ jumpsWithin 3600000 saoPaulo
  ∧ 0 ≤ 3600000 < msPerDay
  ∧ ∃ t yearDigits monthDigits dayDigits,
      Some 1541300400000 = Some t
      ∧ matchIsoDate "2018-11-04" = Some (yearDigits, monthDigits, dayDigits)
      ∧ YearFromTime (LocalTime saoPaulo t) = numberOfDigits yearDigits
      ∧ MonthFromTime (LocalTime saoPaulo t) + 1 = numberOfDigits monthDigits
      ∧ DateFromTime (LocalTime saoPaulo t) = numberOfDigits dayDigits
      ∧ validTime t
      ∧ 0 ≤ TimeWithinDay (LocalTime saoPaulo t) ≤ 3600000.
Proof.
  assert (Cli.parseStartDate (fixedZone 36000000) "2024-02-29"
          = Cli.Parsed (Some 1709128800000)) as Hparsed by (vm_compute; reflexivity).
  assert (Cli.parseStartDate saoPaulo "2018-11-04" = Cli.Parsed (Some 1541300400000))
    as Hparsed' by (vm_compute; reflexivity).
  assert (wellSpaced saoPaulo) as Hspaced
    by (repeat split; vm_compute; discriminate).
  assert (jumpsWithin 3600000 saoPaulo) as Hjumps
    by (repeat split; vm_compute; discriminate).
  assert (0 ≤ 3600000 < msPerDay) as Hjump
    by (split; [vm_compute; discriminate | vm_compute; reflexivity]).
  split_and!; [exact Hparsed | | exact Hparsed' | exact Hspaced | exact Hjumps
              | exact (proj1 Hjump) | exact (proj2 Hjump) |].
  - destruct (parseStartDate_midnight (fixedZone 36000000) "2024-02-29" _ Hparsed)
      as (t & yd & md & dd & Hdate & Hmatch & Hy & Hm & Hd & Hvalid & Hmidnight & _).
    exists t, yd, md, dd.
    split_and!; [exact Hdate | exact Hmatch | exact Hy | exact Hm | exact Hd | exact Hvalid
                | exact (Hmidnight eq_refl)].
  - destruct (parseStartDate_midnight saoPaulo "2018-11-04" _ Hparsed')
      as (t & yd & md & dd & Hdate & Hmatch & Hy & Hm & Hd & Hvalid & _ & Hnear).
    exists t, yd, md, dd.
    split_and!; [exact Hdate | exact Hmatch | exact Hy | exact Hm | exact Hd | exact Hvalid
                | exact (proj1 (Hnear 3600000 Hspaced Hjumps Hjump))
                | exact (proj2 (Hnear 3600000 Hspaced Hjumps Hjump))].
Defined.

(** Where daylight saving starts at a local midnight the date returned
    is not a local midnight: at Sao Paulo [2018-11-04] is read as 01:00
    of that day. *)
Lemma parseStartDate_skipped_midnight :
  Cli.parseStartDate saoPaulo "2018-11-04" = Cli.Parsed (Some 1541300400000)
  ∧ TimeWithinDay (LocalTime saoPaulo 1541300400000) = 3600000
  ∧ getLocalDateString saoPaulo (Some 1541300400000) = "2018-11-04".
Proof. split_and!; vm_compute; reflexivity. Qed.

(** Where a transition moves the clock forward by a whole day, a day of
    the calendar is refused: at Apia [2011-12-30] is read as a time on
    31 December. *)
Lemma parseStartDate_skipped_day :
  wellSpaced apia
  ∧ ¬ shortJumps apia
  ∧ Cli.parseStartDate apia "2011-12-30" = Cli.Failed Cli.InvalidStartDate.
Proof.
  split_and!.
  - repeat split; vm_compute; discriminate.
  - intros [Hjump _]. vm_compute in Hjump. discriminate Hjump.
  - vm_compute. reflexivity.
Qed.

Lemma fourDigits_short :
  Forall (λ a, Forall (λ b, Forall (λ c, Forall (λ d,
    (1000 ≤ numberOfDigits (Js.join [a; b; c; d])
     ∨ (String.length (pretty (numberOfDigits (Js.join [a; b; c; d]))) < 4)%nat))
   ["0"; "1"; "2"; "3"; "4"; "5"; "6"; "7"; "8"; "9"]%char)
   ["0"; "1"; "2"; "3"; "4"; "5"; "6"; "7"; "8"; "9"]%char)
   ["0"; "1"; "2"; "3"; "4"; "5"; "6"; "7"; "8"; "9"]%char)
   ["0"; "1"; "2"; "3"; "4"; "5"; "6"; "7"; "8"; "9"]%char.
Proof. apply (bool_decide_unpack _). vm_compute. exact I. Qed.

Lemma slice_to_app s t : Js.slice_to (String.length s) (s +:+ t) = s.
Proof.
  induction s as [|c s IH]; [by destruct t |].
  change (String c s +:+ t) with (String c (s +:+ t)). cbn [String.length Js.slice_to].
  by rewrite IH.
Qed.

Lemma year_digits yd :
  (∃ a b c d, yd = Js.join [a; b; c; d]
     ∧ isDigit a = true ∧ isDigit b = true ∧ isDigit c = true ∧ isDigit d = true) →
  String.length yd = 4%nat
  ∧ (1000 ≤ numberOfDigits yd → pretty (numberOfDigits yd) = yd)
  ∧ (numberOfDigits yd < 1000 → (String.length (pretty (numberOfDigits yd)) < 4)%nat).
Proof.
  intros (a & b & c & d & -> & Ha%digit_cases & Hb%digit_cases & Hc%digit_cases
            & Hd%digit_cases).
  pose proof fourDigits_pretty as Hlong. pose proof fourDigits_short as Hshort.
  rewrite Forall_forall in Hlong, Hshort.
  specialize (Hlong a Ha). specialize (Hshort a Ha).
  rewrite Forall_forall in Hlong, Hshort.
  specialize (Hlong b Hb). specialize (Hshort b Hb).
  rewrite Forall_forall in Hlong, Hshort.
  specialize (Hlong c Hc). specialize (Hshort c Hc).
  rewrite Forall_forall in Hlong, Hshort.
  specialize (Hlong d Hd). specialize (Hshort d Hd).
  split_and!; [done | |].
  - intros Hyear. destruct Hlong as [Hsmall | Hpretty]; [lia | done].
  - intros Hyear. destruct Hshort as [Hbig | Hlen]; [lia | done].
Qed.

Lemma pair_digits md :
  (∃ a b, md = Js.join [a; b] ∧ isDigit a = true ∧ isDigit b = true) →
  twoDigits (numberOfDigits md) = md ∧ String.length md = 2%nat.
Proof.
  intros (a & b & -> & Ha%digit_cases & Hb%digit_cases).
  pose proof twoDigits_digits as Hall.
  rewrite Forall_forall in Hall. specialize (Hall a Ha).
  rewrite Forall_forall in Hall. specialize (Hall b Hb). done.
Qed.

(** The date string of a parsed start date is the value with its year
    written as a number. *)
Lemma dateString_of_parsed zone value date :
  Cli.parseStartDate zone value = Cli.Parsed date →
  ∃ yd rest,
    value = yd +:+ rest
    ∧ String.length yd = 4%nat
    ∧ getLocalDateString zone date = pretty (numberOfDigits yd) +:+ rest
    ∧ (1000 ≤ numberOfDigits yd → pretty (numberOfDigits yd) = yd)
    ∧ (numberOfDigits yd < 1000 → (String.length (pretty (numberOfDigits yd)) < 4)%nat).
Proof.
  intros (yd & md & dd & t & Hmatch & -> & Hdate & Hy & Hm & Hd)%parseStartDate_Parsed.
  apply matchIsoDate_Some in Hmatch as (-> & Hyd & Hmd & Hdd).
  apply year_digits in Hyd as (Hlen & Hlong & Hshort).
  apply pair_digits in Hmd as (Hmonth & Hmlen).
  apply pair_digits in Hdd as (Hday & Hdlen).
  exists yd, ("-" +:+ md +:+ "-" +:+ dd). split_and!; [done | done | | done | done].
  rewrite getLocalDateString_valid, Hy, Hd.
  replace (MonthFromTime (LocalTime zone t) + 1) with (numberOfDigits md) by lia.
  by rewrite Hmonth, Hday.
Qed.

(** X12.  The date string of a parsed start date is the value that was
    parsed exactly when the year is 1000 or more; a year from 100 to 999
    is accepted but written back without its leading zero. *)
Theorem parseStartDate_round_trip zone value date :
  Cli.parseStartDate zone value = Cli.Parsed date →
  getLocalDateString zone date = value
  ↔ 1000 ≤ numberOfDigits (Js.slice_to 4 value).
Proof.
  intros (yd & rest & -> & Hlen & -> & Hlong & Hshort)%dateString_of_parsed.
  rewrite <- Hlen, slice_to_app. split.
  - intros Hsame. destruct (decide (1000 ≤ numberOfDigits yd)) as [| Hsmall]; [done |].
    exfalso. apply (f_equal String.length) in Hsame.
    rewrite !length_str_app in Hsame. specialize (Hshort ltac:(lia)). lia.
  - intros Hyear. by rewrite Hlong.
Qed.

Lemma parseStartDate_round_trip_witness :
  Cli.parseStartDate (fixedZone 36000000) "2024-02-29" = Cli.Parsed (Some 1709128800000)
  ∧ (getLocalDateString (fixedZone 36000000) (Some 1709128800000) = "2024-02-29"
     ↔ 1000 ≤ numberOfDigits (Js.slice_to 4 "2024-02-29")).
Proof.
  assert (Cli.parseStartDate (fixedZone 36000000) "2024-02-29" = Cli.Parsed (Some 1709128800000))
    as Hparsed by (vm_compute; reflexivity).
  split; [exact Hparsed |].
  exact (parseStartDate_round_trip (fixedZone 36000000) "2024-02-29" _ Hparsed).
Defined.

Lemma pretty_year_digits :
  Forall (λ y,
    length (Js.spread (pretty y)) = 4%nat
    ∧ forallb isDigit (Js.spread (pretty y)) = true
    ∧ numberOfDigits (pretty y) = y) (seqZ 1000 9000).
Proof. apply (bool_decide_unpack _). vm_compute. exact I. Qed.

Lemma twoDigits_number :
  Forall (λ z,
    length (Js.spread (twoDigits z)) = 2%nat
    ∧ forallb isDigit (Js.spread (twoDigits z)) = true
    ∧ numberOfDigits (twoDigits z) = z) (seqZ 1 31).
Proof. apply (bool_decide_unpack _). vm_compute. exact I. Qed.

Lemma matchIsoDate_dateString y m d :
  1000 ≤ y ≤ 9999 → 1 ≤ m ≤ 31 → 1 ≤ d ≤ 31 →
  matchIsoDate (pretty y +:+ "-" +:+ twoDigits m +:+ "-" +:+ twoDigits d)
  = Some (pretty y, twoDigits m, twoDigits d)
  ∧ numberOfDigits (pretty y) = y
  ∧ numberOfDigits (twoDigits m) = m
  ∧ numberOfDigits (twoDigits d) = d.
Proof.
  intros Hy Hm Hd.
  pose proof pretty_year_digits as Hyear. rewrite Forall_forall in Hyear.
  specialize (Hyear y ltac:(apply elem_of_seqZ; lia)).
  pose proof twoDigits_number as Htwo. rewrite Forall_forall in Htwo.
  pose proof (Htwo m ltac:(apply elem_of_seqZ; lia)) as Hmonth.
  pose proof (Htwo d ltac:(apply elem_of_seqZ; lia)) as Hday. clear Htwo.
  unfold matchIsoDate. rewrite !spread_app.
  rewrite <- (join_spread (pretty y)) at 2.
  rewrite <- (join_spread (twoDigits m)) at 2.
  rewrite <- (join_spread (twoDigits d)) at 2.
  destruct Hyear as (Hylen & Hydigits & Hyear).
  destruct Hmonth as (Hmlen & Hmdigits & Hmonth).
  destruct Hday as (Hdlen & Hddigits & Hday).
  destruct (Js.spread (pretty y)) as [|y1 [|y2 [|y3 [|y4 [|]]]]]; try done.
  destruct (Js.spread (twoDigits m)) as [|m1 [|m2 [|]]]; try done.
  destruct (Js.spread (twoDigits d)) as [|d1 [|d2 [|]]]; try done.
  cbn [forallb] in Hydigits, Hmdigits, Hddigits.
  repeat (apply andb_true_iff in Hydigits as [? Hydigits]).
  repeat (apply andb_true_iff in Hmdigits as [? Hmdigits]).
  repeat (apply andb_true_iff in Hddigits as [? Hddigits]).
  split_and!; [| done ..].
  change (Js.spread "-") with ["-"%char]. cbn [app forallb].
  repeat match goal with H : isDigit _ = true |- _ => rewrite H; clear H end.
  done.
Qed.

(** The string of the fields of a local time, parsed. *)
Lemma fields_parsed zone local :
  wellSpaced zone → shortJumps zone →
  1000 ≤ YearFromTime local ≤ 9999 →
  ∃ midnight,
    Cli.parseStartDate zone
      (pretty (YearFromTime local) +:+ "-" +:+ twoDigits (MonthFromTime local + 1)
       +:+ "-" +:+ twoDigits (DateFromTime local))
    = Cli.Parsed (Some midnight)
    ∧ midnight = UTC zone (Day local * msPerDay)
    ∧ Day (LocalTime zone midnight) = Day local.
Proof.
  intros Hspaced Hjumps Hyear.
  pose proof (MonthFromTime_range local) as Hm.
  pose proof (DateFromTime_in_month local) as Hd.
  pose proof (DateFromTime_range local) as Hd31.
  destruct (matchIsoDate_dateString (YearFromTime local) (MonthFromTime local + 1)
              (DateFromTime local))
    as (Hmatch & Hny & Hnm & Hnd); [lia .. |].
  pose proof (parseStartDate_cases zone Hspaced Hjumps
                (pretty (YearFromTime local) +:+ "-"
                 +:+ twoDigits (MonthFromTime local + 1)
                 +:+ "-" +:+ twoDigits (DateFromTime local))) as Hcases.
  rewrite Hmatch in Hcases. cbn zeta in Hcases.
  rewrite Hny, Hnm, Hnd in Hcases. rewrite decide_True in Hcases by lia.
  destruct Hcases as (midnight & Hparsed & Htime & _).
  exists midnight. split; [exact Hparsed |].
  assert (MakeDate (MakeDay (YearFromTime local) (MonthFromTime local + 1 - 1)
                      (DateFromTime local)) 0 = Day local * msPerDay) as Hlocal.
  { replace (MonthFromTime local + 1 - 1) with (MonthFromTime local) by lia.
    pose proof (MakeDay_of_fields local 0) as Hday. rewrite !Z.add_0_r in Hday.
    rewrite Hday. unfold MakeDate. lia. }
  rewrite Hlocal in Htime. split; [exact Htime |].
  rewrite Htime. by apply Day_LocalTime_UTC.
Qed.

(** X13.  In a time zone whose offsets are of at most a day, whose
    transitions are at least two days apart and in which no transition
    moves the clock forward by a day or more, the date string of a date
    whose local year is from 1000 to 9999 is accepted by
    [parseStartDate].  The date returned is the one that the zone gives
    for the midnight that starts the local day of the first date, and it
    lies on that same local day. *)
Theorem dateString_parses_back zone t :
  wellSpaced zone → shortJumps zone →
  1000 ≤ YearFromTime (LocalTime zone t) ≤ 9999 →
  ∃ midnight,
    Cli.parseStartDate zone (getLocalDateString zone (Some t))
      = Cli.Parsed (Some midnight)
    ∧ midnight = UTC zone (Day (LocalTime zone t) * msPerDay)
    ∧ Day (LocalTime zone midnight) = Day (LocalTime zone t).
Proof.
  intros Hspaced Hjumps Hyear. rewrite getLocalDateString_valid.
  by apply fields_parsed.
Qed.

Lemma dateString_parses_back_witness :
  wellSpaced saoPaulo
  ∧ shortJumps saoPaulo
  ∧ 1000 ≤ YearFromTime (LocalTime saoPaulo 1541340000000) ≤ 9999
  ∧ ∃ midnight,
      Cli.parseStartDate saoPaulo (getLocalDateString saoPaulo (Some 1541340000000))
      = Cli.Parsed (Some midnight)
      ∧ midnight = UTC saoPaulo (Day (LocalTime saoPaulo 1541340000000) * msPerDay)
      ∧ Day (LocalTime saoPaulo midnight) = Day (LocalTime saoPaulo 1541340000000).
Proof.
  assert (wellSpaced saoPaulo) as Hspaced
    by (repeat split; vm_compute; discriminate).
  assert (shortJumps saoPaulo) as Hjumps by (repeat split; vm_compute; reflexivity).
  assert (1000 ≤ YearFromTime (LocalTime saoPaulo 1541340000000) ≤ 9999) as Hyear
    by (vm_compute; split; discriminate).
  split_and!; [exact Hspaced | exact Hjumps | exact (proj1 Hyear) | exact (proj2 Hyear) |].
  exact (dateString_parses_back saoPaulo 1541340000000 Hspaced Hjumps Hyear).
Defined.

(** *** The days of a run *)

Lemma Day_of_day day : Day (LocalTime (fixedZone 0) (day * msPerDay)) = day.
Proof.
  rewrite LocalTime_fixed, Z.add_0_r. unfold Day. apply Z.div_mul. unfold msPerDay. lia.
Qed.

Lemma getLocalDateString_dayString zone t :
  getLocalDateString zone (Some t) = dayString (Day (LocalTime zone t)).
Proof.
  unfold dayString. rewrite !getLocalDateString_valid.
  destruct (fields_of_day (LocalTime (fixedZone 0) (Day (LocalTime zone t) * msPerDay))
              (LocalTime zone t) (Day_of_day _)) as (-> & -> & ->).
  done.
Qed.

Lemma dayString_inj day1 day2 : dayString day1 = dayString day2 → day1 = day2.
Proof.
  unfold dayString. intros Hday%getLocalDateString_day. by rewrite !Day_of_day in Hday.
Qed.

(** The date that [generatePuzzles] works on at an offset is on the local
    day that many days after the local day of the start date. *)
Lemma dateAt_day zone jump t offset :
  wellSpaced zone → jumpsWithin jump zone → 0 ≤ jump →
  TimeWithinDay (LocalTime zone t) + jump < msPerDay →
  validTime (t - 2 * msPerDay) →
  validTime (t + (Z.of_nat offset + 2) * msPerDay) →
  ∃ u, dateAt zone (Some t) offset = Some u
       ∧ Day (LocalTime zone u) = Day (LocalTime zone t) + Z.of_nat offset.
Proof.
  intros Hspaced Hjumps Hjump Htime Hfirst Hlast.
  unfold dateAt, setDate, getDate. cbn [fmap option_fmap option_map].
  rewrite MakeDay_of_fields.
  pose proof (LocalTime_bound zone t Hspaced) as Hlocal.
  pose proof (Z.div_mod (LocalTime zone t) msPerDay ltac:(done)) as Hsplit.
  pose proof (Z.mod_pos_bound (LocalTime zone t) msPerDay ltac:(done)) as Hmod.
  fold (Day (LocalTime zone t)) in Hsplit. fold (TimeWithinDay (LocalTime zone t)) in Hsplit, Hmod.
  remember (LocalTime zone t) as local eqn:Hl. clear Hl.
  revert Htime Hsplit Hmod. generalize (TimeWithinDay local) (Day local).
  intros time day Htime Hsplit Hmod.
  unfold MakeDate.
  pose proof (UTC_bound zone ((day + Z.of_nat offset) * msPerDay + time) Hspaced) as Hback.
  pose proof (offsetOfLocal_within jump _ _ ((day + Z.of_nat offset) * msPerDay + time)
                Hspaced Hjumps Hjump) as Hnear.
  cbn zeta in Hnear.
  fold (UTC zone ((day + Z.of_nat offset) * msPerDay + time)) in Hnear.
  fold (LocalTime zone (UTC zone ((day + Z.of_nat offset) * msPerDay + time))) in Hnear.
  revert Hback Hnear. generalize (UTC zone ((day + Z.of_nat offset) * msPerDay + time)).
  intros u Hback Hnear. exists u. split.
  - unfold TimeClip. apply decide_False.
    revert Hfirst Hlast. unfold validTime, msPerDay in *. lia.
  - revert Hnear. generalize (LocalTime zone u). intros local' Hnear.
    unfold Day. symmetry.
    apply (Z.div_unique _ _ _ (local' - (day + Z.of_nat offset) * msPerDay)).
    + left. unfold msPerDay in *. lia.
    + lia.
Qed.

Lemma dateStringAt_day zone jump t offset :
  wellSpaced zone → jumpsWithin jump zone → 0 ≤ jump →
  TimeWithinDay (LocalTime zone t) + jump < msPerDay →
  validTime (t - 2 * msPerDay) →
  validTime (t + (Z.of_nat offset + 2) * msPerDay) →
  dateStringAt zone (Some t) offset
  = dayString (Day (LocalTime zone t) + Z.of_nat offset).
Proof.
  intros Hspaced Hjumps Hjump Htime Hfirst Hlast. unfold dateStringAt.
  destruct (dateAt_day zone jump t offset) as (u & -> & <-); [done .. |].
  apply getLocalDateString_dayString.
Qed.

Lemma dayString_parsed zone day :
  wellSpaced zone → shortJumps zone → 1000 ≤ yearOfDay day ≤ 9999 →
  Cli.parseStartDate zone (dayString day)
  = Cli.Parsed (Some (UTC zone (day * msPerDay))).
Proof.
  intros Hspaced Hjumps Hyear. unfold dayString. rewrite getLocalDateString_valid.
  destruct (fields_parsed zone (LocalTime (fixedZone 0) (day * msPerDay)) Hspaced Hjumps)
    as (midnight & -> & -> & _).
  { unfold YearFromTime. by rewrite Day_of_day. }
  by rewrite Day_of_day.
Qed.

Lemma DayFromYear_0 : DayFromYear 0 = -719528.
Proof. vm_compute. reflexivity. Qed.

(** Dates of the years from 0 to 9999 are well within the range of
    [Date]. *)
Lemma days_valid zone t k :
  wellSpaced zone → 0 ≤ YearFromTime (LocalTime zone t) →
  yearOfDay (Day (LocalTime zone t) + Z.of_nat k) ≤ 9999 →
  validTime (t - 2 * msPerDay) ∧ validTime (t + (Z.of_nat k + 2) * msPerDay).
Proof.
  intros Hspaced Hlow Hhigh.
  pose proof (LocalTime_bound zone t Hspaced) as Hlocal.
  revert Hlow Hhigh Hlocal. unfold YearFromTime. generalize (LocalTime zone t).
  intros local Hlow Hhigh Hlocal.
  pose proof (yearOfDay_spec (Day local)) as Hspec1.
  pose proof (yearOfDay_spec (Day local + Z.of_nat k)) as Hspec2.
  pose proof (DayFromYear_mono 0 (yearOfDay (Day local)) Hlow) as Hmono1.
  pose proof (DayFromYear_mono (yearOfDay (Day local + Z.of_nat k) + 1) 10000 ltac:(lia))
    as Hmono2.
  rewrite DayFromYear_0 in Hmono1. rewrite DayFromYear_10000 in Hmono2.
  revert Hspec1 Hspec2 Hmono1 Hmono2.
  generalize (DayFromYear (yearOfDay (Day local)))
             (DayFromYear (yearOfDay (Day local) + 1))
             (DayFromYear (yearOfDay (Day local + Z.of_nat k)))
             (DayFromYear (yearOfDay (Day local + Z.of_nat k) + 1)).
  intros y1 y1' y2 y2' Hspec1 Hspec2 Hmono1 Hmono2.
  pose proof (Z.div_mod local msPerDay ltac:(done)) as Hsplit.
  pose proof (Z.mod_pos_bound local msPerDay ltac:(done)) as Hmod.
  fold (Day local) in Hsplit.
  revert Hspec1 Hspec2 Hsplit Hmod. generalize (Day local) (local mod msPerDay).
  intros day time Hspec1 Hspec2 Hsplit Hmod.
  unfold validTime, msPerDay in *. lia.
Qed.

Lemma year_valid tza x :
  Z.abs tza ≤ msPerDay → 100 ≤ YearFromTime (x + tza) ≤ 9999 → validTime x.
Proof.
  intros Htza Hyear. unfold YearFromTime in Hyear.
  pose proof (yearOfDay_spec (Day (x + tza))) as Hspec.
  pose proof (DayFromYear_mono 100 (yearOfDay (Day (x + tza))) ltac:(lia)) as Hlow.
  pose proof (DayFromYear_mono (yearOfDay (Day (x + tza)) + 1) 10000 ltac:(lia)) as Hhigh.
  rewrite DayFromYear_100 in Hlow. rewrite DayFromYear_10000 in Hhigh.
  revert Hspec Hlow Hhigh. generalize (yearOfDay (Day (x + tza))). intros y.
  unfold Day. revert Htza. unfold validTime, msPerDay. intros.
  pose proof (Z.div_mod (x + tza) 86400000 ltac:(lia)).
  pose proof (Z.mod_pos_bound (x + tza) 86400000 ltac:(lia)). lia.
Qed.

Lemma Day_add_days x k : Day (x + k * msPerDay) = Day x + k.
Proof. unfold Day. apply Z.div_add. unfold msPerDay. lia. Qed.

(** X14.  Take a time zone whose offsets are of at most a day, whose
    transitions are at least two days apart and in which no transition
    moves the clock forward by more than [jump], less than half a day.
    From a start date that [parseStartDate] returned, the date of the
    record at place [k] names the day [k] days after the local day of the
    start date: read back by [parseStartDate] it is the date that the
    zone gives for the midnight that starts that day, as long as the year
    of that day is from 1000 to 9999.  In a zone that keeps one offset
    throughout, this date is the start date moved on by [k] days. *)
Theorem generatePuzzles_dates_parse_back
    trimUpper zone jump words engine value startDate days :
  wellSpaced zone → jumpsWithin jump zone → 0 ≤ jump → 2 * jump < msPerDay →
  buildEngine trimUpper words = Returned engine →
  Cli.parseStartDate zone value = Cli.Parsed startDate →
  ∃ t puzzles,
    startDate = Some t
    ∧ generatePuzzles zone startDate days engine = Returned puzzles
    ∧ ∀ (k : nat) puzzle,
        puzzles !! k = Some puzzle →
        1000 ≤ yearOfDay (Day (LocalTime zone t) + Z.of_nat k) ≤ 9999 →
        Cli.parseStartDate zone (date puzzle)
        = Cli.Parsed (Some (UTC zone ((Day (LocalTime zone t) + Z.of_nat k) * msPerDay)))
        ∧ (transitions zone = [] →
           UTC zone ((Day (LocalTime zone t) + Z.of_nat k) * msPerDay)
           = t + Z.of_nat k * msPerDay).
Proof.
  intros Hspaced Hjumps Hjump Hhalf Hbuilt Hparsed.
  assert (shortJumps zone) as Hshort by (apply (jumpsWithin_short jump); [lia | done]).
  destruct (parseStartDate_Parsed _ _ _ Hparsed)
    as (yd & md & dd & t & Hmatch & -> & Hdate & Hfy & _).
  pose proof (newDate_near_midnight zone jump _ _ _ _ Hspaced Hjumps ltac:(lia) Hdate)
    as Hnear.
  pose proof (matchIsoDate_numbers _ _ _ _ Hmatch) as (Hdigits & _).
  destruct (generatePuzzles_built trimUpper zone words engine (Some t) days Hbuilt)
    as (puzzles & Hrun & Hall).
  exists t, puzzles. split_and!; [done | done |].
  intros k puzzle Hk Hyear. split.
  - assert (date puzzle = dateStringAt zone (Some t) k) as ->.
    { pose proof (puzzles_dates _ _ _ _ _ Hall) as Hdates.
      apply (f_equal (λ l, l !! k)) in Hdates.
      rewrite !list_lookup_fmap, Hk in Hdates. cbn in Hdates.
      rewrite lookup_seq_lt in Hdates.
      - cbn in Hdates. congruence.
      - apply lookup_lt_Some in Hk. apply Forall2_length in Hall.
        rewrite length_seq in Hall. lia. }
    destruct (days_valid zone t k Hspaced) as [Hfirst Hlast]; [lia | lia |].
    rewrite (dateStringAt_day zone jump); [| done | done | done | lia | done | done].
    by apply dayString_parsed.
  - intros Hfixed. destruct zone as [tza changes].
    cbn [transitions] in Hfixed. subst changes.
    change (mkZone tza []) with (fixedZone tza) in Hdate |- *.
    apply newDate_midnight in Hdate. rewrite UTC_fixed, LocalTime_fixed.
    pose proof (whole_days _ Hdate) as Hwhole.
    revert Hwhole. generalize (Day (t + tza)). intros. lia.
Qed.

Lemma generatePuzzles_dates_parse_back_witness :
  wellSpaced saoPaulo
  ∧ jumpsWithin 3600000 saoPaulo
  ∧ 0 ≤ 3600000
  ∧ 2 * 3600000 < msPerDay
  ∧ buildEngine trimUpperAscii bananas = Returned bananaEngine
  ∧ Cli.parseStartDate saoPaulo "2018-11-03" = Cli.Parsed (Some 1541214000000)
  ∧ ∃ t puzzles,
      Some 1541214000000 = Some t
      ∧ generatePuzzles saoPaulo (Some 1541214000000) 3 bananaEngine = Returned puzzles
      ∧ ∀ (k : nat) puzzle,
          puzzles !! k = Some puzzle →
          1000 ≤ yearOfDay (Day (LocalTime saoPaulo t) + Z.of_nat k) ≤ 9999 →
          Cli.parseStartDate saoPaulo (date puzzle)
          = Cli.Parsed
              (Some (UTC saoPaulo ((Day (LocalTime saoPaulo t) + Z.of_nat k) * msPerDay)))
          ∧ (transitions saoPaulo = [] →
             UTC saoPaulo ((Day (LocalTime saoPaulo t) + Z.of_nat k) * msPerDay)
             = t + Z.of_nat k * msPerDay).
Proof.
  assert (wellSpaced saoPaulo) as Hspaced
    by (repeat split; vm_compute; discriminate).
  assert (jumpsWithin 3600000 saoPaulo) as Hjumps
    by (repeat split; vm_compute; discriminate).
  assert (0 ≤ 3600000) as Hjump by (vm_compute; discriminate).
  assert (2 * 3600000 < msPerDay) as Hhalf by (vm_compute; reflexivity).
  assert (buildEngine trimUpperAscii bananas = Returned bananaEngine) as Hbuilt
    by (vm_compute; reflexivity).
  assert (Cli.parseStartDate saoPaulo "2018-11-03" = Cli.Parsed (Some 1541214000000))
    as Hparsed by (vm_compute; reflexivity).
  split_and!; [exact Hspaced | exact Hjumps | exact Hjump | exact Hhalf | exact Hbuilt
              | exact Hparsed |].
  exact (generatePuzzles_dates_parse_back trimUpperAscii saoPaulo 3600000 bananas
           bananaEngine "2018-11-03" _ 3 Hspaced Hjumps Hjump Hhalf Hbuilt Hparsed).
Defined.

(** At the offset 0 the date is the start date read again: its local
    time is that of the start date. *)
Lemma dateAt_first zone t :
  wellSpaced zone → 100 ≤ YearFromTime (LocalTime zone t) ≤ 9999 →
  dateAt zone (Some t) 0 = Some (UTC zone (LocalTime zone t)).
Proof.
  intros Hspaced Hyear. unfold dateAt, setDate, getDate.
  cbn [fmap option_fmap option_map]. rewrite MakeDay_of_fields.
  assert (MakeDate (Day (LocalTime zone t) + Z.of_nat 0) (TimeWithinDay (LocalTime zone t))
          = LocalTime zone t) as ->.
  { unfold MakeDate, Day, TimeWithinDay.
    pose proof (Z.div_mod (LocalTime zone t) msPerDay ltac:(done)). lia. }
  pose proof (UTC_bound zone (LocalTime zone t) Hspaced) as Hbound.
  revert Hyear Hbound. generalize (LocalTime zone t). intros local Hyear Hbound.
  assert (validTime (UTC zone local)) as Hvalid.
  { apply (year_valid (local - UTC zone local)); [lia |].
    by replace (UTC zone local + (local - UTC zone local)) with local by lia. }
  unfold TimeClip. apply decide_False. unfold validTime in Hvalid. lia.
Qed.

Lemma dateStringAt_first zone t :
  wellSpaced zone → 100 ≤ YearFromTime (LocalTime zone t) ≤ 9999 →
  dateStringAt zone (Some t) 0 = getLocalDateString zone (Some t).
Proof.
  intros Hspaced Hyear. unfold dateStringAt. rewrite dateAt_first by done.
  rewrite !getLocalDateString_valid. by rewrite LocalTime_UTC.
Qed.

(** The year of a parsed start date is the one that the value names. *)
Lemma year_of_parsed zone value t :
  Cli.parseStartDate zone value = Cli.Parsed (Some t) →
  YearFromTime (LocalTime zone t) = numberOfDigits (Js.slice_to 4 value)
  ∧ numberOfDigits (Js.slice_to 4 value) ≤ 9999.
Proof.
  intros (yd & md & dd & t' & Hmatch & [= <-] & _ & Hy & _)%parseStartDate_Parsed.
  pose proof (matchIsoDate_numbers _ _ _ _ Hmatch) as (Hdigits & _).
  apply matchIsoDate_Some in Hmatch as (-> & Hyd & _).
  apply year_digits in Hyd as (Hlen & _).
  rewrite <- Hlen, slice_to_app. split; [done | lia].
Qed.

(** X15.  In a time zone whose offsets are of at most a day and whose
    transitions are at least two days apart, from a start date that
    [parseStartDate] returned for a value with a year of 1000 or more,
    the first record carries that very value as its date. *)
Theorem generatePuzzles_first_date trimUpper zone words engine value startDate days :
  wellSpaced zone →
  buildEngine trimUpper words = Returned engine →
  Cli.parseStartDate zone value = Cli.Parsed startDate →
  1000 ≤ numberOfDigits (Js.slice_to 4 value) →
  ∃ puzzle puzzles,
    generatePuzzles zone startDate (S days) engine = Returned (puzzle :: puzzles)
    ∧ date puzzle = value.
Proof.
  intros Hspaced Hbuilt Hparsed Hyear.
  destruct (parseStartDate_Parsed _ _ _ Hparsed) as (yd' & md & dd & t & _ & -> & _).
  destruct (year_of_parsed _ _ _ Hparsed) as [Hfy Hmax].
  destruct (generatePuzzles_built trimUpper zone words engine (Some t) (S days) Hbuilt)
    as (puzzles & Hrun & Hall).
  pose proof (puzzles_dates _ _ _ _ _ Hall) as Hdates.
  destruct puzzles as [|puzzle puzzles]; [by apply Forall2_length in Hall |].
  exists puzzle, puzzles. split; [done |].
  cbn [seq fmap list_fmap] in Hdates. injection Hdates as Hfirst _. rewrite Hfirst.
  rewrite dateStringAt_first; [| done | rewrite Hfy; lia].
  destruct (dateString_of_parsed _ _ _ Hparsed)
    as (yd & rest & -> & Hlen & Hstring & Hlong & _).
  rewrite <- Hlen, slice_to_app in Hyear. rewrite (Hlong Hyear) in Hstring.
  exact Hstring.
Qed.

Lemma generatePuzzles_first_date_witness :
  wellSpaced apia
  ∧ buildEngine trimUpperAscii bananas = Returned bananaEngine
  ∧ Cli.parseStartDate apia "2011-12-29" = Cli.Parsed (Some 1325152800000)
  ∧ 1000 ≤ numberOfDigits (Js.slice_to 4 "2011-12-29")
  ∧ ∃ puzzle puzzles,
      generatePuzzles apia (Some 1325152800000) 3 bananaEngine
        = Returned (puzzle :: puzzles)
      ∧ date puzzle = "2011-12-29".
Proof.
  assert (wellSpaced apia) as Hspaced by (repeat split; vm_compute; discriminate).
  assert (buildEngine trimUpperAscii bananas = Returned bananaEngine) as Hbuilt
    by (vm_compute; reflexivity).
  assert (Cli.parseStartDate apia "2011-12-29" = Cli.Parsed (Some 1325152800000))
    as Hparsed by (vm_compute; reflexivity).
  assert (1000 ≤ numberOfDigits (Js.slice_to 4 "2011-12-29")) as Hyear
    by (vm_compute; discriminate).
  split_and!; [exact Hspaced | exact Hbuilt | exact Hparsed | exact Hyear |].
  exact (generatePuzzles_first_date trimUpperAscii apia bananas bananaEngine
           "2011-12-29" _ 2 Hspaced Hbuilt Hparsed Hyear).
Defined.

(** X23.  Take a time zone whose offsets are of at most a day, whose
    transitions are at least two days apart and in which no transition
    moves the clock forward by more than [jump], and a start date whose
    local time of day is earlier than [jump] before midnight.  As long as
    the dates from two days before the start date to two days after the
    last day are within the range of [Date], the record at place [k] is
    dated the calendar day [k] days after the local day of the start
    date, and no two records have the same date. *)
Theorem generatePuzzles_calendar_days trimUpper zone jump words engine t days :
  wellSpaced zone → jumpsWithin jump zone → 0 ≤ jump →
  buildEngine trimUpper words = Returned engine →
  TimeWithinDay (LocalTime zone t) + jump < msPerDay →
  validTime (t - 2 * msPerDay) →
  validTime (t + (Z.of_nat days + 1) * msPerDay) →
  ∃ puzzles,
    generatePuzzles zone (Some t) days engine = Returned puzzles
    ∧ date <$> puzzles
      = (λ k : nat, dayString (Day (LocalTime zone t) + Z.of_nat k)) <$> seq 0 days
    ∧ NoDup (date <$> puzzles).
Proof.
  intros Hspaced Hjumps Hjump Hbuilt Htime Hfirst Hlast.
  destruct (generatePuzzles_built trimUpper zone words engine (Some t) days Hbuilt)
    as (puzzles & Hrun & Hall).
  exists puzzles. split; [exact Hrun |].
  assert (date <$> puzzles
          = (λ k : nat, dayString (Day (LocalTime zone t) + Z.of_nat k)) <$> seq 0 days)
    as Hdates.
  { rewrite (puzzles_dates _ _ _ _ _ Hall). apply list_fmap_ext.
    intros i k Hk. apply lookup_seq in Hk as [-> Hi].
    apply (dateStringAt_day zone jump); [done .. |].
    revert Hfirst Hlast. unfold validTime, msPerDay. lia. }
  split; [exact Hdates |]. rewrite Hdates.
  apply NoDup_fmap_2; [| apply NoDup_seq].
  intros k1 k2 Hsame%dayString_inj. lia.
Qed.

Lemma generatePuzzles_calendar_days_witness :
  wellSpaced saoPaulo
  ∧ jumpsWithin 3600000 saoPaulo
  ∧ 0 ≤ 3600000
  ∧ buildEngine trimUpperAscii bananas = Returned bananaEngine
  ∧ TimeWithinDay (LocalTime saoPaulo 1541214000000) + 3600000 < msPerDay
  ∧ validTime (1541214000000 - 2 * msPerDay)
  ∧ validTime (1541214000000 + (Z.of_nat 3 + 1) * msPerDay)
  ∧ ∃ puzzles,
      generatePuzzles saoPaulo (Some 1541214000000) 3 bananaEngine = Returned puzzles
      ∧ date <$> puzzles
        = (λ k : nat, dayString (Day (LocalTime saoPaulo 1541214000000) + Z.of_nat k))
            <$> seq 0 3
      ∧ NoDup (date <$> puzzles).
Proof.
  assert (wellSpaced saoPaulo) as Hspaced
    by (repeat split; vm_compute; discriminate).
  assert (jumpsWithin 3600000 saoPaulo) as Hjumps
    by (repeat split; vm_compute; discriminate).
  assert (0 ≤ 3600000) as Hjump by (vm_compute; discriminate).
  assert (buildEngine trimUpperAscii bananas = Returned bananaEngine) as Hbuilt
    by (vm_compute; reflexivity).
  assert (TimeWithinDay (LocalTime saoPaulo 1541214000000) + 3600000 < msPerDay) as Htime
    by (vm_compute; reflexivity).
  assert (validTime (1541214000000 - 2 * msPerDay)) as Hfirst
    by (vm_compute; discriminate).
  assert (validTime (1541214000000 + (Z.of_nat 3 + 1) * msPerDay)) as Hlast
    by (vm_compute; discriminate).
  split_and!; [exact Hspaced | exact Hjumps | exact Hjump | exact Hbuilt | exact Htime
              | exact Hfirst | exact Hlast |].
  exact (generatePuzzles_calendar_days trimUpperAscii saoPaulo 3600000 bananas
           bananaEngine 1541214000000 3 Hspaced Hjumps Hjump Hbuilt Htime Hfirst Hlast).
Defined.

(** The run of the witness crosses the start of daylight saving, where
    the midnight of the second day is skipped. *)
Lemma generatePuzzles_calendar_days_run :
  ∃ puzzles,
    generatePuzzles saoPaulo (Some 1541214000000) 3 bananaEngine = Returned puzzles
    ∧ date <$> puzzles = ["2018-11-03"; "2018-11-04"; "2018-11-05"].
Proof. eexists. split; [vm_compute; reflexivity |]. reflexivity. Qed.

End StartDateFacts.

(** ** The command line *)

Section CommandLineFacts.

Import JsDate.
Local Open Scope Z_scope.

Lemma slice_from_app s t : Js.slice_from (String.length s) (s +:+ t) = t.
Proof.
  induction s as [|c s IH]; [by destruct t |].
  change (String c s +:+ t) with (String c (s +:+ t)). by cbn [String.length Js.slice_from].
Qed.

Lemma startsWith_app prefix value : Cli.startsWith prefix (prefix +:+ value) = true.
Proof.
  unfold Cli.startsWith. induction prefix as [|c prefix IH]; [by destruct value |].
  change (String c prefix +:+ value) with (String c (prefix +:+ value)).
  cbn [String.prefix]. by destruct (ascii_dec c c).
Qed.

Ltac token_fact :=
  first [ apply startsWith_app
        | apply (slice_from_app "--days=")
        | apply (slice_from_app "--start=")
        | apply (slice_from_app "--out=")
        | apply (slice_from_app "--words=")
        | by vm_compute
        | let H := fresh in intros H; vm_compute in H; discriminate H ].

Lemma days_token value :
  let token := "--days=" +:+ value in
  ¬ (token = "--help" ∨ token = "-h") ∧ token ≠ "--days"
  ∧ Cli.startsWith "--days=" token = true
  ∧ Js.slice_from 7 token = value.
Proof. cbn zeta. split_and!; [intros [H | H]; revert H |..]; token_fact. Qed.

Lemma start_token value :
  let token := "--start=" +:+ value in
  ¬ (token = "--help" ∨ token = "-h") ∧ token ≠ "--days"
  ∧ Cli.startsWith "--days=" token = false
  ∧ token ≠ "--start"
  ∧ Cli.startsWith "--start=" token = true
  ∧ Js.slice_from 8 token = value.
Proof. cbn zeta. split_and!; [intros [H | H]; revert H |..]; token_fact. Qed.

Lemma out_token value :
  let token := "--out=" +:+ value in
  ¬ (token = "--help" ∨ token = "-h") ∧ token ≠ "--days"
  ∧ Cli.startsWith "--days=" token = false
  ∧ token ≠ "--start"
  ∧ Cli.startsWith "--start=" token = false
  ∧ token ≠ "--out"
  ∧ Cli.startsWith "--out=" token = true
  ∧ Js.slice_from 6 token = value.
Proof. cbn zeta. split_and!; [intros [H | H]; revert H |..]; token_fact. Qed.

Lemma words_token value :
  let token := "--words=" +:+ value in
  ¬ (token = "--help" ∨ token = "-h") ∧ token ≠ "--days"
  ∧ Cli.startsWith "--days=" token = false
  ∧ token ≠ "--start"
  ∧ Cli.startsWith "--start=" token = false
  ∧ token ≠ "--out"
  ∧ Cli.startsWith "--out=" token = false
  ∧ token ≠ "--words"
  ∧ Cli.startsWith "--words=" token = true
  ∧ Js.slice_from 8 token = value.
Proof. cbn zeta. split_and!; [intros [H | H]; revert H |..]; token_fact. Qed.

Section ArgFacts.

Variable zone : Zone.
Variable jump : Z.
Variable resolve : string → string → string.
Variable parseInt10 : option string → option Z.
Variable now : option Z.

(** X16.  A flag followed by its value as the next argument, and the flag
    joined to the same value by an equals sign, are read alike, whatever
    the value, the arguments after it and the options so far. *)
Theorem flag_spellings rootDir value rest options :
  Cli.parseTokens zone resolve parseInt10 rootDir ("--days" :: value :: rest) options
  = Cli.parseTokens zone resolve parseInt10 rootDir (("--days=" +:+ value) :: rest) options
  ∧ Cli.parseTokens zone resolve parseInt10 rootDir ("--start" :: value :: rest) options
    = Cli.parseTokens zone resolve parseInt10 rootDir (("--start=" +:+ value) :: rest)
        options
  ∧ Cli.parseTokens zone resolve parseInt10 rootDir ("--out" :: value :: rest) options
    = Cli.parseTokens zone resolve parseInt10 rootDir (("--out=" +:+ value) :: rest) options
  ∧ Cli.parseTokens zone resolve parseInt10 rootDir ("--words" :: value :: rest) options
    = Cli.parseTokens zone resolve parseInt10 rootDir (("--words=" +:+ value) :: rest)
        options.
Proof.
  split_and!.
  - destruct (days_token value) as (Hhelp & Hdays & Hprefix & Hslice).
    generalize dependent ("--days=" +:+ value). intros token Hhelp Hdays Hprefix <-.
    cbn [Cli.parseTokens].
    by rewrite (decide_False _ _ Hhelp), (decide_False _ _ Hdays), Hprefix.
  - destruct (start_token value) as (Hhelp & Hdays & Hp1 & Hstart & Hp2 & Hslice).
    generalize dependent ("--start=" +:+ value).
    intros token Hhelp Hdays Hp1 Hstart Hp2 <-.
    cbn [Cli.parseTokens].
    by rewrite (decide_False _ _ Hhelp), (decide_False _ _ Hdays), Hp1,
      (decide_False _ _ Hstart), Hp2.
  - destruct (out_token value) as (Hhelp & Hdays & Hp1 & Hstart & Hp2 & Hout & Hp3 & Hslice).
    generalize dependent ("--out=" +:+ value).
    intros token Hhelp Hdays Hp1 Hstart Hp2 Hout Hp3 <-.
    cbn [Cli.parseTokens].
    by rewrite (decide_False _ _ Hhelp), (decide_False _ _ Hdays), Hp1,
      (decide_False _ _ Hstart), Hp2, (decide_False _ _ Hout), Hp3.
  - destruct (words_token value)
      as (Hhelp & Hdays & Hp1 & Hstart & Hp2 & Hout & Hp3 & Hwords & Hp4 & Hslice).
    generalize dependent ("--words=" +:+ value).
    intros token Hhelp Hdays Hp1 Hstart Hp2 Hout Hp3 Hwords Hp4 <-.
    cbn [Cli.parseTokens].
    by rewrite (decide_False _ _ Hhelp), (decide_False _ _ Hdays), Hp1,
      (decide_False _ _ Hstart), Hp2, (decide_False _ _ Hout), Hp3,
      (decide_False _ _ Hwords), Hp4.
Qed.


Section UsableStart.

Hypothesis Hspaced : wellSpaced zone.
Hypothesis Hjumps : jumpsWithin jump zone.
Hypothesis Hjump : 0 ≤ jump < msPerDay.

Lemma parseStartDate_usable value date days out words :
  Cli.parseStartDate zone value = Cli.Parsed date →
  usableStart zone jump (Cli.mkOptions days out words date).
Proof using Hspaced Hjumps Hjump.
  intros (yd & md & dd & t & _ & -> & Hdate & _)%parseStartDate_Parsed.
  exists t. split; [done |]. split.
  - by apply (newDate_near_midnight zone jump) in Hdate.
  - by apply newDate_valid in Hdate.
Qed.

Lemma parseTokens_usable rootDir argv options options' :
  usableStart zone jump options →
  Cli.parseTokens zone resolve parseInt10 rootDir argv options = Cli.Parsed options' →
  usableStart zone jump options'.
Proof using Hspaced Hjumps Hjump.
  remember (length argv) as n eqn:Hn. revert argv options Hn.
  induction n as [n IH] using lt_wf_ind. intros argv options Hn Husable Hrun.
  destruct argv as [|token rest]; [by injection Hrun as <- |].
  cbn [Cli.parseTokens] in Hrun. cbn [length] in Hn.
  repeat match type of Hrun with
         | context [decide ?P] => destruct (decide P)
         | context [Cli.startsWith ?p ?t] => destruct (Cli.startsWith p t)
         | context [match ?l with [] => _ | _ => _ end] => destruct l
         | context [Cli.parseStartDate ?tz ?v] =>
           let H := fresh "Hparsed" in destruct (Cli.parseStartDate tz v) eqn:H
         end;
    try discriminate Hrun;
    try (injection Hrun as <-);
    try (eapply parseStartDate_usable; eassumption);
    try (eapply (IH _ _ _ _ eq_refl); [| exact Hrun];
         first [ exact Husable | eapply parseStartDate_usable; eassumption ]);
    try exact Husable.
  Unshelve. all: cbn [length] in *; lia.
Qed.

End UsableStart.

(** X17.  Take a time zone whose offsets are of at most a day, whose
    transitions are at least two days apart and in which no transition
    moves the clock forward by more than [jump], less than a day.  While
    the clock shows a year from 100 to 9999, options that [parseArgs]
    returns always hold a positive whole number of days and a start date
    that is a valid date at most [jump] after a local midnight, whatever
    the arguments were: a local midnight where [jump] is 0, as in a zone
    that keeps one offset throughout. *)
Theorem parseArgs_usable argv rootDir options clock :
  wellSpaced zone → jumpsWithin jump zone → 0 ≤ jump < msPerDay →
  now = Some clock →
  100 ≤ YearFromTime (LocalTime zone clock) ≤ 9999 →
  Cli.parseArgs zone resolve parseInt10 now argv rootDir = Cli.Parsed options →
  (∃ n, Cli.days options = Some n ∧ 0 < n)
  ∧ ∃ t, Cli.startDate options = Some t
         ∧ 0 ≤ TimeWithinDay (LocalTime zone t) ≤ jump ∧ validTime t.
Proof.
  intros Hspaced Hjumps Hjump Hnow Hyear. unfold Cli.parseArgs.
  destruct (Cli.parseTokens _ _ _ _ _ _) as [parsed | |] eqn:Hrun; [| done ..].
  destruct (Cli.days parsed) as [n|] eqn:Hdays; [| done].
  case_decide as Hpositive; [done |]. intros [= <-]. split.
  - exists n. split; [done | lia].
  - eapply (parseTokens_usable Hspaced Hjumps Hjump); [| exact Hrun].
    assert (shortJumps zone) as Hshort by (apply (jumpsWithin_short jump); [lia | done]).
    unfold usableStart, Cli.defaultOptions. cbn [Cli.startDate]. subst now.
    destruct (getters_valid zone clock) as (-> & -> & ->).
    pose proof (MonthFromTime_range (LocalTime zone clock)) as Hm.
    pose proof (DateFromTime_in_month (LocalTime zone clock)) as Hd.
    revert Hyear Hm Hd. generalize (LocalTime zone clock). intros local Hyear Hm Hd.
    destruct (newDate_fields zone Hspaced Hshort (YearFromTime local)
                (MonthFromTime local + 1) (DateFromTime local))
      as (t & Hdate & _); [lia .. |].
    replace (MonthFromTime local + 1 - 1) with (MonthFromTime local) in Hdate by lia.
    exists t. split; [done |]. split; [| by apply newDate_valid in Hdate].
    by apply (newDate_near_midnight zone jump) in Hdate.
Qed.

End ArgFacts.

Lemma parseArgs_usable_witness :
  wellSpaced saoPaulo
  ∧ jumpsWithin 3600000 saoPaulo
  ∧ 0 ≤ 3600000 < msPerDay
  ∧ 100 ≤ YearFromTime (LocalTime saoPaulo 1541340000000) ≤ 9999
  ∧ ∃ options,
      Cli.parseArgs saoPaulo joinPath parseDigits (Some 1541340000000)
        ["--days"; "3"] "/repo" = Cli.Parsed options
      ∧ (∃ n, Cli.days options = Some n ∧ 0 < n)
      ∧ ∃ t, Cli.startDate options = Some t
             ∧ 0 ≤ TimeWithinDay (LocalTime saoPaulo t) ≤ 3600000 ∧ validTime t.
Proof.
  assert (wellSpaced saoPaulo) as Hspaced
    by (repeat split; vm_compute; discriminate).
  assert (jumpsWithin 3600000 saoPaulo) as Hjumps
    by (repeat split; vm_compute; discriminate).
  assert (0 ≤ 3600000 < msPerDay) as Hjump
    by (split; [vm_compute; discriminate | vm_compute; reflexivity]).
  assert (100 ≤ YearFromTime (LocalTime saoPaulo 1541340000000) ≤ 9999) as Hyear
    by (vm_compute; split; discriminate).
  assert (∃ options,
            Cli.parseArgs saoPaulo joinPath parseDigits (Some 1541340000000)
              ["--days"; "3"] "/repo" = Cli.Parsed options)
    as [options Hparsed] by (eexists; vm_compute; reflexivity).
  split_and!; [exact Hspaced | exact Hjumps | exact (proj1 Hjump) | exact (proj2 Hjump)
              | exact (proj1 Hyear) | exact (proj2 Hyear) |].
  exists options. split; [exact Hparsed |].
  exact (parseArgs_usable saoPaulo 3600000 joinPath parseDigits (Some 1541340000000)
           ["--days"; "3"] "/repo" options 1541340000000
           Hspaced Hjumps Hjump eq_refl Hyear Hparsed).
Defined.

(** The start date of that call is 01:00 on 4 November 2018, the first
    moment of a day whose midnight the clock never shows. *)
Lemma parseArgs_skipped_midnight :
  ∃ options,
    Cli.parseArgs saoPaulo joinPath parseDigits (Some 1541340000000)
      ["--days"; "3"] "/repo" = Cli.Parsed options
    ∧ Cli.startDate options = Some 1541300400000
    ∧ TimeWithinDay (LocalTime saoPaulo 1541300400000) = 3600000.
Proof. eexists. split_and!; vm_compute; reflexivity. Qed.

End CommandLineFacts.

(** ** Records *)

Lemma puzzleAt_same_date zone1 zone2 start1 start2 engine k1 k2 :
  dateStringAt zone1 start1 k1 = dateStringAt zone2 start2 k2 →
  puzzleAt zone1 start1 engine k1 = puzzleAt zone2 start2 engine k2.
Proof. unfold puzzleAt. by intros ->. Qed.

(** X18.  The record of a date depends on the engine and on the date
    string alone: two runs of [generatePuzzles] on the same engine, from
    any start dates, for any numbers of days and under any local offsets,
    hold the same record wherever they hold records of the same date. *)
Theorem generatePuzzles_same_date
    trimUpper rawWords engine zone1 zone2 start1 start2 days1 days2
    puzzles1 puzzles2 k1 k2 puzzle1 puzzle2 :
  buildEngine trimUpper rawWords = Returned engine →
  generatePuzzles zone1 start1 days1 engine = Returned puzzles1 →
  generatePuzzles zone2 start2 days2 engine = Returned puzzles2 →
  puzzles1 !! k1 = Some puzzle1 →
  puzzles2 !! k2 = Some puzzle2 →
  date puzzle1 = date puzzle2 →
  puzzle1 = puzzle2.
Proof.
  intros Hbuilt Hrun1 Hrun2 Hk1 Hk2 Hdate.
  destruct (generatePuzzles_built trimUpper zone1 rawWords engine start1 days1 Hbuilt)
    as (found1 & Hfound1 & Hall1).
  destruct (generatePuzzles_built trimUpper zone2 rawWords engine start2 days2 Hbuilt)
    as (found2 & Hfound2 & Hall2).
  assert (found1 = puzzles1) as -> by congruence.
  assert (found2 = puzzles2) as -> by congruence.
  destruct (Forall2_lookup_r _ _ _ _ _ Hall1 Hk1) as (i1 & Hi1 & Hat1).
  destruct (Forall2_lookup_r _ _ _ _ _ Hall2 Hk2) as (i2 & Hi2 & Hat2).
  rewrite (puzzleAt_date _ _ _ _ _ Hat1), (puzzleAt_date _ _ _ _ _ Hat2) in Hdate.
  rewrite (puzzleAt_same_date _ _ _ _ engine _ _ Hdate) in Hat1. congruence.
Qed.

Lemma generatePuzzles_same_date_witness :
  ∃ puzzles1 puzzles2 puzzle1 puzzle2,
    buildEngine trimUpperAscii bananas = Returned bananaEngine
    ∧ generatePuzzles (JsDate.fixedZone 0) (Some 1704067200000%Z) 3 bananaEngine = Returned puzzles1
    ∧ generatePuzzles (JsDate.fixedZone 36000000) (Some 1704117600000%Z) 2 bananaEngine
      = Returned puzzles2
    ∧ puzzles1 !! 1 = Some puzzle1
    ∧ puzzles2 !! 0 = Some puzzle2
    ∧ date puzzle1 = date puzzle2
    ∧ puzzle1 = puzzle2.
Proof.
  assert (buildEngine trimUpperAscii bananas = Returned bananaEngine) as Hbuilt
    by (vm_compute; reflexivity).
  assert (∃ puzzles1,
            generatePuzzles (JsDate.fixedZone 0) (Some 1704067200000%Z) 3 bananaEngine
              = Returned puzzles1)
    as [puzzles1 Hrun1] by (eexists; vm_compute; reflexivity).
  assert (∃ puzzles2,
            generatePuzzles (JsDate.fixedZone 36000000) (Some 1704117600000%Z) 2 bananaEngine
            = Returned puzzles2)
    as [puzzles2 Hrun2] by (eexists; vm_compute; reflexivity).
  assert (∃ puzzle1, puzzles1 !! 1 = Some puzzle1) as [puzzle1 Hk1].
  { destruct (generatePuzzles_built trimUpperAscii (JsDate.fixedZone 0) bananas bananaEngine
                (Some 1704067200000%Z) 3 Hbuilt) as (found & Hfound & Hall).
    assert (found = puzzles1) as -> by congruence.
    apply Forall2_length in Hall. apply lookup_lt_is_Some_2.
    rewrite <- Hall, length_seq. lia. }
  assert (∃ puzzle2, puzzles2 !! 0 = Some puzzle2) as [puzzle2 Hk2].
  { destruct (generatePuzzles_built trimUpperAscii (JsDate.fixedZone 36000000) bananas bananaEngine
                (Some 1704117600000%Z) 2 Hbuilt) as (found & Hfound & Hall).
    assert (found = puzzles2) as -> by congruence.
    apply Forall2_length in Hall. apply lookup_lt_is_Some_2.
    rewrite <- Hall, length_seq. lia. }
  assert (date puzzle1 = date puzzle2) as Hdate.
  { destruct (generatePuzzles_built trimUpperAscii (JsDate.fixedZone 0) bananas bananaEngine
                (Some 1704067200000%Z) 3 Hbuilt) as (found1 & Hfound1 & Hall1).
    assert (found1 = puzzles1) as -> by congruence.
    destruct (generatePuzzles_built trimUpperAscii (JsDate.fixedZone 36000000) bananas bananaEngine
                (Some 1704117600000%Z) 2 Hbuilt) as (found2 & Hfound2 & Hall2).
    assert (found2 = puzzles2) as -> by congruence.
    destruct (Forall2_lookup_r _ _ _ _ _ Hall1 Hk1) as (i1 & Hi1 & Hat1).
    destruct (Forall2_lookup_r _ _ _ _ _ Hall2 Hk2) as (i2 & Hi2 & Hat2).
    apply lookup_seq in Hi1 as [-> _]. apply lookup_seq in Hi2 as [-> _].
    rewrite (puzzleAt_date _ _ _ _ _ Hat1), (puzzleAt_date _ _ _ _ _ Hat2).
    vm_compute. reflexivity. }
  exists puzzles1, puzzles2, puzzle1, puzzle2.
  split_and!; [exact Hbuilt | exact Hrun1 | exact Hrun2 | exact Hk1 | exact Hk2
              | exact Hdate |].
  exact (generatePuzzles_same_date trimUpperAscii bananas bananaEngine
           (JsDate.fixedZone 0) (JsDate.fixedZone 36000000)
           _ _ 3 2 puzzles1 puzzles2 1 0 puzzle1 puzzle2
           Hbuilt Hrun1 Hrun2 Hk1 Hk2 Hdate).
Defined.

Lemma puzzleAt_record trimUpper rawWords zone startDate engine offset puzzle :
  buildEngine trimUpper rawWords = Returned engine →
  puzzleAt zone startDate engine offset = Returned puzzle →
  startWord puzzle ∈ validSevenLetterWords engine
  ∧ ∃ w6 w5 w4 w3,
      words puzzle = [startWord puzzle; w6; w5; w4; w3]
      ∧ solution puzzle = {| six := w6; five := w5; four := w4; three := w3 |}
      ∧ Descent (engineBuckets engine) (startWord puzzle) (words puzzle).
Proof.
  intros Hbuilt.
  pose proof (buildEngine_Returned _ _ _ Hbuilt) as (_ & _ & _ & Hwf & _).
  unfold puzzleAt, startWordFor.
  destruct (mulberry32 _) as [r random].
  destruct (if decide _ then _ else _) as [chosen|] eqn:Hchosen; [| done].
  case_decide; [| done]. apply list_elem_of_lookup_2 in Hchosen.
  pose proof (proj1 (validSevenLetterWords_elem _ _ _ chosen Hbuilt) Hchosen)
    as (_ & Hlen & _).
  destruct (chainFrom_found (engineBuckets engine) Hwf mulberry32 mulberry32_unitRange
              (S (String.length chosen)) chosen random)
    as (found & random' & Hrun & Hfound); [lia | lia |].
  rewrite Hrun.
  destruct found as [[|w7 [|w6 [|w5 [|w4 [|w3 [|w2 rest]]]]]]|]; try done.
  intros [= <-]. cbn. split; [done |].
  destruct (Descent_of_seven _ _ _ Hwf Hfound Hlen)
    as (x6 & x5 & x4 & x3 & [= -> -> -> -> ->] & _).
  by exists x6, x5, x4, x3.
Qed.

(** X19.  Every record that [generatePuzzles] returns with an engine that
    [buildEngine] returned has a start word from the list of start words
    and holds five words, all of the dictionary, of 7, 6, 5, 4 and 3
    letters: the start word first, then the four words of its solution in
    the order six, five, four, three, each made of the letters of the
    word before it with one letter left out. *)
Theorem generatePuzzles_records trimUpper zone rawWords engine startDate days puzzles :
  buildEngine trimUpper rawWords = Returned engine →
  generatePuzzles zone startDate days engine = Returned puzzles →
  ∀ puzzle, puzzle ∈ puzzles →
    startWord puzzle ∈ validSevenLetterWords engine
    ∧ ∃ w6 w5 w4 w3,
        words puzzle = [startWord puzzle; w6; w5; w4; w3]
        ∧ solution puzzle = {| six := w6; five := w5; four := w4; three := w3 |}
        ∧ Forall (λ word, word ∈ dictionary engine) (words puzzle)
        ∧ String.length <$> words puzzle = [7; 6; 5; 4; 3]
        ∧ ∀ i longer shorter,
            words puzzle !! i = Some longer → words puzzle !! S i = Some shorter →
            ∃ c, Js.spread longer ≡ₚ c :: Js.spread shorter.
Proof.
  intros Hbuilt Hrun puzzle Hin.
  destruct (generatePuzzles_built trimUpper zone rawWords engine startDate days Hbuilt)
    as (found & Hfound & Hall).
  assert (found = puzzles) as -> by congruence.
  apply list_elem_of_lookup_1 in Hin as [k Hk].
  destruct (Forall2_lookup_r _ _ _ _ _ Hall Hk) as (i & _ & Hat).
  destruct (puzzleAt_record _ _ _ _ _ _ _ Hbuilt Hat)
    as (Hstart & w6 & w5 & w4 & w3 & Hwords & Hsolution & Hchain).
  split; [done |]. exists w6, w5, w4, w3. split_and!; [done | done | | |].
  - pose proof (buildEngine_Returned _ _ _ Hbuilt) as (Hdict & Hbuckets & _ & Hwf & _).
    pose proof (proj1 (validSevenLetterWords_elem _ _ _ _ Hbuilt) Hstart)
      as (Hfirst & _).
    destruct (Descent_shape _ _ _ Hwf Hchain) as (_ & _ & _ & Hsteps).
    rewrite Hbuckets in Hsteps. rewrite Hdict.
    rewrite Hwords in Hsteps |- *.
    repeat apply Forall_cons_2; [done | | | | | done].
    + pose proof (Hsteps 0 (startWord puzzle) w6 eq_refl eq_refl) as Hstep.
      by apply nextWords_dictionary in Hstep as (_ & ? & _).
    + pose proof (Hsteps 1 w6 w5 eq_refl eq_refl) as Hstep.
      by apply nextWords_dictionary in Hstep as (_ & ? & _).
    + pose proof (Hsteps 2 w5 w4 eq_refl eq_refl) as Hstep.
      by apply nextWords_dictionary in Hstep as (_ & ? & _).
    + pose proof (Hsteps 3 w4 w3 eq_refl eq_refl) as Hstep.
      by apply nextWords_dictionary in Hstep as (_ & ? & _).
  - pose proof (buildEngine_Returned _ _ _ Hbuilt) as (_ & _ & _ & Hwf & _).
    pose proof (proj1 (validSevenLetterWords_elem _ _ _ _ Hbuilt) Hstart)
      as (_ & Hlen & _).
    destruct (Descent_of_seven _ _ _ Hwf Hchain Hlen)
      as (x6 & x5 & x4 & x3 & Heq & H6 & H5 & H4 & H3 & _).
    rewrite Heq. cbn. by rewrite Hlen, H6, H5, H4, H3.
  - pose proof (buildEngine_Returned _ _ _ Hbuilt) as (_ & _ & _ & Hwf & _).
    destruct (Descent_shape _ _ _ Hwf Hchain) as (_ & _ & _ & Hsteps).
    intros j longer shorter Hlonger Hshorter.
    apply oneLetterRemoved_letters. apply (nextWords_edge (engineBuckets engine) Hwf).
    by apply (Hsteps j).
Qed.

Lemma generatePuzzles_records_witness :
  ∃ puzzles puzzle,
    buildEngine trimUpperAscii bananas = Returned bananaEngine
    ∧ generatePuzzles (JsDate.fixedZone 0) (Some 1704067200000%Z) 1 bananaEngine = Returned puzzles
    ∧ puzzle ∈ puzzles
    ∧ startWord puzzle ∈ validSevenLetterWords bananaEngine
    ∧ ∃ w6 w5 w4 w3,
        words puzzle = [startWord puzzle; w6; w5; w4; w3]
        ∧ solution puzzle = {| six := w6; five := w5; four := w4; three := w3 |}
        ∧ Forall (λ word, word ∈ dictionary bananaEngine) (words puzzle)
        ∧ String.length <$> words puzzle = [7; 6; 5; 4; 3]
        ∧ ∀ i longer shorter,
            words puzzle !! i = Some longer → words puzzle !! S i = Some shorter →
            ∃ c, Js.spread longer ≡ₚ c :: Js.spread shorter.
Proof.
  assert (buildEngine trimUpperAscii bananas = Returned bananaEngine) as Hbuilt
    by (vm_compute; reflexivity).
  destruct (generatePuzzles_built trimUpperAscii (JsDate.fixedZone 0) bananas bananaEngine
              (Some 1704067200000%Z) 1 Hbuilt) as (puzzles & Hrun & Hall).
  destruct puzzles as [|puzzle rest]; [by apply Forall2_length in Hall |].
  assert (puzzle ∈ puzzle :: rest) as Hin by apply list_elem_of_here.
  exists (puzzle :: rest), puzzle.
  split_and!; [exact Hbuilt | exact Hrun | exact Hin | ..];
    apply (generatePuzzles_records trimUpperAscii (JsDate.fixedZone 0) bananas bananaEngine
             (Some 1704067200000%Z) 1 (puzzle :: rest) Hbuilt Hrun puzzle Hin).
Defined.

Lemma puzzleAt_all_unique zone startDate engine offsets puzzles1 puzzles2 :
  Forall2 (λ k puzzle, puzzleAt zone startDate engine k = Returned puzzle)
          offsets puzzles1 →
  Forall2 (λ k puzzle, puzzleAt zone startDate engine k = Returned puzzle)
          offsets puzzles2 →
  puzzles1 = puzzles2.
Proof.
  intros Hall1. revert puzzles2.
  induction Hall1 as [|k p1 offsets puzzles1 Hp1 _ IH]; intros puzzles2 Hall2.
  - by apply Forall2_nil_inv_l in Hall2.
  - apply Forall2_cons_inv_l in Hall2 as (p2 & rest & Hp2 & Hrest & ->).
    f_equal; [congruence | by apply IH].
Qed.

(** X20.  Asking for more days only adds records at the end: the records
    of a run for fewer days from the same start date are the first
    records of the longer run. *)
Theorem generatePuzzles_extends trimUpper zone rawWords engine startDate days more puzzles :
  buildEngine trimUpper rawWords = Returned engine →
  generatePuzzles zone startDate (days + more) engine = Returned puzzles →
  generatePuzzles zone startDate days engine = Returned (take days puzzles).
Proof.
  intros Hbuilt Hrun.
  destruct (generatePuzzles_built trimUpper zone rawWords engine startDate (days + more)
              Hbuilt) as (found & Hfound & Hall).
  assert (found = puzzles) as -> by congruence.
  destruct (generatePuzzles_built trimUpper zone rawWords engine startDate days Hbuilt)
    as (first & -> & Hfirst).
  rewrite seq_app in Hall.
  apply Forall2_app_inv_l in Hall as (front & back & Hfront & _ & ->).
  rewrite (puzzleAt_all_unique _ _ _ _ _ _ Hfirst Hfront).
  apply Forall2_length in Hfront. rewrite length_seq in Hfront.
  by rewrite take_app_length'.
Qed.

Lemma generatePuzzles_extends_witness :
  ∃ puzzles,
    buildEngine trimUpperAscii bananas = Returned bananaEngine
    ∧ generatePuzzles (JsDate.fixedZone 0) (Some 1704067200000%Z) (1 + 2) bananaEngine
      = Returned puzzles
    ∧ generatePuzzles (JsDate.fixedZone 0) (Some 1704067200000%Z) 1 bananaEngine
      = Returned (take 1 puzzles).
Proof.
  assert (buildEngine trimUpperAscii bananas = Returned bananaEngine) as Hbuilt
    by (vm_compute; reflexivity).
  destruct (generatePuzzles_built trimUpperAscii (JsDate.fixedZone 0) bananas bananaEngine
              (Some 1704067200000%Z) (1 + 2) Hbuilt) as (puzzles & Hrun & _).
  exists puzzles. split_and!; [exact Hbuilt | exact Hrun |].
  exact (generatePuzzles_extends trimUpperAscii (JsDate.fixedZone 0) bananas bananaEngine
           (Some 1704067200000%Z) 1 2 puzzles Hbuilt Hrun).
Defined.

(** ** The words file *)

Lemma trimStart_snoc chars w :
  isWhiteSpace w = true →
  (trimStart chars = [] ∧ trimStart (chars ++ [w]) = [])
  ∨ trimStart (chars ++ [w]) = trimStart chars ++ [w].
Proof.
  intros Hw. induction chars as [|c chars IH]; cbn [trimStart app].
  - left. by rewrite Hw.
  - destruct (isWhiteSpace c); [exact IH | by right].
Qed.

Lemma trim_snoc chars w :
  isWhiteSpace w = true → trim (Js.join (chars ++ [w])) = trim (Js.join chars).
Proof.
  intros Hw. unfold trim. rewrite !spread_join. f_equal. f_equal.
  destruct (trimStart_snoc chars w Hw) as [[-> ->] | ->]; [done |].
  rewrite reverse_snoc. cbn [trimStart]. by rewrite Hw.
Qed.

Lemma splitLines_last line acc :
  noLineFeed line → splitLines line acc = [Js.join (acc ++ Js.spread line)].
Proof.
  unfold noLineFeed. revert acc. induction line as [|c line IH]; intros acc Hline.
  - cbn. by rewrite app_nil_r.
  - cbn [Js.spread String.list_ascii_of_string] in Hline.
    apply not_elem_of_cons in Hline as [Hc Hline].
    cbn [splitLines]. destruct (Ascii.eqb_spec c "010"); [congruence |].
    assert (splitLines line (acc ++ [c]) = [Js.join (acc ++ Js.spread (String c line))])
      as Hnext.
    { rewrite IH by done. cbn [Js.spread String.list_ascii_of_string].
      by rewrite <- app_assoc. }
    destruct line as [|c' line']; [exact Hnext |].
    destruct (Ascii.eqb_spec c' "010") as [-> |]; [| by rewrite andb_false_r].
    exfalso. apply Hline. cbn. by left.
Qed.

Lemma splitLines_through line sep rest acc :
  noLineFeed line → sep = String "010" "" ∨ sep = String "013" (String "010" "") →
  ∃ first,
    splitLines (line +:+ sep +:+ rest) acc = first :: splitLines rest []
    ∧ trim first = trim (Js.join (acc ++ Js.spread line)).
Proof.
  unfold noLineFeed. revert acc. induction line as [|c line IH]; intros acc Hline Hsep.
  - exists (Js.join acc). rewrite app_nil_r. split; [| done].
    by destruct Hsep as [-> | ->].
  - cbn [Js.spread String.list_ascii_of_string] in Hline.
    apply not_elem_of_cons in Hline as [Hc Hline].
    change (String c line +:+ sep +:+ rest) with (String c (line +:+ sep +:+ rest)).
    cbn [splitLines]. destruct (Ascii.eqb_spec c "010"); [congruence |].
    destruct (IH (acc ++ [c]) Hline Hsep) as (first & Hrun & Htrim).
    assert (trim first = trim (Js.join (acc ++ Js.spread (String c line)))) as Hfirst.
    { rewrite Htrim. cbn [Js.spread String.list_ascii_of_string].
      by rewrite <- app_assoc. }
    destruct (line +:+ sep +:+ rest) as [|c' rest'] eqn:Hrest; [by exists first |].
    destruct (Ascii.eqb_spec c "013") as [-> |]; [| by exists first].
    destruct (Ascii.eqb_spec c' "010") as [-> |]; [| by exists first].
    cbn [andb]. destruct line as [|c'' line'].
    + destruct Hsep as [-> | ->]; [| discriminate Hrest].
      injection Hrest as <-. exists (Js.join acc). split; [done |].
      cbn [Js.spread String.list_ascii_of_string]. symmetry. by apply trim_snoc.
    + exfalso. injection Hrest as -> _. apply Hline. cbn. by left.
Qed.

Lemma splitLines_concat sep line lines :
  sep = String "010" "" ∨ sep = String "013" (String "010" "") →
  Forall noLineFeed (line :: lines) →
  trim <$> splitLines (String.concat sep (line :: lines)) [] = trim <$> (line :: lines).
Proof.
  intros Hsep. revert line. induction lines as [|next lines IH]; intros line Hall.
  - apply Forall_cons_1 in Hall as [Hline _]. cbn [String.concat].
    rewrite splitLines_last by done. cbn. by rewrite join_spread.
  - apply Forall_cons_1 in Hall as [Hline Hall].
    change (String.concat sep (line :: next :: lines))
      with (line +:+ sep +:+ String.concat sep (next :: lines)).
    destruct (splitLines_through line sep (String.concat sep (next :: lines)) [] Hline Hsep)
      as (first & -> & Htrim).
    rewrite fmap_cons, IH by done. cbn [app] in Htrim. rewrite join_spread in Htrim.
    by rewrite Htrim.
Qed.

Section WordsFileFacts.

Variable extname : string → string.
Variable basename : string → string.
Variable toLowerCase : string → string.
Variable jsonParse : string → option JsonValue.

(** X21.  For a path whose extension is not [.json], [parseWords] on
    lines joined by line feeds, or by carriage returns and line feeds,
    returns the lines trimmed, without the empty ones and those that
    start with [#]: both kinds of line end give the same words. *)
Theorem parseWords_lines sep lines wordsPath :
  toLowerCase (extname wordsPath) ≠ ".json" →
  sep = String "010" "" ∨ sep = String "013" (String "010" "") →
  Forall noLineFeed lines →
  parseWords extname basename toLowerCase jsonParse (String.concat sep lines) wordsPath
  = inr (JsString <$>
           filter (λ line, line ≠ "" ∧ Cli.startsWith "#" line = false)
                  (trim <$> lines)).
Proof.
  intros Htext Hsep Hlines. unfold parseWords. rewrite decide_False by done.
  destruct lines as [|line lines]; [by vm_compute |].
  by rewrite splitLines_concat.
Qed.


Lemma trimStart_suffix chars : ∃ spaces, chars = spaces ++ trimStart chars.
Proof.
  induction chars as [|c chars [spaces IH]]; [by exists [] |]. cbn [trimStart].
  destruct (isWhiteSpace c); [| by exists []].
  exists (c :: spaces). cbn [app]. by rewrite <- IH.
Qed.

Lemma trimStart_head chars c rest :
  trimStart chars = c :: rest → isWhiteSpace c = false.
Proof.
  induction chars as [|c' chars IH]; [done |]. cbn [trimStart].
  destruct (isWhiteSpace c') eqn:Hc'; [exact IH |]. by intros [= <- _].
Qed.

Lemma trimStart_fixed chars :
  (∀ c rest, chars = c :: rest → isWhiteSpace c = false) → trimStart chars = chars.
Proof.
  destruct chars as [|c rest]; [done |]. intros Hhead. cbn [trimStart].
  by rewrite (Hhead c rest eq_refl).
Qed.

Lemma trimStart_idemp chars : trimStart (trimStart chars) = trimStart chars.
Proof. apply trimStart_fixed. intros c rest. apply trimStart_head. Qed.

(** Trimming the end leaves a prefix. *)
Lemma trimEnd_prefix chars :
  ∃ spaces, chars = reverse (trimStart (reverse chars)) ++ spaces.
Proof.
  destruct (trimStart_suffix (reverse chars)) as [spaces Hspaces].
  exists (reverse spaces). rewrite <- reverse_app, <- Hspaces. by rewrite reverse_involutive.
Qed.

Lemma trim_chars line :
  ∃ before after,
    Js.spread line = before ++ Js.spread (trim line) ++ after
    ∧ trim (trim line) = trim line.
Proof.
  unfold trim. rewrite !spread_join.
  destruct (trimStart_suffix (Js.spread line)) as [before Hbefore].
  destruct (trimEnd_prefix (trimStart (Js.spread line))) as [after Hafter].
  exists before, after. split; [by rewrite <- Hafter |].
  f_equal. remember (trimStart (Js.spread line)) as kept eqn:Hkept.
  rewrite (trimStart_fixed (reverse (trimStart (reverse kept)))).
  - by rewrite reverse_involutive, trimStart_idemp.
  - intros c rest Hhead. rewrite Hhead in Hafter. cbn [app] in Hafter.
    rewrite Hafter in Hkept. symmetry in Hkept. by apply trimStart_head in Hkept.
Qed.

Lemma splitLines_noLineFeed text acc :
  "010"%char ∉ acc → Forall noLineFeed (splitLines text acc).
Proof.
  remember (String.length text) as n eqn:Hn. revert text acc Hn.
  induction n as [n IH] using lt_wf_ind. intros text acc Hn Hacc.
  assert (noLineFeed (Js.join acc)) as Hline
    by (unfold noLineFeed; by rewrite spread_join).
  destruct text as [|c rest]; cbn [splitLines].
  - by apply Forall_singleton.
  - cbn [String.length] in Hn.
    assert ("010"%char ∉ []) as Hnil by apply not_elem_of_nil.
    destruct (Ascii.eqb_spec c "010") as [-> | Hc].
    + apply Forall_cons_2; [done |]. apply (IH (String.length rest)); [lia | done | done].
    + assert ("010"%char ∉ acc ++ [c]) as Hnext.
      { rewrite elem_of_app. intros [? | Hlast]; [done |].
        apply list_elem_of_singleton in Hlast. congruence. }
      destruct rest as [|c' rest'].
      * apply (IH 0); [lia | done | done].
      * destruct (_ && _).
        -- apply Forall_cons_2; [done |]. cbn [String.length] in Hn.
           apply (IH (String.length rest')); [lia | done | done].
        -- apply (IH (String.length (String c' rest'))); [lia | done | done].
Qed.

(** X22.  For a path whose extension is not [.json], [parseWords] always
    returns, and every entry it returns is a string that is not empty,
    does not start with [#], has no white space at either end and holds
    no line feed. *)
Theorem parseWords_text_entries rawWords wordsPath :
  toLowerCase (extname wordsPath) ≠ ".json" →
  ∃ lines,
    parseWords extname basename toLowerCase jsonParse rawWords wordsPath
    = inr (JsString <$> lines)
    ∧ Forall (λ line,
                line ≠ "" ∧ Cli.startsWith "#" line = false
                ∧ trim line = line ∧ noLineFeed line) lines.
Proof.
  intros Htext. unfold parseWords. rewrite decide_False by done.
  eexists. split; [reflexivity |].
  apply Forall_forall. intros line [[Hfull Hnote] Hin]%list_elem_of_filter.
  apply list_elem_of_fmap in Hin as (raw & -> & Hraw).
  destruct (trim_chars raw) as (before & after & Hchars & Hidemp).
  split_and!; [done | done | done |].
  pose proof (splitLines_noLineFeed rawWords [] ltac:(apply not_elem_of_nil)) as Hall.
  rewrite Forall_forall in Hall. specialize (Hall raw Hraw).
  unfold noLineFeed in *. rewrite Hchars in Hall.
  rewrite !elem_of_app in Hall. tauto.
Qed.

End WordsFileFacts.

Lemma parseWords_lines_witness :
  (λ _ : string, ".txt") "words.txt" ≠ ".json"
  ∧ (String "013" (String "010" "") = String "010" ""
     ∨ String "013" (String "010" "") = String "013" (String "010" ""))
  ∧ Forall noLineFeed ["apple"; "# fruit"; "  pear "; ""]
  ∧ parseWords (λ _, ".txt") (λ path, path) (λ s, s) (λ _, None)
      (String.concat (String "013" (String "010" ""))
                     ["apple"; "# fruit"; "  pear "; ""]) "words.txt"
    = inr [JsString "apple"; JsString "pear"].
Proof.
  assert ((λ _ : string, ".txt") "words.txt" ≠ ".json") as Htext by discriminate.
  assert (Forall noLineFeed ["apple"; "# fruit"; "  pear "; ""]) as Hlines.
  { repeat apply Forall_cons_2; [..| apply Forall_nil_2];
      unfold noLineFeed; apply (bool_decide_unpack _); vm_compute; exact I. }
  split_and!; [exact Htext | by right | exact Hlines |].
  rewrite (parseWords_lines (λ _, ".txt") (λ path, path) (λ s, s) (λ _, None)
             (String "013" (String "010" "")) ["apple"; "# fruit"; "  pear "; ""]
             "words.txt" Htext (or_intror eq_refl) Hlines).
  vm_compute. reflexivity.
Defined.

Lemma parseWords_text_entries_witness :
  (λ _ : string, ".txt") "words.txt" ≠ ".json"
  ∧ ∃ lines,
      parseWords (λ _, ".txt") (λ path, path) (λ s, s) (λ _, None)
        (String.concat (String "010" "") [" kiwi "; "#c"; "fig"]) "words.txt"
      = inr (JsString <$> lines)
      ∧ Forall (λ line,
                  line ≠ "" ∧ Cli.startsWith "#" line = false
                  ∧ trim line = line ∧ noLineFeed line) lines.
Proof.
  assert ((λ _ : string, ".txt") "words.txt" ≠ ".json") as Htext by discriminate.
  split; [exact Htext |].
  exact (parseWords_text_entries (λ _, ".txt") (λ path, path) (λ s, s) (λ _, None)
           (String.concat (String "010" "") [" kiwi "; "#c"; "fig"]) "words.txt" Htext).
Defined.
